(** * postcss-at-js: a shallow embedding of the compile and interpretation
      pipeline, with the properties stated by its specification.

    The development follows the layout of the sources:
    - [Utils]    src/utils.ts      (object tests, property access)
    - [Script]   src/script.ts     (provenance-tracked code, [computeLoc],
                                    [translate], [SourceMap])
    - [Syntax]   src/syntax.ts     ([cssSyntaxError], [findSyntaxError],
                                    [userCode])
    - [Runtime]  src/runtime.ts    ([interpretObject], [interpretUnknown],
                                    [mainLoop], [stringify], [handleError])
    - [Compile]  src/compile.ts    ([checkInvalidAtJs], [loadGlobals],
                                    [compileSelector], [compileContainer])

    JavaScript strings are sequences of UTF-16 code units; a code unit is a
    natural number.  Numbers that hold offsets are integers ([Z]); [-1] is
    what [indexOf] answers when there is no occurrence. *)

From Stdlib Require Import ZArith NArith List Bool Lia String Ascii
  DecimalString Sorted.
From stdpp Require Import base option list gmap.

Set Warnings "-register-all".

Open Scope Z_scope.

(** ** JavaScript strings *)

Module JStr.

Abbreviation jstring := (list N) (only parsing).

(** A literal of the sources, written as a Rocq string. *)
Definition lit (s : String.string) : jstring :=
  List.map N_of_ascii (list_ascii_of_string s).

Definition len (s : jstring) : Z := Z.of_nat (length s).

Definition c_tab : N := 9.
Definition c_lf : N := 10.
Definition c_vt : N := 11.
Definition c_ff : N := 12.
Definition c_cr : N := 13.
Definition c_space : N := 32.
Definition c_dquote : N := 34.
Definition c_hash : N := 35.
Definition c_squote : N := 39.
Definition c_lparen : N := 40.
Definition c_rparen : N := 41.
Definition c_star : N := 42.
Definition c_slash : N := 47.
Definition c_semi : N := 59.
Definition c_at : N := 64.
Definition c_lbracket : N := 91.
Definition c_backslash : N := 92.
Definition c_rbracket : N := 93.
Definition c_lbrace : N := 123.
Definition c_rbrace : N := 125.

Definition mem (c : N) (cs : list N) : bool := existsb (N.eqb c) cs.

(** [.] of a regular expression without the [s] flag: every code unit but
    the line terminators LF, CR, U+2028 and U+2029. *)
Definition is_line_terminator (c : N) : bool :=
  mem c [c_lf; c_cr; 8232; 8233]%N.

(** [\s] of a regular expression: WhiteSpace and LineTerminator. *)
Definition is_space (c : N) : bool :=
  mem c [c_tab; c_lf; c_vt; c_ff; c_cr; c_space; 160; 5760; 8232; 8233;
         8239; 8287; 12288; 65279]%N
  || ((8192 <=? c) && (c <=? 8202))%N.

(** The class [[\t\n\f\r ]]. *)
Definition is_css_space (c : N) : bool :=
  mem c [c_tab; c_lf; c_ff; c_cr; c_space].

(** The class of CSS meta characters of the two regular expressions that
    split a key and recognise a marked value: double quote, hash, single
    quote, parentheses, slash, semicolon, brackets, backslash, braces. *)
Definition is_css_meta (c : N) : bool :=
  mem c [c_dquote; c_hash; c_squote; c_lparen; c_rparen; c_slash; c_semi;
         c_lbracket; c_backslash; c_rbracket; c_lbrace; c_rbrace].

Fixpoint eqb (a b : jstring) : bool :=
  match a, b with
  | [], [] => true
  | x :: a', y :: b' => N.eqb x y && eqb a' b'
  | _, _ => false
  end.

(** [s.startsWith(p)] *)
Fixpoint startsWith (p s : jstring) : bool :=
  match p, s with
  | [], _ => true
  | x :: p', y :: s' => N.eqb x y && startsWith p' s'
  | _ :: _, [] => false
  end.

(** [s.endsWith(p)] *)
Definition endsWith (p s : jstring) : bool :=
  startsWith (rev p) (rev s).

(** [s.indexOf(p)], counted from the head of [s]; [-1] when [p] does not
    occur. *)
Fixpoint indexOf (p s : jstring) : Z :=
  if startsWith p s then 0
  else match s with
       | [] => -1
       | _ :: s' => let i := indexOf p s' in if i <? 0 then -1 else i + 1
       end.

(** [s.indexOf(p, from)]: JavaScript clamps [from] into [0 .. s.length]. *)
Definition indexOfFrom (p s : jstring) (from : Z) : Z :=
  let k := Z.to_nat (Z.min (Z.max from 0) (len s)) in
  let i := indexOf p (drop k s) in
  if i <? 0 then -1 else i + Z.of_nat k.

Definition includes (p s : jstring) : bool := 0 <=? indexOf p s.

(** [s.slice(a)] and [s.slice(a, b)]: a negative offset counts from the
    end, and both ends are clamped into [0 .. s.length]. *)
Definition sliceFrom (s : jstring) (a : Z) : jstring :=
  if a <? 0 then drop (Z.to_nat (Z.max 0 (len s + a))) s
  else drop (Z.to_nat a) s.

Definition slice (s : jstring) (a b : Z) : jstring :=
  let n := len s in
  let a' := if a <? 0 then Z.max 0 (n + a) else Z.min a n in
  let b' := if b <? 0 then Z.max 0 (n + b) else Z.min b n in
  take (Z.to_nat (b' - a')) (drop (Z.to_nat a') s).

(** [c.repeat(n)] *)
Definition repeat (c : N) (n : nat) : jstring := replicate n c.

End JStr.

Import JStr.

(** ** The document tree (postcss, an external library)

    Only what the sources read or write is kept: the text fields, the
    children, [raws] and [source]. *)

Module Postcss.

Record Input := { file : option jstring; css : jstring }.

Record Position := { offset : Z; line : Z; column : Z }.

Record Source := {
  input : Input;
  start : option Position;
  finish : option Position
}.

Record Raws := {
  before : option jstring;
  between : option jstring;
  afterName : option jstring;
  after : option jstring;
  semicolon : option bool
}.

Definition noRaws : Raws :=
  {| before := None; between := None; afterName := None; after := None;
     semicolon := None |}.

(** [ChildNode]: an at-rule has a block ([nodes]) or none; a rule always
    has one. *)
Inductive ChildNode :=
| AtRule (name params : jstring) (nodes : option (list ChildNode))
         (raws : Raws) (source : option Source)
| Rule (selector : jstring) (nodes : list ChildNode)
       (raws : Raws) (source : option Source)
| Decl (prop value : jstring) (raws : Raws) (source : option Source)
| Comment (text : jstring) (raws : Raws) (source : option Source).

Record Root := {
  root_nodes : list ChildNode;
  root_raws : Raws;
  root_source : option Source
}.

Definition node_raws (n : ChildNode) : Raws :=
  match n with
  | AtRule _ _ _ r _ | Rule _ _ r _ | Decl _ _ r _ | Comment _ r _ => r
  end.

Definition node_source (n : ChildNode) : option Source :=
  match n with
  | AtRule _ _ _ _ s | Rule _ _ _ s | Decl _ _ _ s | Comment _ _ s => s
  end.

Definition set_source (n : ChildNode) (s : option Source) : ChildNode :=
  match n with
  | AtRule a p ns r _ => AtRule a p ns r s
  | Rule sel ns r _ => Rule sel ns r s
  | Decl p v r _ => Decl p v r s
  | Comment t r _ => Comment t r s
  end.

Definition set_raws (n : ChildNode) (r : Raws) : ChildNode :=
  match n with
  | AtRule a p ns _ s => AtRule a p ns r s
  | Rule sel ns _ s => Rule sel ns r s
  | Decl p v _ s => Decl p v r s
  | Comment t _ s => Comment t r s
  end.

Definition set_semicolon (r : Raws) (b : bool) : Raws :=
  {| before := before r; between := between r; afterName := afterName r;
     after := after r; semicolon := Some b |}.

(** [node.source?.input.file] *)
Definition source_file (s : option Source) : option jstring :=
  match s with Some src => file (input src) | None => None end.

(** [node.source?.start?.offset] *)
Definition source_start_offset (s : option Source) : option Z :=
  match s with
  | Some src => match start src with Some p => Some (offset p) | None => None end
  | None => None
  end.

(** [postcss.atRule({ name, params })], [postcss.rule({ selector })] and
    [postcss.decl({ prop, value })]: fresh nodes without source. *)
Definition atRule (name params : jstring) : ChildNode :=
  AtRule name params None noRaws None.
Definition rule (selector : jstring) : ChildNode :=
  Rule selector [] noRaws None.
Definition decl (prop value : jstring) : ChildNode :=
  Decl prop value noRaws None.

(** [container.append(nodes)]: an at-rule without a block gets one. *)
Definition append (dest : ChildNode) (ns : list ChildNode) : ChildNode :=
  match dest with
  | AtRule a p old r s => AtRule a p (Some (default [] old ++ ns)) r s
  | Rule sel old r s => Rule sel (old ++ ns) r s
  | Decl _ _ _ _ | Comment _ _ _ => dest
  end.

(** [root.removeAll()] *)
Definition removeAll (root : Root) : Root :=
  {| root_nodes := []; root_raws := root_raws root;
     root_source := root_source root |}.

(** [root.append(nodes)] where [nodes] is a root: its children are moved
    to the end of [root]; nothing of its raws or of its source is taken. *)
Definition appendRoot (root nodes : Root) : Root :=
  {| root_nodes := root_nodes root ++ root_nodes nodes;
     root_raws := root_raws root; root_source := root_source root |}.

(** A positioned error of postcss: [input.error(message, offset)] gives
    [at_offset = Some offset]; [node.error(message)] on a node whose start
    offset is unknown gives [None]. *)
Record CssSyntaxError := {
  reason : jstring;
  at_offset : option Z
}.

End Postcss.

Import Postcss.

(** ** JavaScript values, as far as the runtime tells them apart

    A value is classified by the first test of src/runtime.ts it passes, so
    the constructors are disjoint: an iterable object is [VIterable] (even
    when it is also a plain object), a plain object that is not iterable is
    [VPlain], and so on.  A function is named by an identifier; what a call
    does is a parameter of the runtime ([call]).  [VPlain] carries what
    [Object.entries] answers, in that order. *)

Module JS.

Definition fid := N.

(** [new BeginJs(node, offset, pos)] *)
Record BeginJs := {
  bj_node : ChildNode;
  bj_offset : Z;
  bj_pos : Z
}.

Inductive value :=
| VUndefined
| VNull
| VBool (b : bool)
| VNumber (text : jstring)
    (* a number, bigint or symbol, with the text String gives for it *)
| VString (s : jstring)
| VFunction (f : fid)
| VIterable (items : list value) (fin : ending)
    (* what the iterator yields, then how it ends *)
| VPlain (entries : list (jstring * value))
| VNode (n : ChildNode)
| VBeginJs (b : BeginJs)
| VEndJs (success : bool)
| VUnexpected (obj : value)
    (* an instance of the class Unexpected of src/runtime.ts *)
| VObject (toString : option jstring)
    (* any other object: [Some s] when toString is not the one of
       Object.prototype, and gives [s] *)
with ending :=
| Done (ret : value)
| Fail (e : exn)
(** A thrown value, with the property the runtime hides on it under
    [errorSymbol] ([tag]), and whether a property can be added to it
    ([extensible]; otherwise the assignment of [setProp] throws and is
    ignored). *)
with exn :=
| Exn (what : value) (extensible : bool) (tag : option Z).

Definition value_eq_undefined (v : value) : bool :=
  match v with VUndefined => true | _ => false end.

(** [typeof v === 'function'] *)
Definition is_function (v : value) : bool :=
  match v with VFunction _ => true | _ => false end.

(** [v == null] *)
Definition is_nullish (v : value) : bool :=
  match v with VUndefined | VNull => true | _ => false end.

(** [typeof v === 'object'] (true of null as well) *)
Definition typeof_object (v : value) : bool :=
  match v with
  | VNull | VIterable _ _ | VPlain _ | VNode _ | VBeginJs _ | VEndJs _
  | VUnexpected _ | VObject _ => true
  | VUndefined | VBool _ | VNumber _ | VString _ | VFunction _ => false
  end.

(** [String(v)] where the sources call it: on a value that passed
    [isStringifiable].  An [Unexpected] is an [Error] whose class gives it
    no name and no [toString] of its own: its text is the one of
    [Error.prototype.toString], the name [Error], a colon, a space and the
    message, which [message] gives for the value that the error was made
    for.  The values with [[]] are not stringifiable. *)
Definition String_ (message : value -> jstring) (v : value) : jstring :=
  match v with
  | VBool true => lit "true"
  | VBool false => lit "false"
  | VNumber t => t
  | VString s => s
  | VUnexpected obj => lit "Error: " ++ message obj
  | VObject (Some s) => s
  | _ => []
  end.

(** Own-property lookup in what [Object.entries] lists. *)
Fixpoint lookup_entry (k : jstring) (es : list (jstring * value))
  : option value :=
  match es with
  | [] => None
  | (k', v) :: es' => if JStr.eqb k k' then Some v else lookup_entry k es'
  end.








End JS.

Import JS.

(** ** src/utils.ts *)

Module Utils.

(** [isIterable]: an object with a function under [Symbol.iterator] or
    [Symbol.asyncIterator]. *)
Definition isIterable (arg : value) : bool :=
  match arg with VIterable _ _ => true | _ => false end.

(** [isObject]: [arg != null && typeof arg === 'object'] *)
Definition isObject (arg : value) : bool :=
  negb (is_nullish arg) && typeof_object arg.

(** [getProp(obj, key)] for a string key.  Of the objects of the model only
    a plain object has properties that the sources look up by name. *)
Definition getProp (obj : value) (key : jstring) : value :=
  if isObject obj then
    match obj with
    | VPlain es => default VUndefined (lookup_entry key es)
    | _ => VUndefined
    end
  else VUndefined.

(** [setProp(error, errorSymbol, pos, overwrite)] on a thrown value:
    [isObject(obj) && (key in obj ? overwrite : value !== undefined)], then
    an assignment whose failure is ignored. *)
Definition setProp_tag (e : exn) (pos : Z) (overwrite : bool) : exn :=
  match e with
  | Exn what ext tag =>
      if isObject what
         && (match tag with Some _ => overwrite | None => true end)
      then (if ext then Exn what ext (Some pos) else e)
      else e
  end.

(** [deleteProp(error, errorSymbol)]: the value that was stored. *)
Definition deleteProp_tag (e : exn) : option Z :=
  match e with
  | Exn what _ tag => if isObject what then tag else None
  end.

End Utils.

Import Utils.

(** ** src/runtime.ts *)

Module Runtime.

(** [ContainerRawsEnd] *)
Record ContainerRawsEnd := { semi : option bool }.

Definition coerceToRaws (obj : value) : ContainerRawsEnd :=
  match getProp obj (lit "semicolon") with
  | VBool b => {| semi := Some b |}
  | _ => {| semi := None |}
  end.

(** [semi2 == null ? semi1 : semi2 || Boolean(semi1)] *)
Definition mergeRaws (r1 r2 : ContainerRawsEnd) : ContainerRawsEnd :=
  {| semi := match semi r2 with
             | None => semi r1
             | Some s2 => Some (s2 || default false (semi r1))
             end |}.

(** [typeof s === 'string' && !/\S/.test(s)] *)
Definition blank (s : option jstring) : bool :=
  match s with Some t => forallb is_space t | None => false end.

Definition stripRaws (node : ChildNode) : ChildNode :=
  let r := node_raws node in
  set_raws node
    {| before := if blank (before r) then None else before r;
       between := between r;
       afterName := afterName r;
       after := if blank (after r) then None else after r;
       semicolon := semicolon r |}.

(** [appendNodes(dest, iter)] once [iter] is exhausted: [ns] are the nodes
    it yielded and [ret] its return value. *)
Definition appendNodes (dest : ChildNode) (ns : list ChildNode)
    (ret : ContainerRawsEnd) : ChildNode :=
  let dest' := append dest ns in
  let raws := mergeRaws ret {| semi := semicolon (node_raws dest) |} in
  match semi raws with
  | Some b => set_raws dest' (set_semicolon (node_raws dest') b)
  | None => dest'
  end.

(** [newContainer(orig, iter)]: a node of the class of [orig] with its
    string fields, a copy of its raws, its source, and the nodes of
    [iter] for children. *)
Definition newContainer (orig : ChildNode) (ns : list ChildNode)
    (ret : ContainerRawsEnd) : ChildNode :=
  let node :=
    match orig with
    | AtRule a p _ r s => AtRule a p None r s
    | Rule sel _ r s => Rule sel [] r s
    | Decl _ _ _ _ | Comment _ _ _ => orig
    end in
  appendNodes node ns ret.

(** [newContainer(root, iter)] for the root of the document: a root of
    its own, with a copy of the raws of [root] that takes the merged
    semicolon; [root] itself is not written. *)
Definition newRoot (orig : Root) (ns : list ChildNode)
    (ret : ContainerRawsEnd) : Root :=
  let raws := mergeRaws ret {| semi := semicolon (root_raws orig) |} in
  {| root_nodes := ns;
     root_raws := match semi raws with
                  | Some b => set_semicolon (root_raws orig) b
                  | None => root_raws orig
                  end;
     root_source := root_source orig |}.

(** [handleError(error, pos)]: tag without overwriting, then throw. *)
Definition handleError (error : exn) (pos : Z) : exn :=
  setProp_tag error pos false.

Definition getErrorPos (error : exn) : option Z := deleteProp_tag error.

Definition isPlainObject (arg : value) : bool :=
  match arg with VPlain _ => true | _ => false end.

(** [helper.isChildNode] *)
Definition isChildNode (arg : value) : bool :=
  match arg with VNode _ => true | _ => false end.

Definition isInterpretable (arg : value) : bool :=
  isIterable arg || isPlainObject arg || isChildNode arg.

(** [!isObject(arg) || arg.toString !== Object.prototype.toString].  An
    array and a postcss node have a toString of their own, an Error too;
    an instance of BeginJs or EndJs has none. *)
Definition hasOwnToString (arg : value) : bool :=
  negb (isObject arg)
  || match arg with
     | VObject ts => bool_decide (is_Some ts)
     | VPlain es => bool_decide (is_Some (lookup_entry (lit "toString") es))
     | VBeginJs _ | VEndJs _ => false
     | _ => true
     end.

Definition isStringifiable (arg : value) : bool :=
  negb (is_nullish arg)
  && negb (is_function arg)
  && negb (isInterpretable arg)
  && hasOwnToString arg.

(** The key of an at-rule, [/[\t\n\f\r ]+|(?=[meta])/.exec(src)]: the
    index of the match and the length of the matched text, which is the
    whole run of spaces, or nothing in front of a meta character. *)
Fixpoint spaceRun (s : jstring) : nat :=
  match s with
  | c :: s' => if is_css_space c then S (spaceRun s') else O
  | [] => O
  end.

Fixpoint keyBreak (src : jstring) : option (nat * nat) :=
  match src with
  | [] => None
  | c :: s' =>
      if is_css_space c then Some (O, spaceRun src)
      else if is_css_meta c then Some (O, O)
      else match keyBreak s' with
           | Some (i, n) => Some (S i, n)
           | None => None
           end
  end.

Definition atRuleName (src : jstring) : jstring :=
  match keyBreak src with
  | Some (i, _) => take i src
  | None => src
  end.

Definition atRuleParams (src : jstring) : jstring :=
  match keyBreak src with
  | Some (i, n) => drop (i + n) src
  | None => []
  end.

(** The result of a generator run to its end: the nodes it yielded and
    its return value, or the error it threw (the nodes yielded before an
    error are lost: [appendNodes] appends only after the end). *)
Inductive run A :=
| Ok (a : A)
| Err (e : exn).
Arguments Ok {A} a.
Arguments Err {A} e.

Section Host.

(** [inspect(obj, { depth })] of node:util. *)
Variable inspect : value -> Z -> jstring.

(** A call of a guest function, with one argument or none. *)
Variable call : fid -> option value -> ending.

(** [input.fromOffset(offset)] of postcss: line and column. *)
Variable fromOffset : Input -> Z -> option (Z * Z).

(** The message of [Unexpected.create(obj, pos)]. *)
Definition unexpected_message (obj : value) : jstring :=
  lit "attempt to inject an invalid value: " ++ inspect obj 3.

(** [Unexpected.create(obj, pos)]: a fresh error, tagged with [pos] when
    there is one. *)
Definition Unexpected_create (obj : value) (pos : option Z) : exn :=
  Exn (VUnexpected obj) true pos.

(** [BeginJs.source()] (the cache only spares the recomputation) *)
Definition BeginJs_source (b : BeginJs) : option Source :=
  match node_source (bj_node b) with
  | None => None
  | Some src =>
      let off := default 0 (source_start_offset (Some src)) + bj_offset b in
      match fromOffset (input src) off with
      | Some (l, c) =>
          Some {| input := input src;
                  start := Some {| offset := off; line := l; column := c |};
                  finish := finish src |}
      | None => Some src
      end
  end.

(** [class Context] *)
Record Context := {
  ctx_source : option BeginJs;
  ctx_raws : option ContainerRawsEnd
}.

Definition newContext : Context :=
  {| ctx_source := None; ctx_raws := None |}.

Definition Context_next (c : Context) (source : BeginJs) : Context :=
  {| ctx_source := Some source; ctx_raws := ctx_raws c |}.

Definition Context_nest (c : Context) : Context :=
  {| ctx_source := ctx_source c; ctx_raws := None |}.

Definition rawsEnd (c : Context) : ContainerRawsEnd :=
  default {| semi := None |} (ctx_raws c).

Definition Context_mergeRaws (c : Context) (raws : ContainerRawsEnd)
  : Context :=
  {| ctx_source := ctx_source c;
     ctx_raws := Some (mergeRaws (rawsEnd c) raws) |}.

(** [context.reflect(node)]: forget the raws, give the node the source
    of the active region when it has none. *)
Definition Context_reflect (c : Context) (node : ChildNode)
  : ChildNode * Context :=
  let c' := {| ctx_source := ctx_source c; ctx_raws := None |} in
  match node_source node with
  | Some _ => (node, c')
  | None =>
      match ctx_source c with
      | Some b =>
          match BeginJs_source b with
          | Some s => (set_source node (Some s), c')
          | None => (node, c')
          end
      | None => (node, c')
      end
  end.

Definition Context_unexpected (c : Context) (obj : value) : exn :=
  Unexpected_create obj (bj_pos <$> ctx_source c).

(** [interpretUnknown] and [interpretObject].  The source walks nested
    iterables with a stack of iterators; the values of the model are
    finite trees, and the walk is written by recursion on the value:
    the items of an iterable in order, each flattened depth first, then
    the end of the iterable.  The two functions call each other, so the
    bodies are first written over the recursive call [walk]. *)
Section Bodies.

Variable walk : value -> Context -> run (list ChildNode * Context).

(** [interpretUnknown(value, context)] run to its end: the walk, then
    [context.mergeRaws({ semicolon: true })] and [context.rawsEnd]. *)
Definition interpretUnknown_body (arg : value) (context : Context)
  : run (list ChildNode * ContainerRawsEnd) :=
  match walk arg context with
  | Err e => Err e
  | Ok (ns, c) =>
      Ok (ns, rawsEnd (Context_mergeRaws c {| semi := Some true |}))
  end.

(** [await appendNodes(node, interpretUnknown(value, context.nest()))] *)
Definition nested_body (node : ChildNode) (value : value)
    (context : Context) : run ChildNode :=
  match interpretUnknown_body value (Context_nest context) with
  | Err e => Err e
  | Ok (ns, ret) => Ok (appendNodes node ns ret)
  end.

(** One turn of the loop of [interpretObject]: the node of one entry,
    and the context as the turn leaves it. *)
Definition entry_body (key : jstring) (value : value)
    (context : Context) : run (ChildNode * Context) :=
  if startsWith (lit "@") key then
    let src := sliceFrom key 1 in
    let '(node, c1) :=
      Context_reflect context
        (atRule (atRuleName src) (atRuleParams src)) in
    if isInterpretable value then
      match nested_body node value c1 with
      | Err e => Err e
      | Ok node' => Ok (node', c1)
      end
    else if negb (value_eq_undefined value) then
      Err (Context_unexpected c1 value)
    else Ok (node, c1)
  else if isInterpretable value then
    let '(node, c1) := Context_reflect context (rule key) in
    match nested_body node value c1 with
    | Err e => Err e
    | Ok node' => Ok (node', c1)
    end
  else if isStringifiable value then
    Ok (Context_reflect context
         (decl key (String_ unexpected_message value)))
  else Err (Context_unexpected context value).

End Bodies.

Fixpoint interp (arg : value) (context : Context) {struct arg}
  : run (list ChildNode * Context) :=
  match arg with
  | VIterable items fin =>
      (fix items_loop (l : list value) (c : Context)
         : run (list ChildNode * Context) :=
         match l with
         | [] => match fin with
                 | Done _ => Ok ([], c)
                 | Fail e => Err e
                 end
         | v :: l' =>
             match interp v c with
             | Err e => Err e
             | Ok (ns, c') =>
                 match items_loop l' c' with
                 | Err e => Err e
                 | Ok (ns', c'') => Ok (ns ++ ns', c'')
                 end
             end
         end) items context
  | VPlain es =>
      (fix entries (l : list (jstring * value)) (c : Context)
         : run (list ChildNode * Context) :=
         match l with
         | [] => Ok ([], c)
         | (key, value) :: l' =>
             match entry_body interp key value c with
             | Err e => Err e
             | Ok (node, c1) =>
                 match entries l' c1 with
                 | Err e => Err e
                 | Ok (ns, c2) => Ok (node :: ns, c2)
                 end
             end
         end) es context
  | VNode n =>
      let '(n', c) := Context_reflect context n in Ok ([n'], c)
  | _ => Err (Context_unexpected context arg)
  end.

Definition interpretUnknown := interpretUnknown_body interp.
Definition interpretEntry := entry_body interp.

(** [interpretObject(obj, context)] run to its end. *)
Fixpoint interpretObject (obj : list (jstring * value))
    (context : Context) : run (list ChildNode * Context) :=
  match obj with
  | [] => Ok ([], context)
  | (key, value) :: rest =>
      match interpretEntry key value context with
      | Err e => Err e
      | Ok (node, c1) =>
          match interpretObject rest c1 with
          | Err e => Err e
          | Ok (ns, c2) => Ok (node :: ns, c2)
          end
      end
  end.

(** The items of an iterable, walked in order. *)
Fixpoint interpItems (items : list value) (fin : ending)
    (context : Context) : run (list ChildNode * Context) :=
  match items with
  | [] => match fin with
          | Done _ => Ok ([], context)
          | Fail e => Err e
          end
  | v :: rest =>
      match interp v context with
      | Err e => Err e
      | Ok (ns, c') =>
          match interpItems rest fin c' with
          | Err e => Err e
          | Ok (ns', c'') => Ok (ns ++ ns', c'')
          end
      end
  end.

(** [stringify(helper)(value)] *)
Definition stringify (value : value) : run jstring :=
  if negb (isStringifiable value) then Err (Unexpected_create value None)
  else Ok (String_ unexpected_message value).

(** An iterator: the values it has yet to yield, and how it ends. *)
Record Iter := { rest : list value; fin : ending }.

(** [iterator(value)] of an iterable *)
Definition iterator (items : list value) (e : ending) : Iter :=
  {| rest := items; fin := e |}.

(** The variables of [mainLoop].  [next] is [None] where the source has
    [next == null]; otherwise it holds [next.value] of an item that is
    not done. *)
Record State := {
  func : option fid;
  next : option value;
  context : Context;
  stack : list Iter;
  iter : Iter
}.

(** The inner loop, [next = await iter.next()] until an item is not
    done: a finished iterator gives its return value to [mergeRaws] and
    the stack is popped; with the stack empty, [mainLoop] returns. *)
Inductive Fetched :=
| Item (v : value) (it : Iter) (st : list Iter) (c : Context)
| Finished (raws : ContainerRawsEnd)
| Raised (e : exn).

Fixpoint fetch (it : Iter) (st : list Iter) (c : Context) {struct st}
  : Fetched :=
  match rest it with
  | v :: r => Item v {| rest := r; fin := fin it |} st c
  | [] =>
      match fin it with
      | Fail e => Raised e
      | Done ret =>
          let c' := Context_mergeRaws c (coerceToRaws ret) in
          match st with
          | [] => Finished (rawsEnd c')
          | it' :: st' => fetch it' st' c'
          end
      end
  end.

(** What one turn of the outer loop does. *)
Inductive Turn :=
| Yields (ns : list ChildNode) (s : State)
| Returns (raws : ContainerRawsEnd)
| Throws (e : exn).

(** The classification of [value], the chain of tests that ends a turn
    of the loop. *)
Definition classify (value : value) (s : State) : Turn :=
  match value with
  | VBeginJs b =>
      Yields [] {| func := func s; next := next s;
                   context := Context_next (context s) b;
                   stack := stack s; iter := iter s |}
  | VEndJs _ => Yields [] s
  | VIterable items e =>
      Yields [] {| func := func s; next := next s; context := context s;
                   stack := iter s :: stack s;
                   iter := iterator items e |}
  | VPlain obj =>
      match interpretObject obj (context s) with
      | Err e => Throws e
      | Ok (ns, c) =>
          Yields ns {| func := func s; next := next s; context := c;
                       stack := stack s; iter := iter s |}
      end
  | VNode n =>
      let '(n', c) := Context_reflect (context s) n in
      Yields [n'] {| func := func s; next := next s; context := c;
                     stack := stack s; iter := iter s |}
  | VFunction f =>
      Yields [] {| func := Some f; next := next s; context := context s;
                   stack := stack s; iter := iter s |}
  | VUndefined => Yields [] s
  | _ => Throws (Context_unexpected (context s) value)
  end.

(** The choice of [value]: the item itself, or what the pending
    function makes of it. *)
Definition dispatch (s : State) (item : value) : Turn :=
  match func s with
  | None =>
      classify item {| func := None; next := None; context := context s;
                       stack := stack s; iter := iter s |}
  | Some f =>
      let held := {| func := None; next := Some item;
                     context := context s; stack := stack s;
                     iter := iter s |} in
      match item with
      | VEndJs success =>
          if success then
            match call f None with
            | Done v => classify v held
            | Fail e => Throws e
            end
          else classify VUndefined held
      | _ =>
          match call f (Some item) with
          | Done v =>
              classify v {| func := None; next := None;
                            context := context s; stack := stack s;
                            iter := iter s |}
          | Fail e => Throws e
          end
      end
  end.

(** One turn of the outer loop of [mainLoop]. *)
Definition turn (s : State) : Turn :=
  match next s with
  | Some item => dispatch s item
  | None =>
      match fetch (iter s) (stack s) (context s) with
      | Finished raws => Returns raws
      | Raised e => Throws e
      | Item v it st c =>
          dispatch {| func := func s; next := Some v; context := c;
                      stack := st; iter := it |} v
      end
  end.

(** [mainLoop] run for at most [fuel] turns: the nodes yielded and the
    return value, or the error thrown; [None] when the turns run out (a
    function that keeps answering a function does not let the loop
    end). *)
Fixpoint loop (fuel : nat) (s : State) (out : list ChildNode)
  : option (run (list ChildNode * ContainerRawsEnd)) :=
  match fuel with
  | O => None
  | S fuel' =>
      match turn s with
      | Returns raws => Some (Ok (out, raws))
      | Throws e => Some (Err e)
      | Yields ns s' => loop fuel' s' (out ++ ns)
      end
  end.

Definition initial (contents : Iter) : State :=
  {| func := None; next := None; context := newContext; stack := [];
     iter := contents |}.

Definition mainLoop (fuel : nat) (contents : Iter)
  : option (run (list ChildNode * ContainerRawsEnd)) :=
  loop fuel (initial contents) [].

End Host.

End Runtime.

(** ** src/script.ts *)

Module Script.

(** The [offset] field of a location: missing, [null], or a number. *)
Inductive OffsetField :=
| Absent
| Null
| Num (n : Z).

(** [type Loc].  An object with a [source] field is [Tag]; a postcss
    [Source] has no such field. *)
Inductive Loc :=
| LUndefined
| LRelative
| LSource (s : Source)
| Tag (source : Loc) (offset : OffsetField).

Record ComputedLoc := {
  cl_source : option Source;
  cl_offset : Z;
  cl_inc : Z
}.

(** [class Code]: the content of a nested code is an array, maybe sparse,
    of strings and codes. *)
Inductive Code :=
| MkCode (content : list (option Item)) (source : Loc)
with Item :=
| Text (s : jstring)
| Sub (c : Code).

Definition code_content (c : Code) : list (option Item) :=
  match c with MkCode l _ => l end.

Definition code_source (c : Code) : Loc :=
  match c with MkCode _ s => s end.

(** A [Code] where a [Loc] is expected: it has a [source] field and no
    [offset] field. *)
Definition loc_of_code (c : Code) : Loc := Tag (code_source c) Absent.

(** A [ComputedLoc] where a [Loc] is expected: its [source] field is a
    postcss source or undefined, its [offset] a number. *)
Definition loc_of_computed (l : ComputedLoc) : Loc :=
  Tag (match cl_source l with Some s => LSource s | None => LUndefined end)
      (Num (cl_offset l)).

(** The loop of [computeLoc]: follow the [source] fields, adding the
    offsets, until something that is not a tagged location. *)
Fixpoint chase (loc : Loc) (offset inc : Z) : Loc * Z * Z :=
  match loc with
  | Tag source Null => chase source offset 0
  | Tag source (Num n) => chase source (offset + n) inc
  | Tag source Absent => chase source (offset + 0) inc
  | _ => (loc, offset, inc)
  end.

(** The end of [computeLoc], given what [computeLoc(from)] answers. *)
Definition settle (base : ComputedLoc) (r : Loc * Z * Z) : ComputedLoc :=
  let '(loc, offset, inc) := r in
  match loc with
  | LRelative =>
      {| cl_source := cl_source base; cl_offset := cl_offset base + offset;
         cl_inc := 0 |}
  | LSource s => {| cl_source := Some s; cl_offset := offset; cl_inc := inc |}
  | _ => {| cl_source := None; cl_offset := offset; cl_inc := inc |}
  end.

(** [computeLoc()] *)
Definition computeLoc0 : ComputedLoc :=
  {| cl_source := None; cl_offset := 0; cl_inc := 1 |}.

(** [computeLoc(loc, from)].  The recursive call is [computeLoc(from)],
    without a second argument: a [from] that ends in ['relative'] has
    [computeLoc()] for a base. *)
Definition computeLoc (loc from : Loc) : ComputedLoc :=
  settle (settle computeLoc0 (chase from 0 1)) (chase loc 0 1).

(** [code.location()] *)
Definition location (c : Code) : ComputedLoc :=
  computeLoc (code_source c) LUndefined.

(** [code.toString()]: the join of the content, a hole giving nothing. *)
Fixpoint toString (c : Code) : jstring :=
  match c with
  | MkCode content _ =>
      (fix join (l : list (option Item)) : jstring :=
         match l with
         | [] => []
         | None :: l' => join l'
         | Some (Text s) :: l' => s ++ join l'
         | Some (Sub c') :: l' => toString c' ++ join l'
         end) content
  end.

(** The join of a content. *)
Fixpoint joinItems (l : list (option Item)) : jstring :=
  match l with
  | [] => []
  | None :: l' => joinItems l'
  | Some (Text s) :: l' => s ++ joinItems l'
  | Some (Sub c) :: l' => toString c ++ joinItems l'
  end.

(** [translate(source, methods)] as far as its callbacks act on a state:
    [begin] gives the context of a nested code from the context around
    it, [leaf] is [methods.translate] on a string.  The source walks the
    tree with a stack of tasks, in content order; holes are skipped.  The
    code it rebuilds is not kept here. *)
Section Translate.

Context {C St : Type}.
Variable begin : Code -> C -> St -> C.
Variable leaf : jstring -> C -> St -> St.

Fixpoint walk (context : C) (src : Code) (st : St) {struct src} : St :=
  match src with
  | MkCode content _ =>
      (fix items (l : list (option Item)) (st : St) : St :=
         match l with
         | [] => st
         | None :: l' => items l' st
         | Some (Text s) :: l' => items l' (leaf s context st)
         | Some (Sub c) :: l' => items l' (walk (begin c context st) c st)
         end) content st
  end.

(** The loop over the content of one code. *)
Fixpoint walkItems (context : C) (l : list (option Item)) (st : St)
  : St :=
  match l with
  | [] => st
  | None :: l' => walkItems context l' st
  | Some (Text s) :: l' => walkItems context l' (leaf s context st)
  | Some (Sub c) :: l' =>
      walkItems context l' (walk (begin c context st) c st)
  end.

Definition translate (source : Code) (init : C) (st : St) : St :=
  walk (begin source init st) source st.

End Translate.

(** [class SourceMap]: [cursor], [position] and the two arrays, read
    together: entry [p] is [(sourceMap[p], offsetMap[p])], or [None] where
    nothing was stored. *)
Record MapState := {
  cursor : Z;
  position : Z;
  entries : list (option (Source * Z))
}.

Record MapContext := { loc : ComputedLoc; start_ : Z }.

Definition sm_init : MapContext := {| loc := computeLoc0; start_ := 0 |}.

Definition sm_begin (code : Code) (c : MapContext) (st : MapState)
  : MapContext :=
  {| loc := computeLoc (loc_of_code code)
              (Tag (loc_of_computed (loc c)) (Num (cursor st - start_ c)));
     start_ := cursor st |}.

Definition sm_translate (item : jstring) (c : MapContext) (st : MapState)
  : MapState :=
  let l := loc c in
  match cl_source l with
  | Some src =>
      let offset := cl_offset l + (cursor st - start_ c) * cl_inc l in
      {| cursor := cursor st + len item * cl_inc l;
         position := position st + len item;
         entries :=
           entries st
           ++ List.map (fun i => Some (src, offset + Z.of_nat i * cl_inc l))
                (seq 0 (length item)) |}
  | None =>
      {| cursor := cursor st;
         position := position st + len item;
         entries := entries st ++ replicate (length item) None |}
  end.

(** [SourceMap.force]: one walk of the code. *)
Definition force (code : Code) : MapState :=
  translate sm_begin sm_translate code sm_init
    {| cursor := 0; position := 0; entries := [] |}.

(** [SourceMap.find(position)] *)
Definition find (fromOffset : Input -> Z -> option (Z * Z))
    (code : Code) (pos : Z) : option Source :=
  if pos <? 0 then None
  else
    match entries (force code) !! Z.to_nat pos with
    | Some (Some (source, offset)) =>
        let offset := offset + default 0 (source_start_offset (Some source)) in
        match fromOffset (input source) offset with
        | None => Some source
        | Some (l, c) =>
            Some {| input := input source;
                    start := Some {| Postcss.offset := offset; line := l;
                                     column := c |};
                    finish := finish source |}
        end
    | _ => None
    end.

End Script.

Import Script.

(** ** src/syntax.ts *)

Module Syntax.

(** [cssSyntaxError(message, node, offset)], from the source of [node]. *)
Definition cssSyntaxError (message : jstring) (source : option Source)
    (offset : Z) : CssSyntaxError :=
  match source_start_offset source with
  | Some s => {| reason := message; at_offset := Some (s + offset) |}
  | None => {| reason := message; at_offset := None |}
  end.

(** An error of a parser: [String(error)] and its [pos] property when it
    is a number. *)
Record ParseError := { text : jstring; pos : option Z }.

Record UserCode := { expr : bool; code : Code }.

(** What [userCode] answers: a validated fragment, a syntax error with a
    document position, or the error [replaceImport] lets through. *)
Inductive Validated :=
| Accepted (u : UserCode)
| Rejected (e : CssSyntaxError)
| ImportFailed.

Section Host.

(** [Function(test)]: [None] when the text compiles, otherwise the
    error thrown. *)
Variable Function_ : jstring -> option ParseError.

(** [acornParse()]: the [parse] of acorn when the package can be
    imported; [parse] answers [None] when it accepts the text. *)
Variable acorn : option (jstring -> option ParseError).

(** [replaceImport(code)]; [None] when it throws. *)
Variable replaceImport : Code -> option Code.

(** [findSyntaxError(test, cause)] *)
Definition findSyntaxError (test : jstring) (cause : ParseError)
  : ParseError * option Z :=
  match acorn with
  | None => (cause, None)
  | Some parse =>
      match parse test with
      | None => (cause, None)
      | Some error => (error, pos error)
      end
  end.

(** [attempt(prefix, suffix, errorDetail)] of [userCode]: [None] when
    the text compiles.  Without [errorDetail] the error is a bare
    [Error()], here without reason and position. *)
Definition attempt (source : option Source) (offset : Z)
    (sourceCode prefix suffix : jstring) (errorDetail : bool)
  : option CssSyntaxError :=
  let test := prefix ++ sourceCode ++ suffix in
  match Function_ test with
  | None => None
  | Some error =>
      if negb errorDetail then Some {| reason := []; at_offset := None |}
      else
        let '(cause, fpos) := findSyntaxError test error in
        let p := offset + default (len prefix) fpos - len prefix in
        Some (cssSyntaxError (text cause) source p)
  end.

Definition newline : jstring := [c_lf].

Definition exprPrefix : jstring :=
  lit "async function* f(){ return (" ++ newline.
Definition exprSuffix (stub : jstring) : jstring :=
  stub ++ newline ++ lit ");}".
Definition stmtPrefix : jstring := lit "async function* f(){" ++ newline.
Definition stmtSuffix (stub : jstring) : jstring :=
  stub ++ newline ++ lit ";}".

Definition imported (c : Code) (e : bool) : Validated :=
  match replaceImport c with
  | Some c' => Accepted {| expr := e; code := c' |}
  | None => ImportFailed
  end.

(** [new Code([sourceCode], { source: at.source, offset })] *)
Definition fragmentCode (source : option Source) (offset : Z)
    (sourceCode : jstring) : Code :=
  MkCode [Some (Text sourceCode)]
    (Tag (match source with Some s => LSource s | None => LUndefined end)
         (Num offset)).

(** [userCode(at, offset, sourceCode, stub)] *)
Definition userCode (source : option Source) (offset : Z)
    (sourceCode stub : jstring) : Validated :=
  let code := fragmentCode source offset sourceCode in
  match attempt source offset sourceCode exprPrefix (exprSuffix stub)
          false with
  | None => imported code true
  | Some _ =>
      match attempt source offset sourceCode stmtPrefix (stmtSuffix stub)
              true with
      | None => imported code false
      | Some e2 => Rejected e2
      end
  end.

End Host.

End Syntax.

(** ** src/compile.ts: the checks and the compilation of a document *)

Module Compile.

Import Syntax.

(** [decl.raws.between ?? ': '] and the like, on the fields they read. *)
Definition declBetween (raws : Raws) : jstring :=
  default (lit ": ") (between raws).

Definition ruleBetween (raws : Raws) : jstring :=
  default (lit " ") (between raws).

Definition atRuleAfterName (params : jstring) (raws : Raws) : jstring :=
  default (match params with [] => [] | _ => lit " " end) (afterName raws).

Definition atRuleBetween (nodes : option (list ChildNode)) (raws : Raws)
  : jstring :=
  default (match nodes with None => [] | Some _ => lit " " end)
          (between raws).

Definition valueOffset (prop : jstring) (raws : Raws) : Z :=
  len (prop ++ declBetween raws).

Definition ruleBodyOffset (selector : jstring) (raws : Raws) : Z :=
  len (selector ++ ruleBetween raws).

Definition paramsOffset (name params : jstring) (raws : Raws) : Z :=
  len (lit "@" ++ name ++ atRuleAfterName params raws).

Definition atRuleBodyOffset (name params : jstring)
    (nodes : option (list ChildNode)) (raws : Raws) : Z :=
  paramsOffset name params raws + len (params ++ atRuleBetween nodes raws).

Definition GlobalScope := option jstring.
Definition GlobalBinds := list (jstring * value).

(** The marker. *)
Definition atjs : jstring := lit "@js".

(** *** [checkInvalidAtJs]

    The regular expression of the mask matches, at a quote that no
    backslash precedes, the quote, then pieces that are a code unit other
    than backslash and that quote, or a backslash and one code unit that
    [.] accepts, then the same quote.  The pieces start with different
    code units, so the match is found by one scan, without backtracking.
    [literalTail q s] is the length of what follows the opening quote [q],
    closing quote included, or [None] when there is no match. *)
Fixpoint literalTail (q : N) (s : jstring) : option nat :=
  match s with
  | [] => None
  | c :: s' =>
      if N.eqb c q then Some 1%nat
      else if N.eqb c c_backslash then
        match s' with
        | [] => None
        | d :: s'' =>
            if is_line_terminator d then None
            else match literalTail q s'' with
                 | Some n => Some (S (S n))
                 | None => None
                 end
        end
      else match literalTail q s' with
           | Some n => Some (S n)
           | None => None
           end
  end.

Definition is_quote (c : N) : bool := N.eqb c c_squote || N.eqb c c_dquote.

(** The global [replace]: matches are looked for from left to right, each
    search resuming after the last match.  [pending] counts the code
    units of the current match that are still to be replaced, [escaped]
    tells whether the code unit before is a backslash (the lookbehind);
    [flags] marks the code units that belong to a match. *)
Fixpoint flags (escaped : bool) (pending : nat) (s : jstring) : list bool :=
  match s with
  | [] => []
  | c :: s' =>
      match pending with
      | S n => true :: flags false n s'
      | O =>
          if is_quote c && negb escaped then
            match literalTail c s' with
            | Some n => true :: flags false n s'
            | None => false :: flags false 0 s'
            end
          else false :: flags (N.eqb c c_backslash) 0 s'
      end
  end.

(** [src.replace(re, mask)] with [mask = s => '*'.repeat(s.length)] *)
Definition masked (src : jstring) : jstring :=
  zip_with (fun (c : N) (b : bool) => if b then c_star else c)
           src (flags false 0 src).

(** [checkInvalidAtJs(src, node, offset)]: the error thrown, if any. *)
Definition checkInvalidAtJs (src : jstring) (source : option Source)
    (offset : Z) : option CssSyntaxError :=
  let i := indexOf atjs (masked src) in
  if 0 <=? i then
    Some (cssSyntaxError (lit "invalid use of @js") source (offset + i))
  else None.

(** [/^@js(?:\s+|(?=[meta])|$)/.exec(value)]: the length of the match. *)
Fixpoint wsRun (s : jstring) : nat :=
  match s with
  | c :: s' => if is_space c then S (wsRun s') else O
  | [] => O
  end.

Definition markedValue (v : jstring) : option nat :=
  if startsWith atjs v then
    match drop 3 v with
    | [] => Some 3%nat
    | c :: r =>
        if is_space c then Some (3 + wsRun (c :: r))%nat
        else if is_css_meta c then Some 3%nat
        else None
    end
  else None.

(** *** The synthesized program

    The compiler writes JavaScript text; here the text is kept as the
    tree of the templates it is made of, one constructor for each
    template of [compileContainerChildren] and [compileContainer].
    [fr_pos] stands for the number that [generate] writes in place of the
    [Offset] placeholder of a fragment. *)
Record Fragment := {
  fr_expr : bool;
  fr_text : jstring;
  fr_code : Code;
  fr_pos : Z
}.

(** What [compileSelector] builds: the slices of the selector, each
    followed by the fragment spliced after it, and the last slice. *)
Record SelectorCode := {
  sc_pieces : list (jstring * Fragment);
  sc_tail : jstring
}.

Inductive Element :=
| EAtJs (atRule : ChildNode) (offset : Z) (frag : Fragment)
        (child : option Program)
    (* compileAtJs: cursor, BeginJs, the fragment, EndJs *)
| EContainer (node : ChildNode) (child : Program) (strip : bool)
    (* const d = await newContainer(node, child); yield d *)
| ERule (node : ChildNode) (sel : option SelectorCode)
        (child : option Program) (strip : bool)
    (* a rule rebuilt from its selector code, its child code, or both *)
| EDecl (node : ChildNode) (frag : Fragment) (strip : bool)
    (* a declaration whose value is a fragment *)
| ENode (node : ChildNode)
    (* a child pushed as it is; compileContainer yields a clone *)
with Program :=
| PEmpty
    (* the empty code *)
| PMain (raws : Raws) (guarded inAtJs : bool) (blocks : list Block)
    (* interpretMain(async function*() { body; return container.raws }) *)
with Block :=
| MkBlock (prologue : option GlobalBinds) (body : list Element).

Definition block_body (b : Block) : list Element :=
  match b with MkBlock _ body => body end.

Definition block_prologue (b : Block) : option GlobalBinds :=
  match b with MkBlock p _ => p end.

(** [n instanceof Code] for an element of a body *)
Definition is_code (e : Element) : bool :=
  match e with ENode _ => false | _ => true end.

(** [childCode.content.length > 0] *)
Definition nonempty (p : Program) : bool :=
  match p with PEmpty => false | PMain _ _ _ _ => true end.

(** [node.raws.before = b] on the node an element refers to. *)
Definition with_before (n : ChildNode) (b : option jstring) : ChildNode :=
  let r := node_raws n in
  set_raws n {| before := b; between := between r;
                afterName := afterName r; after := after r;
                semicolon := semicolon r |}.

Definition element_set_before (e : Element) (b : option jstring)
  : Element :=
  match e with
  | EAtJs n o f c => EAtJs (with_before n b) o f c
  | EContainer n c s => EContainer (with_before n b) c s
  | ERule n sel c s => ERule (with_before n b) sel c s
  | EDecl n f s => EDecl (with_before n b) f s
  | ENode n => ENode (with_before n b)
  end.

(** [s.trim()] *)
Definition trim (s : jstring) : jstring :=
  rev (drop (wsRun (rev s)) (rev (drop (wsRun s) s))).

(** *** The compiler

    The state of a compilation: the [GlobalEnv] map, shared by every
    context, and, for the properties only, the scopes the provider was
    called with, in order. *)
Record CState := {
  globalEnv : gmap GlobalScope GlobalBinds;
  calls : list GlobalScope
}.

Inductive CompileError :=
| Syntax (e : CssSyntaxError)
| Import.

Inductive Outcome A :=
| Good (a : A) (s : CState)
| Bad (e : CompileError) (s : CState).
Arguments Good {A} a s.
Arguments Bad {A} e s.

Definition M A := CState -> Outcome A.

Definition ret {A} (a : A) : M A := fun s => Good a s.
Definition fail {A} (e : CompileError) : M A := fun s => Bad e s.
Definition bind {A B} (m : M A) (k : A -> M B) : M B :=
  fun s => match m s with
           | Good a s' => k a s'
           | Bad e s' => Bad e s'
           end.

Notation "'let*' x := m 'in' k" := (bind m (fun x => k))
  (at level 10, x name, m at level 100, k at level 200).

Definition state_of {A} (o : Outcome A) : CState :=
  match o with Good _ s | Bad _ s => s end.

(** [interface CompileContext], without the cursor variable and the
    runtime; [globalEnv] is in the state. *)
Record CompileContext := {
  globalScope : GlobalScope;
  inAtJs : bool
}.

Section Host.

Variable Function_ : jstring -> option ParseError.
Variable acorn : option (jstring -> option ParseError).
Variable replaceImport : Code -> option Code.

(** The globals provider ([GlobalMaker]). *)
Variable globals : GlobalScope -> gmap GlobalScope GlobalBinds
                   -> GlobalBinds.

(** [rule.selectors] of postcss: the selector split at its commas. *)
Variable selectors : jstring -> list jstring.

(** The number written for the [Offset] placeholder of the fragment
    found at an offset of a node. *)
Variable offsetAt : option Source -> Z -> Z.

(** [loadGlobals(g)]: the bindings that the prologue destructures. *)
Definition loadGlobals (scope : GlobalScope) : M GlobalBinds :=
  fun s =>
    match globalEnv s !! scope with
    | Some binds => Good binds s
    | None =>
        let binds := globals scope (globalEnv s) in
        Good binds {| globalEnv := <[scope := binds]> (globalEnv s);
                      calls := calls s ++ [scope] |}
    end.

(** [await userCode(at, offset, sourceCode, stub)] *)
Definition validate (source : option Source) (offset : Z)
    (sourceCode stub : jstring) : M Fragment :=
  match userCode Function_ acorn replaceImport source offset sourceCode
          stub with
  | Accepted u =>
      ret {| fr_expr := expr u; fr_text := sourceCode; fr_code := code u;
             fr_pos := offsetAt source offset |}
  | Rejected e => fail (Syntax e)
  | ImportFailed => fail Import
  end.

Definition check (src : jstring) (source : option Source) (offset : Z)
  : M () :=
  match checkInvalidAtJs src source offset with
  | Some e => fail (Syntax e)
  | None => ret tt
  end.

(** The loop of [compileSelector] over [rule.selectors]. *)
Record SelState := {
  cut : Z;
  scursor : Z;
  pieces : list (jstring * Fragment)
}.

Definition isAtJsSelector (sel : jstring) : bool :=
  startsWith (lit ":@js(") sel && endsWith (lit ")") sel.

Fixpoint selectorLoop (selector : jstring) (source : option Source)
    (sels : list jstring) (st : SelState) : M SelState :=
  match sels with
  | [] => ret st
  | sel :: rest =>
      let start := indexOfFrom sel selector (scursor st) in
      let cursor := start + len sel in
      if isAtJsSelector sel then
        let exp := slice sel 5 (len sel - 1) in
        let offset := start + 5 in
        let* frag := validate source offset exp [] in
        selectorLoop selector source rest
          {| cut := cursor; scursor := cursor;
             pieces := pieces st ++ [(slice selector (cut st) start, frag)] |}
      else
        let* _ := check sel source start in
        selectorLoop selector source rest
          {| cut := cut st; scursor := cursor; pieces := pieces st |}
  end.

Definition compileSelector (selector : jstring) (source : option Source)
  : M (option SelectorCode) :=
  if negb (includes atjs selector) then ret None
  else
    let* st := selectorLoop selector source (selectors selector)
            {| cut := 0; scursor := 0; pieces := [] |} in
    ret (Some {| sc_pieces := pieces st;
                 sc_tail := sliceFrom selector (cut st) |}).

(** The loop of [compileContainerChildren]: the context, the blocks
    closed so far, the block being filled, and [lastAtJsBefore]. *)
Record Loop := {
  lp_context : CompileContext;
  lp_closed : list Block;
  lp_block : Block;
  lp_before : option jstring
}.

Definition push (l : Loop) (c : CompileContext) (e : Element)
    (before : option jstring) : Loop :=
  {| lp_context := c; lp_closed := lp_closed l;
     lp_block := MkBlock (block_prologue (lp_block l))
                         (block_body (lp_block l) ++ [e]);
     lp_before := before |}.

(** The head of a turn: a child of another file scope opens a block
    with the prologue of that scope. *)
Definition enterScope (l : Loop) (node : ChildNode) : M Loop :=
  let f := source_file (node_source node) in
  if bool_decide (globalScope (lp_context l) = f) then ret l
  else
    let* binds := loadGlobals f in
    ret {| lp_context := {| globalScope := f;
                            inAtJs := inAtJs (lp_context l) |};
           lp_closed := lp_closed l ++ [lp_block l];
           lp_block := MkBlock (Some binds) [];
           lp_before := lp_before l |}.

Definition isAtJs (node : ChildNode) : bool :=
  match node with
  | AtRule name _ _ _ _ => JStr.eqb name (lit "js")
  | _ => false
  end.

Section Children.

(** The compilation of one child: the element pushed for it. *)
Variable compileChild : ChildNode -> CompileContext -> M Element.

(** One turn of the loop: the block of the child, its element, and
    the [raws.before] it leaves for the next child that is not an
    @js at-rule. *)
Definition childTurn (node : ChildNode) (l : Loop) : M Loop :=
  let* l1 := enterScope l node in
  let* e := compileChild node (lp_context l1) in
  let before := before (node_raws node) in
  if isAtJs node then
    ret (push l1 (lp_context l1) (element_set_before e None)
           (match lp_before l1 with
            | None => before
            | Some last =>
                match before with
                | Some b => Some (last ++ trim b)
                | None => Some last
                end
            end))
  else
    ret (push l1 (lp_context l1)
           (match lp_before l1 with
            | Some last =>
                element_set_before e
                  (Some (last ++ trim (default [] before)))
            | None => e
            end)
           None).

Fixpoint childrenLoop (nodes : list ChildNode) (l : Loop) : M Loop :=
  match nodes with
  | [] => ret l
  | node :: rest =>
      let* l1 := childTurn node l in
      childrenLoop rest l1
  end.

(** [compileContainerChildren(container, context)] *)
Definition compileContainerChildren (nodes : list ChildNode)
    (context : CompileContext) : M (list Block) :=
  let* l := childrenLoop nodes
         {| lp_context := context; lp_closed := [];
            lp_block := MkBlock None []; lp_before := None |} in
  ret (lp_closed l ++ [lp_block l]).

(** [compileContainer(container, context)] *)
Definition compileContainer (nodes : list ChildNode) (raws : Raws)
    (context : CompileContext) : M Program :=
  let* blocks := compileContainerChildren nodes context in
  let hasCode :=
    existsb (fun b => existsb is_code (block_body b)) blocks in
  if negb hasCode && negb (inAtJs context) then ret PEmpty
  else ret (PMain raws hasCode (inAtJs context) blocks).

(** [compileAtJs(atRule, context)] *)
Definition compileAtJs (atRule : ChildNode) (name params : jstring)
    (nodes : option (list ChildNode)) (raws : Raws)
    (source : option Source) (context : CompileContext) : M Element :=
  let offset := paramsOffset name params raws in
  let prog := params ++ atRuleBetween nodes raws in
  let stub := match nodes with
              | Some _ => lit "({" ++ [c_lf] ++ lit "})"
              | None => []
              end in
  let* frag := validate source offset prog stub in
  match nodes with
  | Some ns =>
      let* child := compileContainer ns raws
                 {| globalScope := globalScope context;
                    inAtJs := true |} in
      ret (EAtJs atRule offset frag (Some child))
  | None => ret (EAtJs atRule offset frag None)
  end.

End Children.

(** The body of the loop of [compileContainerChildren] for one child,
    after the change of scope. *)
Fixpoint compileChild (node : ChildNode) (context : CompileContext)
    {struct node} : M Element :=
  match node with
  | AtRule name params nodes raws source =>
      if JStr.eqb name (lit "js") then
        compileAtJs compileChild node name params nodes raws source
          context
      else
        let* _ := check params source (paramsOffset name params raws) in
        match nodes with
        | Some ns =>
            let* childCode := compileContainer compileChild ns raws context in
            if nonempty childCode
            then ret (EContainer node childCode (inAtJs context))
            else ret (ENode node)
        | None => ret (ENode node)
        end
  | Rule selector nodes raws source =>
      let* selectorCode := compileSelector selector source in
      let* childCode := compileContainer compileChild nodes raws context in
      match selectorCode, nonempty childCode with
      | None, false => ret (ENode node)
      | _, true =>
          ret (ERule node selectorCode (Some childCode) (inAtJs context))
      | Some _, false =>
          ret (ERule node selectorCode None (inAtJs context))
      end
  | Decl prop value raws source =>
      let* _ := check prop source 0 in
      match markedValue value with
      | Some n =>
          let exp := sliceFrom value (Z.of_nat n) in
          let offset := valueOffset prop raws + Z.of_nat n in
          let* frag := validate source offset exp [] in
          ret (EDecl node frag (inAtJs context))
      | None =>
          let* _ := check value source (valueOffset prop raws) in
          ret (ENode node)
      end
  | Comment _ _ _ => ret (ENode node)
  end.

(** [compile(root, postcss, globals)]: the program of the root. *)
Definition compile (root : Root) : Outcome Program :=
  compileContainer compileChild (root_nodes root) (root_raws root)
    {| globalScope := Some []; inAtJs := false |}
    {| globalEnv := ∅; calls := [] |}.

End Host.

End Compile.

(** ** What the synthesized program does when it runs

    The text that [compile] hands to [eval] is read template by template.
    Guest code is JavaScript, and what it does is a parameter: a fragment at
    block level yields values and then completes, returns or throws; a
    fragment that stands for a value gives a value or throws.  [Env] is
    whatever the guest code can read and change. *)

Module Exec.

Import Runtime Compile.

(** How a block-level fragment ends: with the value of its expression
    (or of nothing, for statements), by a [return], or by a throw. *)
Inductive Completion :=
| Normal (v : value)
| Returned
| Threw (e : exn).

(** How an element of a block leaves the generator of the block. *)
Inductive Flow :=
| Next
| Exit
| Raise (e : exn).

(** [container.raws], as [coerceToRaws] reads it. *)
Definition raws_value (r : Raws) : value :=
  VPlain (match semicolon r with
          | Some b => [(lit "semicolon", VBool b)]
          | None => []
          end).

Definition rawsEnd_value (r : ContainerRawsEnd) : value :=
  VPlain (match semi r with
          | Some b => [(lit "semicolon", VBool b)]
          | None => []
          end).

Definition set_selector (n : ChildNode) (sel : jstring) : ChildNode :=
  match n with
  | Rule _ ns r s => Rule sel ns r s
  | _ => n
  end.

Definition set_value (n : ChildNode) (v : jstring) : ChildNode :=
  match n with
  | Decl p _ r s => Decl p v r s
  | _ => n
  end.

(** What iterating, to its end, an iterable that [interpretMain] made
    gives: the nodes and the return value, or the error. *)
Definition Interpreted := Runtime.run (list ChildNode * ContainerRawsEnd).

(** That iterable, once iterated, as a value of the main loop around. *)
Definition childValue (r : Interpreted) : value :=
  match r with
  | Ok (ns, raws) => VIterable (VNode <$> ns) (Done (rawsEnd_value raws))
  | Err e => VIterable [] (Fail e)
  end.

Section Host.

Variable inspect : value -> Z -> jstring.
Variable call : fid -> option value -> ending.
Variable fromOffset : Input -> Z -> option (Z * Z).

Variable Env : Type.

(** The prologue of a block: [const {...} = (() => binds)()]. *)
Variable bindGlobals : Env -> GlobalBinds -> Env.

(** What iterating the iterable [interpretMain(async function*() {...})]
    of a program does in an environment: each iteration runs the program
    anew.  [None] when the turns of a main loop run out. *)
Definition Iterate := Program -> Env -> option (Interpreted * Env).

(** A block-level fragment: what it yields before it ends, and how it
    ends.  The code writes the nested block of the at-rule, when there is
    one, after the text of the fragment, as an argument in parentheses:
    the iterable of its program.  Nothing of that program runs unless
    guest code iterates the iterable, and it runs each time guest code
    does; so the fragment is given the program, [child], and what
    iterating does.  Guest code can keep an iterable and iterate it from
    a later fragment, which has the same means.  A fragment that yields
    the iterable lets the main loop iterate it on the spot, before the
    fragment goes on: what it yields then is the [childValue] of that
    iteration. *)
Variable runBlock : Iterate -> Env -> Fragment -> option Program
                    -> option (Env * list value * Completion).

(** A fragment in a declaration value or a selector, run as the body of
    an asynchronous function: its value, or what it throws. *)
Variable runValue : Iterate -> Env -> Fragment -> option (Env * ending).

(** The variables of a running container program: its cursor, and the
    guest environment. *)
Record Machine := { cur : Z; env : Env }.

Definition stripIf (strip : bool) (n : ChildNode) : ChildNode :=
  if strip then stripRaws n else n.

(** The machine a block starts with: its prologue binds the globals of
    its file scope. *)
Definition enter (prologue : option GlobalBinds) (m : Machine)
  : Machine :=
  {| cur := cur m;
     env := match prologue with
            | Some binds => bindGlobals (env m) binds
            | None => env m
            end |}.

(** What was yielded so far, in front of what the rest yields. *)
Definition andThen (ys : list value)
    (r : option (list value * Machine * Flow))
  : option (list value * Machine * Flow) :=
  match r with
  | Some (ys', m, f) => Some (ys ++ ys', m, f)
  | None => None
  end.

Section Elements.

(** The run of a program through [interpretMain]. *)
Variable runProgram : Iterate.

(** The declarations of [compileSelector]: each fragment is run with the
    cursor at its offset, and its value stringified; the selector is the
    join of the slices and these strings. *)
Fixpoint evalSelector (ps : list (jstring * Fragment)) (tail : jstring)
    (m : Machine) : option (Machine * Runtime.run jstring) :=
  match ps with
  | [] => Some (m, Ok tail)
  | (s, frag) :: ps' =>
      match runValue runProgram (env m) frag with
      | None => None
      | Some (e1, r) =>
          let m1 := {| cur := fr_pos frag; env := e1 |} in
          match r with
          | Fail e => Some (m1, Err e)
          | Done v =>
              match stringify inspect v with
              | Err e => Some (m1, Err e)
              | Ok t =>
                  match evalSelector ps' tail m1 with
                  | Some (m2, Ok rest) => Some (m2, Ok (s ++ t ++ rest))
                  | Some (m2, Err e) => Some (m2, Err e)
                  | None => None
                  end
              end
          end
      end
  end.

(** [const v = await newContainer(node, childCode)]: the program of the
    children is iterated once, here. *)
Definition rebuild (node : ChildNode) (child : Program) (m : Machine)
  : option (Machine * Runtime.run ChildNode) :=
  match runProgram child (env m) with
  | None => None
  | Some (Err x, e1) => Some ({| cur := cur m; env := e1 |}, Err x)
  | Some (Ok (ns, raws), e1) =>
      Some ({| cur := cur m; env := e1 |}, Ok (newContainer node ns raws))
  end.

(** One element of a block: the values it makes the generator yield,
    the machine after it, and how it leaves. *)
Definition execElement (inAtJs : bool) (e : Element) (m : Machine)
  : option (list value * Machine * Flow) :=
  match e with
  | EAtJs atRule offset frag child =>
      let m0 := {| cur := fr_pos frag; env := env m |} in
      let begin :=
        VBeginJs {| bj_node := atRule; bj_offset := offset;
                    bj_pos := cur m0 |} in
      match runBlock runProgram (env m0) frag child with
      | None => None
      | Some (e2, ys, c) =>
          let m2 := {| cur := cur m0; env := e2 |} in
          match c with
          | Normal v =>
              Some (begin :: ys
                    ++ (if fr_expr frag then [v] else [])
                    ++ [VEndJs true], m2, Next)
          | Returned => Some (begin :: ys, m2, Exit)
          | Threw x => Some (begin :: ys, m2, Raise x)
          end
      end
  | EContainer node child strip =>
      match rebuild node child m with
      | None => None
      | Some (m1, Err x) => Some ([], m1, Raise x)
      | Some (m1, Ok v) => Some ([VNode (stripIf strip v)], m1, Next)
      end
  | ERule node sel child strip =>
      match (match sel with
             | Some sc =>
                 match evalSelector (sc_pieces sc) (sc_tail sc) m with
                 | Some (m1, Ok t) => Some (m1, Ok (Some t))
                 | Some (m1, Err x) => Some (m1, Err x)
                 | None => None
                 end
             | None => Some (m, Ok None)
             end) with
      | None => None
      | Some (m1, Err x) => Some ([], m1, Raise x)
      | Some (m1, Ok t) =>
          match (match child with
                 | None => Some (m1, Ok node)
                 | Some p => rebuild node p m1
                 end) with
          | None => None
          | Some (m2, Err x) => Some ([], m2, Raise x)
          | Some (m2, Ok v) =>
              let v' := match t with
                        | Some text => set_selector v text
                        | None => v
                        end in
              Some ([VNode (stripIf strip v')], m2, Next)
          end
      end
  | EDecl node frag strip =>
      match runValue runProgram (env m) frag with
      | None => None
      | Some (e1, r) =>
          let m1 := {| cur := fr_pos frag; env := e1 |} in
          match r with
          | Fail x => Some ([], m1, Raise x)
          | Done v =>
              match stringify inspect v with
              | Err x => Some ([], m1, Raise x)
              | Ok t => Some ([VNode (stripIf strip (set_value node t))],
                              m1, Next)
              end
          end
      end
  | ENode node => Some ([VNode (stripIf inAtJs node)], m, Next)
  end.

(** The body of the generator of one block: its elements in order,
    until one does not go on to the next. *)
Fixpoint execElements (inAtJs : bool) (es : list Element) (m : Machine)
  : option (list value * Machine * Flow) :=
  match es with
  | [] => Some ([], m, Next)
  | e :: rest =>
      match execElement inAtJs e m with
      | None => None
      | Some (ys, m1, Next) => andThen ys (execElements inAtJs rest m1)
      | Some (ys, m1, f) => Some (ys, m1, f)
      end
  end.

(** [yield* (async function*() { prologue; body }.call(container))]
    for each block whose body is not empty.  A block that returns
    gives way to the next block; a throw leaves them all. *)
Fixpoint execBlocks (inAtJs : bool) (bs : list Block) (m : Machine)
  : option (list value * Machine * Flow) :=
  match bs with
  | [] => Some ([], m, Next)
  | MkBlock prologue body :: rest =>
      match body with
      | [] => execBlocks inAtJs rest m
      | _ :: _ =>
          match execElements inAtJs body (enter prologue m) with
          | None => None
          | Some (ys, m1, Raise x) => Some (ys, m1, Raise x)
          | Some (ys, m1, _) => andThen ys (execBlocks inAtJs rest m1)
          end
      end
  end.

(** The generator given to [interpretMain]: with guest code in the
    container ([guarded]), the body is in a [try] whose handler
    yields [new EndJs(false)] and calls [handleError(e, cursor)]. *)
Definition generator (raws : Raws) (guarded inAtJs : bool)
    (bs : list Block) (e0 : Env) : option (Iter * Env) :=
  match execBlocks inAtJs bs {| cur := 0; env := e0 |} with
  | None => None
  | Some (ys, m, Raise x) =>
      if guarded then
        Some ({| rest := ys ++ [VEndJs false];
                 fin := Fail (handleError x (cur m)) |}, env m)
      else Some ({| rest := ys; fin := Fail x |}, env m)
  | Some (ys, m, _) =>
      Some ({| rest := ys; fin := Done (raws_value raws) |}, env m)
  end.

End Elements.

(** A program run through [interpretMain].  [fuel] bounds the turns of
    its main loop and the programs started inside one another: guest code
    may iterate any iterable it holds, its own included. *)
Fixpoint runProgram (fuel : nat) (p : Program) (e0 : Env) {struct fuel}
  : option (Interpreted * Env) :=
  match fuel with
  | O => None
  | S fuel' =>
      match p with
      | PEmpty => Some (Ok ([], {| semi := None |}), e0)
      | PMain raws guarded inAtJs bs =>
          match generator (runProgram fuel') raws guarded inAtJs bs e0 with
          | None => None
          | Some (it, e1) =>
              match mainLoop inspect call fromOffset fuel it with
              | None => None
              | Some r => Some (r, e1)
              end
          end
      end
  end.

(** The function that [compile] returns as [run]:
    [const nodes = await newContainer(root, childCode); root.removeAll();
    root.append(nodes)], or nothing for the empty code. *)
Definition run (fuel : nat) (root : Root) (p : Program) (e0 : Env)
  : option (Runtime.run Root) :=
  if nonempty p then
    match runProgram fuel p e0 with
    | None => None
    | Some (Err x, _) => Some (Err x)
    | Some (Ok (ns, raws), _) =>
        let nodes := newRoot root ns raws in
        Some (Ok (appendRoot (removeAll root) nodes))
    end
  else Some (Ok root).

End Host.

Arguments Build_Machine {Env} cur env.
Arguments cur {Env} m.
Arguments env {Env} m.
Arguments andThen {Env} ys r.

End Exec.


(** * What the properties are stated with *)

(** ** Occurrences of the marker *)

(** [p] occurs in [s] at index [i]. *)
Definition occurs (p s : jstring) (i : nat) : Prop :=
  startsWith p (drop i s) = true.

(** The marker occurs in [src] at [i], outside the literals that the mask
    of [checkInvalidAtJs] covers. *)
Definition free_at (src : jstring) (i : nat) : Prop :=
  occurs Compile.atjs src i
  /\ forall k, (k < 3)%nat ->
               Compile.flags false 0 src !! (i + k)%nat = Some false.

Definition first_free (src : jstring) (i : nat) : Prop :=
  free_at src i /\ forall j, (j < i)%nat -> ~ free_at src j.

(** The inside of a string literal with quote [q], as CSS and the regular
    expression of the mask have it: code units other than the quote and
    the backslash, and escapes (a backslash and a code unit that is not a
    line terminator). *)
Fixpoint litBody (q : N) (s : jstring) : bool :=
  match s with
  | [] => true
  | c :: s' =>
      if N.eqb c c_backslash then
        match s' with
        | d :: s'' => negb (is_line_terminator d) && litBody q s''
        | [] => false
        end
      else negb (N.eqb c q) && litBody q s'
  end.

(** The text ends with a backslash. *)
Definition ends_escaped (pre : jstring) : bool :=
  match last pre with Some c => N.eqb c c_backslash | None => false end.

Definition noQuote (pre : jstring) : bool :=
  forallb (fun c => negb (Compile.is_quote c)) pre.

(** The error of [checkInvalidAtJs] at offset [p] of a node. *)
Definition invalidUse (source : option Source) (p : Z)
  : Compile.CompileError :=
  Compile.Syntax (Syntax.cssSyntaxError (lit "invalid use of @js") source p).

(** ** The classification law of a plain object *)

(** What the node of an entry has to be. *)
Definition entry_node (inspect : value -> Z -> jstring)
    (fromOffset : Input -> Z -> option (Z * Z))
    (key : jstring) (value : value) (n : ChildNode) : Prop :=
  if startsWith (lit "@") key then
    let src := sliceFrom key 1 in
    exists raws source,
      (value = VUndefined
       /\ n = AtRule (Runtime.atRuleName src) (Runtime.atRuleParams src) None
                raws source)
      \/ (Runtime.isInterpretable value = true
          /\ exists c block ret,
               Runtime.interpretUnknown inspect fromOffset value c
               = Runtime.Ok (block, ret)
               /\ n = AtRule (Runtime.atRuleName src)
                        (Runtime.atRuleParams src) (Some block) raws source)
  else
    exists raws source,
      (Runtime.isInterpretable value = true
       /\ exists c block ret,
            Runtime.interpretUnknown inspect fromOffset value c
            = Runtime.Ok (block, ret)
            /\ n = Rule key block raws source)
      \/ (Runtime.isInterpretable value = false
          /\ Runtime.isStringifiable value = true
          /\ n = Decl key (String_ (Runtime.unexpected_message inspect) value)
                 raws source).

(** The entries that no rule accepts. *)
Definition entry_rejected (key : jstring) (value : value) : Prop :=
  Runtime.isInterpretable value = false
  /\ if startsWith (lit "@") key then value <> VUndefined
     else Runtime.isStringifiable value = false.

(** [e] is the error that [Unexpected.create] makes for [obj]. *)
Definition is_Unexpected (e : exn) (obj : value) : Prop :=
  exists pos, e = Runtime.Unexpected_create obj pos.



(** ** The main loop *)

(** A chain of functions: each, called with no argument, answers the next,
    and the last answers [v]. *)
Fixpoint chain (call : fid -> option value -> ending) (f : fid)
    (fs : list fid) (v : value) : Prop :=
  match fs with
  | [] => call f None = Done v
  | g :: fs' => call f None = Done (VFunction g) /\ chain call g fs' v
  end.

(** [s] with another pending function and another held item. *)
Definition with_func_next (s : Runtime.State) (f : option fid)
    (n : option value) : Runtime.State :=
  {| Runtime.func := f; Runtime.next := n;
     Runtime.context := Runtime.context s; Runtime.stack := Runtime.stack s;
     Runtime.iter := Runtime.iter s |}.

(** How the loop goes on after a turn. *)
Definition continue (inspect : value -> Z -> jstring)
    (call : fid -> option value -> ending)
    (fromOffset : Input -> Z -> option (Z * Z)) (fuel : nat)
    (out : list ChildNode) (t : Runtime.Turn)
  : option (Runtime.run (list ChildNode * Runtime.ContainerRawsEnd)) :=
  match t with
  | Runtime.Returns raws => Some (Runtime.Ok (out, raws))
  | Runtime.Throws e => Some (Runtime.Err e)
  | Runtime.Yields ns s' =>
      Runtime.loop inspect call fromOffset fuel s' (out ++ ns)
  end.

(** ** The globals of a compilation *)

(** The provider was called once for each scope of the map, and for no
    other. *)
Definition once (s : Compile.CState) : Prop :=
  NoDup (Compile.calls s)
  /\ forall k, k ∈ Compile.calls s <-> is_Some (Compile.globalEnv s !! k).

(** From [s] to [s']: the calls stay once each, and what is in the map
    stays as it is. *)
Definition extends (s s' : Compile.CState) : Prop :=
  (once s -> once s')
  /\ (forall k b, Compile.globalEnv s !! k = Some b ->
                  Compile.globalEnv s' !! k = Some b).

Definition steady {A} (m : Compile.M A) : Prop :=
  forall s, extends s (Compile.state_of (m s)).

(** ** Locations *)

(** A location reached from [base] through tagged ancestors; the head of
    [tags] is the tag nearest to the code. *)
Fixpoint tagged (tags : list OffsetField) (base : Loc) : Loc :=
  match tags with
  | [] => base
  | o :: tags' => Tag (tagged tags' base) o
  end.

(** The sum of the offsets that are numbers. *)
Definition offsetSum (tags : list OffsetField) : Z :=
  foldr (fun o acc => match o with Num n => n + acc | _ => acc end) 0 tags.

Definition hasNull (tags : list OffsetField) : bool :=
  existsb (fun o => match o with Null => true | _ => false end) tags.


(** The content of [c] is text only. *)
Definition flat (c : Code) : bool :=
  forallb (fun i => match i with Some (Sub _) => false | _ => true end)
          (code_content c).

(** ** Induction on nested trees *)

Section ChildNodeInd.

Variable P : ChildNode -> Prop.
Hypothesis HAtRule : forall name params nodes raws source,
  match nodes with Some ns => Forall P ns | None => True end ->
  P (AtRule name params nodes raws source).
Hypothesis HRule : forall selector nodes raws source,
  Forall P nodes -> P (Rule selector nodes raws source).
Hypothesis HDecl : forall prop value raws source,
  P (Decl prop value raws source).
Hypothesis HComment : forall text raws source, P (Comment text raws source).

Fixpoint ChildNode_nested_ind (n : ChildNode) : P n :=
  match n with
  | AtRule name params nodes raws source =>
      HAtRule name params nodes raws source
        (match nodes
           return match nodes with Some ns => Forall P ns | None => True end
         with
         | Some ns =>
             (fix all (l : list ChildNode) : Forall P l :=
                match l with
                | [] => Forall_nil_2 P
                | x :: l' =>
                    Forall_cons_2 P x l' (ChildNode_nested_ind x) (all l')
                end) ns
         | None => I
         end)
  | Rule selector nodes raws source =>
      HRule selector nodes raws source
        ((fix all (l : list ChildNode) : Forall P l :=
            match l with
            | [] => Forall_nil_2 P
            | x :: l' =>
                Forall_cons_2 P x l' (ChildNode_nested_ind x) (all l')
            end) nodes)
  | Decl prop value raws source => HDecl prop value raws source
  | Comment text raws source => HComment text raws source
  end.

End ChildNodeInd.

Section CodeInd.

Variable P : Code -> Prop.
Hypothesis HCode : forall content source,
  Forall (fun i => match i with Some (Sub c) => P c | _ => True end) content ->
  P (MkCode content source).

Fixpoint Code_nested_ind (c : Code) : P c :=
  match c with
  | MkCode content source =>
      HCode content source
        ((fix all (l : list (option Item))
            : Forall (fun i => match i with
                               | Some (Sub c) => P c
                               | _ => True
                               end) l :=
            match l with
            | [] => Forall_nil_2 _
            | i :: l' =>
                Forall_cons_2 _ i l'
                  (match i
                     return match i with Some (Sub c) => P c | _ => True end
                   with
                   | Some (Sub c') => Code_nested_ind c'
                   | Some (Text _) => I
                   | None => I
                   end)
                  (all l')
            end) content)
  end.

End CodeInd.

(** ** A host and some documents, for the examples

    [Function_] takes every text for an expression but the one of a
    [return] and the one of a [throw]; the globals provider binds nothing;
    the guest code of the fragments is what their text says. *)

Module Demo.

Definition input_of (name : String.string) : Input :=
  {| file := Some (lit name); css := [] |}.

Definition at_ (name : String.string) (o : Z) : option Source :=
  Some {| input := input_of name;
          start := Some {| offset := o; line := 1; column := o + 1 |};
          finish := None |}.

(** [@js code;] at an offset of the file 1.css *)
Definition js (o : Z) (code : String.string) : ChildNode :=
  AtRule (lit "js") (lit code) None
    {| before := None; between := Some []; afterName := Some (lit " ");
       after := None; semicolon := None |} (at_ "1.css" o).

(** [@js code { nodes }] at an offset of the file 1.css *)
Definition jsBlock (o : Z) (code : String.string) (nodes : list ChildNode)
  : ChildNode :=
  AtRule (lit "js") (lit code) (Some nodes)
    {| before := None; between := Some (lit " "); afterName := Some (lit " ");
       after := None; semicolon := None |} (at_ "1.css" o).

Definition statement (code : String.string) : jstring :=
  Syntax.exprPrefix ++ lit code ++ Syntax.exprSuffix [].

Definition Function_ (test : jstring) : option Syntax.ParseError :=
  if JStr.eqb test (statement "return")
     || JStr.eqb test (statement "throw 'testfail'")
     || startsWith (Syntax.exprPrefix ++ lit "for ") test
  then Some {| Syntax.text := lit "SyntaxError: Unexpected token";
               Syntax.pos := None |}
  else None.

Definition globals (scope : Compile.GlobalScope)
    (env : gmap Compile.GlobalScope Compile.GlobalBinds)
  : Compile.GlobalBinds := [].

Definition selectors (s : jstring) : list jstring := [s].

Definition offsetAt (source : option Source) (o : Z) : Z :=
  default 0 (source_start_offset source) + o.

Definition compile (root : Root) : Compile.Outcome Compile.Program :=
  Compile.compile Function_ None Some globals selectors offsetAt root.

Definition compileChild :=
  Compile.compileChild Function_ None Some globals selectors offsetAt.

(** Function 1 answers function 2, which answers a declaration. *)
Definition call (f : fid) (arg : option value) : ending :=
  if N.eqb f 1 then Done (VFunction 2%N)
  else Done (VPlain [(lit "color", VString (lit "red"))]).

Definition fromOffset (i : Input) (o : Z) : option (Z * Z) := Some (1, o + 1).

Definition inspect (v : value) (depth : Z) : jstring :=
  match v with VNull => lit "null" | _ => lit "undefined" end.

Definition runBlock (iterate : Exec.Iterate ()) (e : ())
    (frag : Compile.Fragment) (child : option Compile.Program)
  : option (() * list value * Exec.Completion) :=
  if JStr.eqb (Compile.fr_text frag) (lit "return")
  then Some (tt, [], Exec.Returned)
  else if JStr.eqb (Compile.fr_text frag)
            (lit "for (const i of [1, 2, 3]) yield ")
  then
    (* the block is yielded three times, and iterated each time *)
    match child with
    | Some p =>
        match iterate p e with
        | Some (r1, e1) =>
            match iterate p e1 with
            | Some (r2, e2) =>
                match iterate p e2 with
                | Some (r3, e3) =>
                    Some (e3, Exec.childValue <$> [r1; r2; r3],
                          Exec.Normal VUndefined)
                | None => None
                end
            | None => None
            end
        | None => None
        end
    | None => Some (tt, [], Exec.Normal VUndefined)
    end
  else if JStr.eqb (Compile.fr_text frag) (lit "(() => {}) ")
  then
    (* the function is given the block and does not iterate it *)
    Some (tt, [], Exec.Normal VUndefined)
  else if JStr.eqb (Compile.fr_text frag) (lit "throw 'testfail'")
  then Some (tt, [],
             Exec.Threw (Exn (VString (lit "testfail")) false None))
  else if JStr.eqb (Compile.fr_text frag) (lit "({ color: 'blue' })")
  then Some (tt, [],
             Exec.Normal (VPlain [(lit "color", VString (lit "blue"))]))
  else Some (tt, [],
             Exec.Normal (VPlain [(lit "margin", VString (lit "4px"))])).

Definition runValue (iterate : Exec.Iterate ()) (e : ())
    (frag : Compile.Fragment) : option (() * ending) :=
  Some (tt, Done (VString (lit "12px"))).

Definition runProgram (fuel : nat) :=
  Exec.runProgram inspect call fromOffset () (fun e _ => e) runBlock runValue fuel.

Definition run (fuel : nat) (root : Root) (p : Compile.Program) :=
  Exec.run inspect call fromOffset () (fun e _ => e) runBlock runValue fuel root p tt.

Definition rootOf (ns : list ChildNode) : Root :=
  {| root_nodes := ns; root_raws := noRaws; root_source := at_ "1.css" 0 |}.

(** The example of the README on [return]. *)
Definition sampNodes : list ChildNode :=
  [Decl (lit "border") (lit "thin solid navy") noRaws (at_ "1.css" 7);
   js 34 "({ color: 'blue' })";
   js 58 "return";
   Decl (lit "background-color") (lit "white") noRaws (at_ "1.css" 70);
   js 97 "({ margin: '4px' })";
   Decl (lit "padding") (lit "@js '12px'") noRaws (at_ "1.css" 121)].

Definition samp : Root :=
  rootOf [Rule (lit "samp") sampNodes noRaws (at_ "1.css" 0)].

(** What the README gives for it. *)
Definition sampResult : list ChildNode :=
  [Rule (lit "samp")
     [Decl (lit "border") (lit "thin solid navy") noRaws (at_ "1.css" 7);
      Decl (lit "color") (lit "blue") noRaws (at_ "1.css" 38)]
     noRaws (at_ "1.css" 0)].

Definition context1 : Compile.CompileContext :=
  {| Compile.globalScope := Some (lit "1.css"); Compile.inAtJs := false |}.

Definition state0 : Compile.CState :=
  {| Compile.globalEnv := ∅; Compile.calls := [] |}.

Definition execElement :=
  Exec.execElement inspect () runBlock runValue (runProgram 10).
Definition execElements :=
  Exec.execElements inspect () runBlock runValue (runProgram 10).
Definition execBlocks :=
  Exec.execBlocks inspect () (fun e _ => e) runBlock runValue (runProgram 10).
Definition generator :=
  Exec.generator inspect () (fun e _ => e) runBlock runValue (runProgram 10).

Definition machine0 : Exec.Machine () := {| Exec.cur := 0; Exec.env := tt |}.

(** The elements of the block of [samp], as the compiler makes them: those
    before the [return], the [return], and those after it. *)
Definition sampBlock : list Compile.Element :=
  Eval vm_compute in
    match Compile.compileContainerChildren globals compileChild sampNodes
            context1 state0 with
    | Compile.Good [b] _ => Compile.block_body b
    | _ => []
    end.

Definition sampPost : list Compile.Element :=
  Eval vm_compute in drop 3 sampBlock.


(** The example of the README on [yield], and an at-rule whose function
    leaves its block alone (as in the test 'evaluation order'). *)
Definition looped : Root :=
  rootOf [jsBlock 0 "for (const i of [1, 2, 3]) yield"
            [Decl (lit "margin") (lit "1em") noRaws (at_ "1.css" 40)];
          jsBlock 60 "(() => {})"
            [Decl (lit "margin") (lit "2em") noRaws (at_ "1.css" 80)]].

(** [h1 { @js throw 'testfail'; }], the blocks of the rule, and what they
    yield and leave before the throw. *)
Definition thrower : Root :=
  rootOf [Rule (lit "h1") [js 5 "throw 'testfail'"] noRaws (at_ "1.css" 0)].

Definition testfail : exn := Exn (VString (lit "testfail")) false None.

Definition throwBlocks : list Compile.Block :=
  Eval vm_compute in
    match Compile.compileContainerChildren globals compileChild
            [js 5 "throw 'testfail'"] context1 state0 with
    | Compile.Good bs _ => bs
    | _ => []
    end.

Definition throwYields : list value :=
  Eval vm_compute in
    match execBlocks false throwBlocks machine0 with
    | Some (ys, _, _) => ys
    | None => []
    end.
Definition throwMachine : Exec.Machine () :=
  Eval vm_compute in
    match execBlocks false throwBlocks machine0 with
    | Some (_, m, _) => m
    | None => machine0
    end.

(** Children of the files a.css, b.css and a.css again. *)
Definition twoFiles : Root :=
  rootOf [Decl (lit "color") (lit "red") noRaws (at_ "a.css" 0);
          Decl (lit "color") (lit "green") noRaws (at_ "b.css" 0);
          Decl (lit "color") (lit "blue") noRaws (at_ "a.css" 12)].

(** [content: '@js'] *)
Definition quoted : ChildNode :=
  Decl (lit "content") (lit "'@js'") noRaws (at_ "1.css" 0).

(** An acorn whose [parse] throws an error without position, and a
    [Function] that refuses every text. *)
Definition acornMock (test : jstring) : option Syntax.ParseError :=
  Some {| Syntax.text := lit "Error: acorn.parse is hooked by mock";
          Syntax.pos := None |}.

Definition acornAt (p : Z) (test : jstring) : option Syntax.ParseError :=
  Some {| Syntax.text := lit "SyntaxError: Unterminated string constant";
          Syntax.pos := Some p |}.

Definition refuse (test : jstring) : option Syntax.ParseError :=
  Some {| Syntax.text := lit "SyntaxError: Invalid or unexpected token";
          Syntax.pos := None |}.

(** A state of the main loop with function 1 pending and the end of a
    region held. *)
Definition pending (success : bool) : Runtime.State :=
  {| Runtime.func := Some 1%N; Runtime.next := Some (VEndJs success);
     Runtime.context := Runtime.newContext; Runtime.stack := [];
     Runtime.iter := {| Runtime.rest := []; Runtime.fin := Done VUndefined |} |}.


(** The object of the test of the runtime. *)
Definition object : list (jstring * value) :=
  [(lit "color", VString (lit "blue"));
   (lit "@media print",
    VIterable [VPlain [(lit "color", VString (lit "black"))]] (Done VUndefined));
   (lit "main", VPlain [(lit "color", VString (lit "red"))]);
   (lit "@charset", VUndefined)].

Definition objectNodes : list ChildNode :=
  [Decl (lit "color") (lit "blue") noRaws None;
   AtRule (lit "media") (lit "print")
     (Some [Decl (lit "color") (lit "black") noRaws None])
     (set_semicolon noRaws true) None;
   Rule (lit "main") [Decl (lit "color") (lit "red") noRaws None]
     (set_semicolon noRaws true) None;
   AtRule (lit "charset") [] None noRaws None].

(** A code with text and a nested relative code, tagged with a null
    offset. *)
Definition source1 : Source :=
  {| input := input_of "1.css"; start := None; finish := None |}.


Definition fragment : Code :=
  MkCode [Some (Text (lit "a+b"))] (Tag (LSource source1) (Num 12)).

End Demo.

(** ** Documents without the marker *)

(** No at-rule of the tree is an [@js] at-rule, and the text [@js] occurs
    in no params, selector, property name or value of it. *)
Fixpoint plain (n : ChildNode) : bool :=
  match n with
  | AtRule name params nodes _ _ =>
      negb (JStr.eqb name (lit "js"))
      && negb (includes Compile.atjs params)
      && match nodes with
         | Some ns => forallb plain ns
         | None => true
         end
  | Rule selector nodes _ _ =>
      negb (includes Compile.atjs selector) && forallb plain nodes
  | Decl prop value _ _ =>
      negb (includes Compile.atjs prop) && negb (includes Compile.atjs value)
  | Comment _ _ _ => true
  end.

(** What the loop keeps while it goes through children without code. *)
Definition codeless (l : Compile.Loop) : Prop :=
  Compile.inAtJs (Compile.lp_context l) = false
  /\ Compile.lp_before l = None
  /\ Forall (fun b => Forall (fun e => Compile.is_code e = false) (Compile.block_body b))
       (Compile.lp_closed l ++ [Compile.lp_block l]).

Definition passes (rec : ChildNode -> Compile.CompileContext -> Compile.M Compile.Element)
    (n : ChildNode) : Prop :=
  Compile.isAtJs n = false
  /\ forall ctx s, Compile.inAtJs ctx = false ->
       exists s', rec n ctx s = Compile.Good (Compile.ENode n) s'.


(** ** The walk of nested iterables *)

(** Two runs of a walk that differ at most by the raws of the context they
    end with. *)
Definition agree (r1 r2 : Runtime.run (list ChildNode * Runtime.Context))
  : Prop :=
  match r1, r2 with
  | Runtime.Ok (ns1, c1), Runtime.Ok (ns2, c2) =>
      ns1 = ns2 /\ Runtime.ctx_source c1 = Runtime.ctx_source c2
  | Runtime.Err e1, Runtime.Err e2 => e1 = e2
  | _, _ => False
  end.

(** The turns that the main loop takes for a value: one for the value, and
    those of the items of an iterable. *)
Fixpoint turns (v : value) : nat :=
  match v with
  | VIterable items _ =>
      S ((fix sum (l : list value) : nat :=
            match l with
            | [] => O
            | x :: l' => (turns x + sum l')%nat
            end) items)
  | _ => 1%nat
  end.

Fixpoint turnsOf (l : list value) : nat :=
  match l with
  | [] => O
  | x :: l' => (turns x + turnsOf l')%nat
  end.

(** The iterators of the main loop, the current one first, walked as
    [interpretUnknown] walks the items of an iterable. *)
Fixpoint walkStack (inspect : value -> Z -> jstring)
    (fromOffset : Input -> Z -> option (Z * Z))
    (its : list Runtime.Iter) (c : Runtime.Context)
  : Runtime.run (list ChildNode * Runtime.Context) :=
  match its with
  | [] => Runtime.Ok ([], c)
  | it :: its' =>
      match Runtime.interpItems inspect fromOffset (Runtime.rest it) (Runtime.fin it)
              c with
      | Runtime.Err e => Runtime.Err e
      | Runtime.Ok (ns, c') =>
          match walkStack inspect fromOffset its' c' with
          | Runtime.Err e => Runtime.Err e
          | Runtime.Ok (ns', c'') => Runtime.Ok (ns ++ ns', c'')
          end
      end
  end.

Fixpoint turnsOfStack (its : list Runtime.Iter) : nat :=
  match its with
  | [] => O
  | it :: its' => (turnsOf (Runtime.rest it) + turnsOfStack its')%nat
  end.

Section ValueInd.

Variable P : value -> Prop.
Hypothesis HIterable : forall items fin,
  Forall P items -> P (VIterable items fin).
Hypothesis HOther : forall v,
  match v with VIterable _ _ => False | _ => True end -> P v.

Fixpoint value_nested_ind (v : value) : P v :=
  match v with
  | VIterable items fin =>
      HIterable items fin
        ((fix all (l : list value) : Forall P l :=
            match l with
            | [] => Forall_nil_2 P
            | x :: l' => Forall_cons_2 P x l' (value_nested_ind x) (all l')
            end) items)
  | VUndefined => HOther VUndefined I
  | VNull => HOther VNull I
  | VBool b => HOther (VBool b) I
  | VNumber t => HOther (VNumber t) I
  | VString s => HOther (VString s) I
  | VFunction f => HOther (VFunction f) I
  | VPlain es => HOther (VPlain es) I
  | VNode n => HOther (VNode n) I
  | VBeginJs b => HOther (VBeginJs b) I
  | VEndJs b => HOther (VEndJs b) I
  | VUnexpected o => HOther (VUnexpected o) I
  | VObject t => HOther (VObject t) I
  end.

End ValueInd.

(** ** The blocks of a container *)

(** The first block has no prologue; each block after it has one, and a
    body that is not empty. *)
Definition wellformed (bs : list Compile.Block) : Prop :=
  match bs with
  | [] => False
  | b0 :: rest =>
      Compile.block_prologue b0 = None
      /\ Forall (fun b => is_Some (Compile.block_prologue b)
                          /\ Compile.block_body b <> []) rest
  end.

(** ** Selectors *)

(** The texts [sels] occur in [s] one after the other. *)
Fixpoint inOrder (sels : list jstring) (s : jstring) : Prop :=
  match sels with
  | [] => True
  | sel :: rest => exists g t, s = g ++ sel ++ t /\ inOrder rest t
  end.

(** The slices of a selector, each followed by a text. *)
Fixpoint filled (ps : list (jstring * Compile.Fragment)) (ts : list jstring)
  : jstring :=
  match ps, ts with
  | (p, _) :: ps', t :: ts' => p ++ t ++ filled ps' ts'
  | _, _ => []
  end.

(** The pseudo-class that a fragment of a selector was written as. *)
Definition marked (frag : Compile.Fragment) : jstring :=
  lit ":@js(" ++ Compile.fr_text frag ++ lit ")".

Definition template (ps : list (jstring * Compile.Fragment)) : jstring :=
  filled ps ((fun pf => marked pf.2) <$> ps).

(** ** src/stack-trace.ts *)

Module StackTrace.

(** [String(n)] of an integer. *)
Definition decimal (n : Z) : jstring :=
  lit (NilZero.string_of_int (Z.to_int n)).

(** [s.split('\n')] and [lines.join('\n')] *)
Fixpoint splitLines (s : jstring) : list jstring :=
  match s with
  | [] => [[]]
  | c :: s' =>
      if N.eqb c c_lf then [] :: splitLines s'
      else match splitLines s' with
           | l :: ls => (c :: l) :: ls
           | [] => [[c]]
           end
  end.

Fixpoint joinLines (ls : list jstring) : jstring :=
  match ls with
  | [] => []
  | [l] => l
  | l :: ls' => l ++ c_lf :: joinLines ls'
  end.

(** [nonEmpty(x)]: [typeof x === 'string' && x !== '' ? x : null] *)
Definition nonEmpty (x : value) : option jstring :=
  match x with
  | VString (c :: s) => Some (c :: s)
  | _ => None
  end.

(** [addSuffix(x, y)]: [x == null || x === '' ? '' : x + y] *)
Definition addSuffix (x : option jstring) (y : jstring) : jstring :=
  match x with
  | None | Some [] => []
  | Some s => s ++ y
  end.

(** [serializeSource(s)], for a source with a start position *)
Definition serializeSource (s : Source) (start : Position) : jstring :=
  default (lit "<anonymous>")
    (nonEmpty (match file (input s) with
               | Some f => VString f
               | None => VUndefined
               end))
  ++ lit ":" ++ decimal (line start) ++ lit ":" ++ decimal (column start).

(** A frame of a structured stack trace ([NodeJS.CallSite]): what its
    methods answer. *)
Record CallSite := {
  frameText : jstring;            (* frame.toString() *)
  getFunctionName : value;
  getTypeName : value;
  getMethodName : value;
  getPromiseIndex : option Z;
  isAsync : bool;
  isConstructor : bool;
  isToplevel : bool;
  isEval : bool;
  getEvalOrigin : option jstring;
  getPosition : Z
}.

(** [serialize(frame, source)] *)
Definition serialize (frame : CallSite) (source : option Source) : jstring :=
  match source with
  | None => frameText frame
  | Some src =>
      match start src with
      | None => frameText frame
      | Some pos =>
          let func := nonEmpty (getFunctionName frame) in
          let ty := nonEmpty (getTypeName frame) in
          let place := serializeSource src pos in
          (if isAsync frame then lit "async " else [])
          ++ match (if isAsync frame then getPromiseIndex frame else None) with
             | Some index =>
                 lit "Promise." ++ default (lit "<anonymous>") func
                 ++ lit " (index " ++ decimal index ++ lit ")"
             | None =>
                 if isConstructor frame then
                   lit "new " ++ default (lit "<anonymous>") func
                   ++ lit " (" ++ place ++ lit ")"
                 else if negb (isToplevel frame) then
                   let method := nonEmpty (getMethodName frame) in
                   match func with
                   | Some f =>
                       addSuffix ty (lit ".") ++ f
                       ++ match method with
                          | Some m =>
                              if negb (endsWith m f)
                              then lit " [as " ++ m ++ lit "]"
                              else []
                          | None => []
                          end
                   | None =>
                       addSuffix ty (lit ".")
                       ++ default (lit "<anonymous>") method
                   end
                   ++ lit " (" ++ place ++ lit ")"
                 else
                   match func with
                   | Some f => f ++ lit " (" ++ place ++ lit ")"
                   | None => place
                   end
             end
      end
  end.

(** What [find] answers for a frame: a source, a position in the
    generated code, or [undefined]. *)
Inductive Found :=
| FSource (s : Source)
| FPos (n : Z)
| FUndefined.

(** The body of the loop over the frames: the line of the frame, and the
    two updates of [ret]. *)
Definition visit (find : CallSite -> Found)
    (acc : list jstring * Found) (frame : CallSite)
  : list jstring * Found :=
  let '(lines, ret) := acc in
  let src := find frame in
  let source := match src with FSource s => Some s | _ => None end in
  let lines := lines ++ [lit "    at " ++ serialize frame source] in
  let ret :=
    match ret, src with
    | FUndefined, FPos n => FPos n
    | _, _ => ret
    end in
  let ret :=
    match ret, source with
    | FSource _, _ => ret
    | _, Some s => match start s with Some _ => FSource s | None => ret end
    | _, None => ret
    end in
  (lines, ret).

(** The function given to [hookPrepareStackTrace]: the text of the trace,
    and [ret]. *)
Definition prepare (find : CallSite -> Found) (name : value)
    (message : jstring) (frames : list CallSite) : jstring * Found :=
  let header :=
    default (lit "Error") (nonEmpty name) ++ lit ": " ++ message in
  let '(lines, ret) := fold_left (visit find) frames ([header], FUndefined) in
  (joinLines lines, ret).

(** What [getProp(exn, 'stack')] meets: nothing (the value is not an
    object, or has no such property), a stack that is there already, or an
    error whose trace is yet to be prepared, with its name, its message
    and its frames. *)
Inductive Stack :=
| NoStack
| Ready (stack : value)
| Pending (name : value) (message : jstring) (frames : list CallSite).

(** [getStackTrace(exn, find)]: [stackTrace] and [source] *)
Definition getStackTrace (find : CallSite -> Found) (s : Stack)
  : value * Found :=
  match s with
  | NoStack => (VUndefined, FUndefined)
  | Ready v => (v, FUndefined)
  | Pending name message frames =>
      let '(text, ret) := prepare find name message frames in
      (VString text, ret)
  end.

(** [getCurrentStackTrace(find)], for the text of the random number and
    the frames of the caller. *)
Definition getCurrentStackTrace (find : CallSite -> Found)
    (random : jstring) (frames : list CallSite) : value :=
  (getStackTrace find (Pending (VString (lit "Error")) random frames)).1.

(** [s2.indexOf(x)] on an array of strings *)
Fixpoint indexOfLine (x : jstring) (s : list jstring) : Z :=
  match s with
  | [] => -1
  | y :: s' =>
      if JStr.eqb y x then 0
      else let j := indexOfLine x s' in if j <? 0 then -1 else j + 1
  end.

(** The loop over [k] of [removeCommonTrace], on what follows [s1[i]] and
    [s2[j]]: [true] when it returns, at the end of either array, [false]
    when it breaks. *)
Fixpoint commonRun (a b : list jstring) : bool :=
  match a, b with
  | x :: a', y :: b' => if JStr.eqb x y then commonRun a' b' else false
  | _, _ => true
  end.

(** The loop over [i]: [rest] is [s1] from index [i] on. *)
Fixpoint scanTrace (s1 s2 rest : list jstring) (i : nat) : list jstring :=
  match rest with
  | [] => s1
  | x :: rest' =>
      let j := indexOfLine x s2 in
      if j <? 0 then scanTrace s1 s2 rest' (S i)
      else if commonRun rest' (drop (S (Z.to_nat j)) s2) then take i s1
      else scanTrace s1 s2 rest' (S i)
  end.

Definition removeCommonTrace (s1 s2 : list jstring) : list jstring :=
  scanTrace s1 s2 s1 0.

(** [compactStackTrace(stackTrace, baseTrace)] *)
Definition compactStackTrace (stackTrace baseTrace : value) : jstring :=
  match nonEmpty stackTrace with
  | None => []
  | Some stack =>
      match nonEmpty baseTrace with
      | None => stack
      | Some base =>
          joinLines (removeCommonTrace (splitLines stack) (splitLines base))
      end
  end.

End StackTrace.

(** ** src/evaluate.ts *)

Module Evaluate.

Import StackTrace.

(** The error that [evaluate] throws: made by [input.error(message,
    offset)] of a source, or by [root.error(message)]. *)
Inductive Report :=
| AtSource (input : Input) (offset : Z) (message : jstring)
| AtRoot (message : jstring).

Section Host.

Variable inspect : value -> Z -> jstring.
Variable fromOffset : Input -> Z -> option (Z * Z).

(** [code.highlight(position)] *)
Variable highlight : Code -> Z -> jstring.

(** The [find] of [evaluate] *)
Definition find (code : Code) (evalOrigin : jstring) (frame : CallSite)
  : Found :=
  match (if isEval frame then getEvalOrigin frame else None) with
  | Some origin =>
      if startsWith evalOrigin origin then
        let pos := getPosition frame in
        match Script.find fromOffset code pos with
        | Some src => FSource src
        | None => FPos pos
        end
      else FUndefined
  | None => FUndefined
  end.

(** The handler of [evaluate], for the error that [run] threw: [stack] is
    what its [stack] property meets when it is an object, [random] and
    [current] are the text and the frames of the error that
    [getCurrentStackTrace] makes. *)
Definition report (code : Code) (evalOrigin : jstring) (error : exn)
    (stack : Stack) (random : jstring) (current : list CallSite) : Report :=
  let errorPos := Runtime.getErrorPos error in
  let find := find code evalOrigin in
  let '(stackTrace, source) :=
    getStackTrace find
      (match error with
       | Exn what _ _ => if isObject what then stack else NoStack
       end) in
  let source :=
    match source, errorPos with
    | FSource _, _ => source
    | _, Some p =>
        match Script.find fromOffset code p with
        | Some s => FSource s
        | None => source
        end
    | _, None => source
    end in
  let currentTrace := getCurrentStackTrace find random current in
  let stackTrace := compactStackTrace stackTrace currentTrace in
  let message :=
    lit "uncaught exception"
    ++ match stackTrace with
       | [] => []
       | _ => c_lf :: stackTrace
       end in
  match source with
  | FSource s =>
      AtSource (input s) (default 0 (source_start_offset (Some s))) message
  | FPos n =>
      AtRoot (message ++ [c_lf]
              ++ lit "(error occurred in the middle of generated code probably due to bug)"
              ++ [c_lf] ++ highlight code n)
  | FUndefined =>
      AtRoot (message ++ [c_lf]
              ++ lit "(failed to determine where the error happened)")
  end.

End Host.

End Evaluate.

(** ** The source of a trace *)

(** The first answer of [find] that is a source with a start position, and
    the first that is a position. *)
Definition positioned (f : StackTrace.Found) : option Source :=
  match f with
  | StackTrace.FSource s =>
      match start s with Some _ => Some s | None => None end
  | _ => None
  end.

Definition numbered (f : StackTrace.Found) : option Z :=
  match f with StackTrace.FPos n => Some n | _ => None end.

Definition chosen (fs : list StackTrace.Found) : StackTrace.Found :=
  match head (omap positioned fs) with
  | Some s => StackTrace.FSource s
  | None =>
      match head (omap numbered fs) with
      | Some n => StackTrace.FPos n
      | None => StackTrace.FUndefined
      end
  end.

(** Where a report points: the input and the offset, or nowhere. *)
Definition place (r : Evaluate.Report) : option (Input * Z) :=
  match r with
  | Evaluate.AtSource i o _ => Some (i, o)
  | Evaluate.AtRoot _ => None
  end.

Definition sourcePlace (s : Source) : Input * Z :=
  (input s, default 0 (source_start_offset (Some s))).

(** ** More documents and values, for the examples *)

Module Samples.

Definition source5 : Source :=
  {| input := Demo.input_of "1.css";
     start := Some {| offset := 5; line := 1; column := 6 |};
     finish := None |}.

(** [color: @jsx] *)
Definition jsx : ChildNode :=
  Decl (lit "color") (lit "@jsx") noRaws (Demo.at_ "1.css" 0).

(** An array with a node and [undefined]. *)
Definition withUndefined : value :=
  VIterable [VNode (decl (lit "color") (lit "red")); VUndefined]
    (Done VUndefined).

(** An array of a node and of an array of an object. *)
Definition nested : list value :=
  [VNode (decl (lit "color") (lit "red"));
   VIterable [VPlain [(lit "margin", VString (lit "0"))]] (Done VUndefined)].

Definition nestedNodes : list ChildNode :=
  [decl (lit "color") (lit "red"); decl (lit "margin") (lit "0")].

(** The blocks of the children of [Demo.twoFiles]. *)
Definition twoFilesBlocks : list Compile.Block :=
  Eval vm_compute in
    match Compile.compileContainerChildren Demo.globals Demo.compileChild
            (root_nodes Demo.twoFiles)
            {| Compile.globalScope := Some []; Compile.inAtJs := false |}
            Demo.state0 with
    | Compile.Good bs _ => bs
    | _ => []
    end.

(** The element of [@js throw 'testfail']. *)
Definition throwElement : Compile.Element :=
  Eval vm_compute in
    match Demo.throwBlocks with
    | [Compile.MkBlock _ [e]] => e
    | _ => Compile.ENode (Demo.js 0 "")
    end.

(** [h1, :@js(x)], and the selectors postcss makes of it. *)
Definition selector : jstring := lit "h1, :@js(x)".

Definition selectors (s : jstring) : list jstring :=
  [lit "h1"; lit ":@js(x)"].

Definition selectorCode : Compile.SelectorCode :=
  Eval vm_compute in
    match Compile.compileSelector Demo.Function_ None Some selectors
            Demo.offsetAt selector (Demo.at_ "1.css" 0) Demo.state0 with
    | Compile.Good (Some sc) _ => sc
    | _ => {| Compile.sc_pieces := []; Compile.sc_tail := [] |}
    end.


(** A frame of the generated code, and one of the plugin. *)
Definition evalFrame (pos : Z) : StackTrace.CallSite :=
  {| StackTrace.frameText := lit "eval at $1f$";
     StackTrace.getFunctionName := VNull;
     StackTrace.getTypeName := VNull;
     StackTrace.getMethodName := VNull;
     StackTrace.getPromiseIndex := None;
     StackTrace.isAsync := false;
     StackTrace.isConstructor := false;
     StackTrace.isToplevel := true;
     StackTrace.isEval := true;
     StackTrace.getEvalOrigin := Some (lit "eval at $1f$ (eval at evalCode (x.js:1:1))");
     StackTrace.getPosition := pos |}.

Definition hostFrame : StackTrace.CallSite :=
  {| StackTrace.frameText := lit "mainLoop (runtime.js:1:1)";
     StackTrace.getFunctionName := VString (lit "mainLoop");
     StackTrace.getTypeName := VNull;
     StackTrace.getMethodName := VNull;
     StackTrace.getPromiseIndex := None;
     StackTrace.isAsync := false;
     StackTrace.isConstructor := false;
     StackTrace.isToplevel := true;
     StackTrace.isEval := false;
     StackTrace.getEvalOrigin := None;
     StackTrace.getPosition := 0 |}.

Definition evalOrigin : jstring := lit "eval at $1f$ (eval at evalCode (".

Definition highlight (c : Code) (p : Z) : jstring := toString c.

(** An error object that the guard of a container tagged with 1. *)
Definition taggedError : exn := Exn (VObject None) true (Some 1).

End Samples.

(** ** src/script.ts: [CODE], [translate] with the code it builds, and
       [generate] *)

Module Generate.

(** [class Code<X>] with an array for content: [NestedCode<X>]. *)
Inductive NCode (X : Type) : Type :=
| NMk (content : list (option (NItem X))) (source : Loc)
with NItem (X : Type) : Type :=
| NLeaf (x : X)
| NSub (c : NCode X).
Arguments NMk {X} content source.
Arguments NLeaf {X} x.
Arguments NSub {X} c.

(** [code.toString()] of a nested code of strings *)
Fixpoint ntoString (c : NCode jstring) : jstring :=
  match c with
  | NMk content _ =>
      (fix join (l : list (option (NItem jstring))) : jstring :=
         match l with
         | [] => []
         | None :: l' => join l'
         | Some (NLeaf s) :: l' => s ++ join l'
         | Some (NSub c') :: l' => ntoString c' ++ join l'
         end) content
  end.

(** [s.replace(/\s+^\s*/gm, '')]: with the [m] flag [^] matches after a
    line terminator, so a match is a whole run of whitespace in which there
    is a line terminator.  [pending] is the run being read, [broken] tells
    whether a line terminator was met in it. *)
Fixpoint squeezeFrom (pending : jstring) (broken : bool) (s : jstring)
  : jstring :=
  match s with
  | [] => if broken then [] else pending
  | c :: s' =>
      if is_space c then
        squeezeFrom (pending ++ [c]) (broken || is_line_terminator c) s'
      else (if broken then [] else pending) ++ c :: squeezeFrom [] false s'
  end.

Definition squeeze (s : jstring) : jstring := squeezeFrom [] false s.

Section Code.

Context {X : Type}.

(** A string as an item of the code. *)
Variable str : jstring -> X.

(** The loop of [CODE] over [strings.raw]. *)
Fixpoint weave (raw : list jstring) (values : list (NItem X))
  : list (option (NItem X)) :=
  match raw with
  | [] => []
  | s :: raw' =>
      match squeeze s with
      | [] => []
      | t => [Some (NLeaf (str t))]
      end
      ++ match values with
         | v :: values' => Some v :: weave raw' values'
         | [] => weave raw' []
         end
  end.

(** [CODE(loc)`...`] *)
Definition CODE (loc : Loc) (raw : list jstring) (values : list (NItem X))
  : NCode X :=
  NMk (weave raw values) loc.

End Code.

(** [translate(source, { translate })] with the code it builds: [leaf] is
    [methods.translate], which may read and change the variables around
    it ([St]).  The code built for a code has that code for its location:
    the same [source], and no [offset]. *)
Section Translate.

Context {X Y St : Type}.
Variable leaf : X -> St -> NItem Y * St.

Fixpoint ntranslate (src : NCode X) (st : St) {struct src}
  : NCode Y * St :=
  match src with
  | NMk content source =>
      let '(dst, st') :=
        (fix items (l : list (option (NItem X))) (st : St)
           : list (option (NItem Y)) * St :=
           match l with
           | [] => ([], st)
           | None :: l' =>
               let '(d, s) := items l' st in (None :: d, s)
           | Some (NLeaf x) :: l' =>
               let '(y, s1) := leaf x st in
               let '(d, s2) := items l' s1 in (Some y :: d, s2)
           | Some (NSub c) :: l' =>
               let '(c', s1) := ntranslate c st in
               let '(d, s2) := items l' s1 in (Some (NSub c') :: d, s2)
           end) content st in
      (NMk dst (Tag source Absent), st')
  end.

(** The loop over the content of one code. *)
Fixpoint ntranslateItems (l : list (option (NItem X))) (st : St)
  : list (option (NItem Y)) * St :=
  match l with
  | [] => ([], st)
  | None :: l' =>
      let '(d, s) := ntranslateItems l' st in (None :: d, s)
  | Some (NLeaf x) :: l' =>
      let '(y, s1) := leaf x st in
      let '(d, s2) := ntranslateItems l' s1 in (Some y :: d, s2)
  | Some (NSub c) :: l' =>
      let '(c', s1) := ntranslate c st in
      let '(d, s2) := ntranslateItems l' s1 in (Some (NSub c') :: d, s2)
  end.

End Translate.

(** An item of a script ([ScriptItem] of src/compile.ts), as [generate]
    tells items apart.  Objects and functions are known by their identity,
    as the keys of a [Map] are. *)
Inductive ScriptItem :=
| IString (s : jstring)
| IOffset
| INumber (json : jstring)   (* a number, with what JSON.stringify gives *)
| IBoolean (b : bool)
| INull
| IUndefined
| IVariable (id : N)         (* an instance of Variable *)
| IObject (id : N).          (* any other object, or a function *)

#[global] Instance ScriptItem_eq_dec : EqDecision ScriptItem.
Proof. solve_decision. Defined.

(** What the first translation makes of an item: a string, an index, or
    the [Offset] placeholder. *)
Inductive Mid :=
| MString (s : jstring)
| MIndex (n : Z)
| MOffset.

(** The variables of [generate] that the first translation changes. *)
Record GenState := {
  vars : Z;
  argMap : list (ScriptItem * Z);
  args : list ScriptItem;
  contents : list jstring
}.

(** [argMap.get(item)] *)
Fixpoint mapGet (item : ScriptItem) (m : list (ScriptItem * Z)) : option Z :=
  match m with
  | [] => None
  | (k, i) :: m' => if decide (k = item) then Some i else mapGet item m'
  end.

Definition emit (text : jstring) (st : GenState) : NItem Mid * GenState :=
  (NLeaf (MString text),
   {| vars := vars st; argMap := argMap st; args := args st;
      contents := contents st ++ [text] |}).

(** The index of an object: the one the map has for it, or a new one. *)
Definition indexOfItem (item : ScriptItem) (variable : bool) (st : GenState)
  : NItem Mid * GenState :=
  match mapGet item (argMap st) with
  | Some index => (NLeaf (MIndex index), st)
  | None =>
      if variable then
        let index := - (vars st + 1) in
        (NLeaf (MIndex index),
         {| vars := vars st + 1; argMap := argMap st ++ [(item, index)];
            args := args st; contents := contents st |})
      else
        let index := Z.of_nat (length (args st)) in
        (NLeaf (MIndex index),
         {| vars := vars st; argMap := argMap st ++ [(item, index)];
            args := args st ++ [item]; contents := contents st |})
  end.

(** The first [translate] callback of [generate] *)
Definition first (item : ScriptItem) (st : GenState)
  : NItem Mid * GenState :=
  match item with
  | IString s => emit s st
  | IOffset => (NLeaf MOffset, st)
  | INumber json => emit json st
  | IBoolean b => emit (if b then lit "true" else lit "false") st
  | INull => emit (lit "null") st
  | IUndefined => emit (lit "void 0") st
  | IVariable _ => indexOfItem item true st
  | IObject _ => indexOfItem item false st
  end.

(** The loop that draws the name: [draws] are the texts that
    [Math.floor(Math.random() * 4294967296).toString(16)] gives, one for
    each turn; the name is the first that the text of the script does not
    include.  [None] when every draw is included. *)
Fixpoint pickId (draws : list jstring) (tmp : jstring) : option jstring :=
  match draws with
  | [] => None
  | d :: draws' =>
      let tmpId := lit "$" ++ d in
      if includes tmpId tmp then pickId draws' tmp else Some tmpId
  end.

(** The text written for an index. *)
Definition indexName (id : jstring) (n : Z) : jstring :=
  if n <? 0 then id ++ lit "$" ++ StackTrace.decimal (- n)
  else id ++ lit "[" ++ StackTrace.decimal n ++ lit "]".

(** The second [translate] callback of [generate]; the state is
    [cursor]. *)
Definition second (id : jstring) (item : Mid) (cursor : Z)
  : NItem jstring * Z :=
  match item with
  | MIndex n =>
      let text := indexName id n in
      (NSub (NMk [Some (NLeaf text)] LRelative), cursor + len text)
  | MOffset =>
      let text := StackTrace.decimal cursor in
      (NSub (NMk [Some (NLeaf text)] LRelative), cursor + len text)
  | MString s => (NLeaf s, cursor + len s)
  end.

(** The raw strings of the template of [func]. *)
Definition funcRaw : list jstring :=
  [lit "(function $compiled(";
   lit ") {" ++ [c_lf] ++ lit "    " ++ [c_dquote] ++ lit "use strict"
   ++ [c_dquote] ++ lit ";" ++ [c_lf] ++ lit "    ";
   lit ";" ++ [c_lf] ++ lit "  })"].

Record Generated := {
  gen_id : jstring;
  gen_code : NCode jstring;
  gen_args : list ScriptItem
}.

(** [generate(source)] *)
Definition generate (draws : list jstring) (source : NCode ScriptItem)
  : option Generated :=
  let '(translated, st) :=
    ntranslate first source
      {| vars := 0; argMap := []; args := []; contents := [] |} in
  let tmp := concat (contents st) in
  match pickId draws tmp with
  | None => None
  | Some id =>
      let func :=
        CODE MString LRelative funcRaw
          [NLeaf (MString id); NSub translated] in
      let '(code, _) := ntranslate (second id) func 0 in
      Some {| gen_id := id; gen_code := code; gen_args := args st |}
  end.

End Generate.

(** ** The leaves of a nested code *)

(** The items of a code that are not codes, in the order of the text. *)
Fixpoint leaves {X} (c : Generate.NCode X) : list X :=
  match c with
  | Generate.NMk content _ =>
      (fix all (l : list (option (Generate.NItem X))) : list X :=
         match l with
         | [] => []
         | None :: l' => all l'
         | Some (Generate.NLeaf x) :: l' => x :: all l'
         | Some (Generate.NSub c') :: l' => leaves c' ++ all l'
         end) content
  end.

Fixpoint leavesOf {X} (l : list (option (Generate.NItem X))) : list X :=
  match l with
  | [] => []
  | None :: l' => leavesOf l'
  | Some (Generate.NLeaf x) :: l' => x :: leavesOf l'
  | Some (Generate.NSub c) :: l' => leaves c ++ leavesOf l'
  end.

(** The text that the second translation writes for leaves, from a
    cursor. *)
Fixpoint render (id : jstring) (l : list Generate.Mid) (cursor : Z)
  : jstring :=
  match l with
  | [] => []
  | Generate.MString s :: l' => s ++ render id l' (cursor + len s)
  | Generate.MIndex n :: l' =>
      Generate.indexName id n
      ++ render id l' (cursor + len (Generate.indexName id n))
  | Generate.MOffset :: l' =>
      StackTrace.decimal cursor
      ++ render id l' (cursor + len (StackTrace.decimal cursor))
  end.

(** The start of the text of a script, up to the code given to
    [generate]. *)
Definition scriptHead (id : jstring) : jstring :=
  lit "(function $compiled(" ++ id ++ lit ") {" ++ [c_dquote]
  ++ lit "use strict" ++ [c_dquote] ++ lit ";".

Section NCodeInd.

Context {X : Type}.
Variable P : Generate.NCode X -> Prop.
Hypothesis HCode : forall content source,
  Forall (fun i => match i with
                   | Some (Generate.NSub c) => P c
                   | _ => True
                   end) content ->
  P (Generate.NMk content source).

Fixpoint NCode_nested_ind (c : Generate.NCode X) : P c :=
  match c with
  | Generate.NMk content source =>
      HCode content source
        ((fix all (l : list (option (Generate.NItem X)))
            : Forall (fun i => match i with
                               | Some (Generate.NSub c) => P c
                               | _ => True
                               end) l :=
            match l with
            | [] => Forall_nil_2 _
            | i :: l' =>
                Forall_cons_2 _ i l'
                  (match i
                     return match i with
                            | Some (Generate.NSub c) => P c
                            | _ => True
                            end
                   with
                   | Some (Generate.NSub c') => NCode_nested_ind c'
                   | Some (Generate.NLeaf _) => I
                   | None => I
                   end)
                  (all l')
            end) content)
  end.

End NCodeInd.

(** The callback of a translation applied to leaves, one after the other. *)
Fixpoint thread {X Y St} (leaf : X -> St -> Generate.NItem Y * St)
    (l : list X) (st : St) : list (Generate.NItem Y) * St :=
  match l with
  | [] => ([], st)
  | x :: l' =>
      let '(y, s1) := leaf x st in
      let '(ys, s2) := thread leaf l' s1 in (y :: ys, s2)
  end.

Definition itemLeaves {Y} (y : Generate.NItem Y) : list Y :=
  match y with
  | Generate.NLeaf x => [x]
  | Generate.NSub c => leaves c
  end.

(** What the first translation writes for an item, given the map it ends
    with. *)
Definition nameIn (m : list (Generate.ScriptItem * Z))
    (x : Generate.ScriptItem) : Generate.Mid :=
  match x with
  | Generate.IString s => Generate.MString s
  | Generate.IOffset => Generate.MOffset
  | Generate.INumber json => Generate.MString json
  | Generate.IBoolean b =>
      Generate.MString (if b then lit "true" else lit "false")
  | Generate.INull => Generate.MString (lit "null")
  | Generate.IUndefined => Generate.MString (lit "void 0")
  | _ => Generate.MIndex (default 0 (Generate.mapGet x m))
  end.

Definition genState0 : Generate.GenState :=
  {| Generate.vars := 0; Generate.argMap := []; Generate.args := [];
     Generate.contents := [] |}.

(** What the first translation keeps: an index stands for one item; the
    index of a variable is negative, the index of another object is its
    place in [args]; and [args] holds the objects of the map. *)
Definition numbered_ok (st : Generate.GenState) : Prop :=
  0 <= Generate.vars st
  /\ (forall x i, Generate.mapGet x (Generate.argMap st) = Some i ->
        (exists a, x = Generate.IVariable a /\ - Generate.vars st <= i < 0)
        \/ (exists a, x = Generate.IObject a /\ 0 <= i
                      /\ Generate.args st !! Z.to_nat i = Some x))
  /\ (forall x y i, Generate.mapGet x (Generate.argMap st) = Some i ->
                    Generate.mapGet y (Generate.argMap st) = Some i -> x = y)
  /\ (forall n x, Generate.args st !! n = Some x ->
                  Generate.mapGet x (Generate.argMap st) = Some (Z.of_nat n)).

(** The map keeps what it has. *)
Definition grows (st st' : Generate.GenState) : Prop :=
  forall z i, Generate.mapGet z (Generate.argMap st) = Some i ->
              Generate.mapGet z (Generate.argMap st') = Some i.

(** An object or a function, as against a variable. *)
Definition isObjectItem (x : Generate.ScriptItem) : bool :=
  match x with Generate.IObject _ => true | _ => false end.

Definition isVariableItem (x : Generate.ScriptItem) : bool :=
  match x with Generate.IVariable _ => true | _ => false end.

(** The strings among the leaves that the first translation makes: what
    [contents] holds. *)
Definition textOf (m : Generate.Mid) : option jstring :=
  match m with
  | Generate.MString s => Some s
  | _ => None
  end.

(** The text of the script that [generate] writes for leaves whose
    objects have the indices of [m]. *)
Definition scriptText (id : jstring) (m : list (Generate.ScriptItem * Z))
    (l : list Generate.ScriptItem) : jstring :=
  scriptHead id ++ render id (nameIn m <$> l) (len (scriptHead id))
  ++ lit ";})".

Module ScriptSamples.

Import Generate.

(** [$1f(] offset [,] an object [,] a variable [,] the same object [)], the
    last three in a code of their own. *)
Definition call : NCode ScriptItem :=
  NMk [Some (NLeaf (IString (lit "$1f("))); Some (NLeaf IOffset);
       Some (NLeaf (IString (lit ","))); None;
       Some (NSub (NMk [Some (NLeaf (IObject 7));
                        Some (NLeaf (IString (lit ",")));
                        Some (NLeaf (IVariable 3));
                        Some (NLeaf (IString (lit ",")));
                        Some (NLeaf (IObject 7))] LRelative));
       Some (NLeaf (IString (lit ")")))] LRelative.

(** Two draws; the text of [call] includes the first. *)
Definition draws : list jstring := [lit "1f"; lit "2a"].

Definition generated : Generated :=
  Eval vm_compute in
    default {| gen_id := []; gen_code := NMk [] LRelative; gen_args := [] |}
      (generate draws call).

End ScriptSamples.

(** * Properties *)

Import Syntax Runtime Compile Exec.

(** ** Strings *)

Section StringFacts.

Lemma startsWith_app p t : startsWith p (p ++ t) = true.
Proof. induction p as [|x p IH]; simpl; [done|]. by rewrite N.eqb_refl. Qed.

Lemma startsWith_inv p s : startsWith p s = true -> exists t, s = p ++ t.
Proof.
  revert s; induction p as [|x p IH]; intros s H; simpl in *.
  - by exists s.
  - destruct s as [|y s]; [done|].
    apply andb_true_iff in H as [Hxy H]. apply N.eqb_eq in Hxy as ->.
    destruct (IH _ H) as [t ->]. by exists t.
Qed.

Lemma indexOf_range p s : indexOf p s = -1 \/ 0 <= indexOf p s <= len s.
Proof.
  unfold len. induction s as [|a s IH]; simpl.
  - destruct (startsWith p []); lia.
  - destruct (startsWith p (a :: s)); [lia|].
    destruct (indexOf p s <? 0) eqn:E; [lia|]. apply Z.ltb_ge in E. lia.
Qed.

Lemma indexOf_none p s :
  indexOf p s = -1 -> forall j, occurs p s j -> False.
Proof.
  unfold occurs. induction s as [|a s IH]; simpl; intros H j Hj.
  - destruct (startsWith p []) eqn:E; [done|]. rewrite drop_nil in Hj. congruence.
  - destruct (startsWith p (a :: s)) eqn:E; [done|].
    destruct (indexOf p s <? 0) eqn:E'.
    + apply Z.ltb_lt in E'. destruct (indexOf_range p s) as [R|R]; [|unfold len in R; lia].
      destruct j as [|j]; simpl in Hj; [congruence|]. eauto.
    + apply Z.ltb_ge in E'. lia.
Qed.

Lemma indexOf_found p s i :
  indexOf p s = Z.of_nat i ->
  occurs p s i /\ forall j, (j < i)%nat -> ~ occurs p s j.
Proof.
  unfold occurs. revert i; induction s as [|a s IH]; simpl; intros i H.
  - destruct (startsWith p []) eqn:E; [|lia].
    assert (i = 0%nat) as -> by lia. split; [done|]. intros; lia.
  - destruct (startsWith p (a :: s)) eqn:E.
    + assert (i = 0%nat) as -> by lia. split; [done|]. intros; lia.
    + destruct (indexOf p s <? 0) eqn:E'; [lia|]. apply Z.ltb_ge in E'.
      destruct i as [|i]; [lia|].
      destruct (IH i) as [H1 H2]; [lia|]. split; [done|].
      intros [|j] Hj; simpl; [congruence|]. apply H2. lia.
Qed.

(** The first occurrence, read off [indexOf]. *)
Lemma indexOf_first p s i :
  occurs p s i -> (forall j, (j < i)%nat -> ~ occurs p s j) ->
  indexOf p s = Z.of_nat i.
Proof.
  intros Hi Hmin.
  destruct (indexOf_range p s) as [R|R].
  - exfalso. eapply indexOf_none; eauto.
  - destruct (indexOf_found p s (Z.to_nat (indexOf p s))) as [H1 H2]; [lia|].
    destruct (lt_eq_lt_dec (Z.to_nat (indexOf p s)) i) as [[L|L]|L].
    + exfalso. by eapply Hmin.
    + lia.
    + exfalso. by eapply H2.
Qed.

Lemma occurs3 a b c s i :
  occurs [a; b; c] s i <->
  s !! i = Some a /\ s !! (i + 1)%nat = Some b /\ s !! (i + 2)%nat = Some c.
Proof.
  unfold occurs.
  assert (s !! i = drop i s !! 0%nat) as ->
    by (rewrite lookup_drop; f_equal; lia).
  rewrite <- !(lookup_drop s i).
  destruct (drop i s) as [|x [|y [|z t]]]; simpl.
  1-3: rewrite ?andb_false_r; split; [done|]; intros (?&?&?); done.
  rewrite andb_true_r, !andb_true_iff, !N.eqb_eq.
  split; [intros (->&->&->); done|]. intros (?&?&?). simplify_eq. done.
Qed.

End StringFacts.

(** ** The mask of [checkInvalidAtJs] *)

Section MaskFacts.

Lemma atjs_units : atjs = [c_at; 106; 115]%N.
Proof. reflexivity. Qed.

Lemma flags_length e n s : length (flags e n s) = length s.
Proof.
  revert e n; induction s as [|c s IH]; intros e n; simpl; [done|].
  destruct n; [|simpl; by rewrite IH].
  destruct (is_quote c && negb e); [destruct (literalTail c s)|];
    simpl; by rewrite IH.
Qed.

Lemma masked_length src : length (masked src) = length src.
Proof.
  unfold masked. rewrite length_zip_with, flags_length. lia.
Qed.

Lemma masked_lookup_ne src k c :
  c <> c_star ->
  masked src !! k = Some c <->
  src !! k = Some c /\ flags false 0 src !! k = Some false.
Proof.
  intros Hc. unfold masked. rewrite lookup_zip_with.
  destruct (src !! k) as [x|]; simpl; [|split; [done|intros [? _]; done]].
  destruct (flags false 0 src !! k) as [[]|]; simpl.
  - split; [intros [= <-]; done|intros [_ ?]; done].
  - split; [intros [= <-]; done|intros [[= <-] _]; done].
  - split; [done|intros [_ ?]; done].
Qed.

Lemma masked_occurs src i : occurs atjs (masked src) i <-> free_at src i.
Proof.
  unfold free_at. rewrite atjs_units, !occurs3.
  rewrite !masked_lookup_ne by done.
  split.
  - intros ((?&?)&(?&?)&(?&?)). split; [done|].
    intros k Hk. destruct k as [|[|[|k]]]; try lia; try done.
    by replace (i + 0)%nat with i by lia.
  - intros ((?&?&?)&Hf).
    pose proof (Hf 0%nat ltac:(lia)) as Hz.
    replace (i + 0)%nat with i in Hz by lia.
    pose proof (Hf 1%nat ltac:(lia)). pose proof (Hf 2%nat ltac:(lia)).
    done.
Qed.

Lemma first_free_unique src i j : first_free src i -> first_free src j -> i = j.
Proof.
  intros [Hi Hi'] [Hj Hj'].
  destruct (lt_eq_lt_dec i j) as [[L|L]|L]; [|done|].
  - exfalso. by eapply Hj'.
  - exfalso. by eapply Hi'.
Qed.

Lemma check_some src source off e :
  checkInvalidAtJs src source off = Some e <->
  exists i, first_free src i
            /\ e = cssSyntaxError (lit "invalid use of @js") source
                     (off + Z.of_nat i).
Proof.
  unfold checkInvalidAtJs.
  destruct (indexOf_range atjs (masked src)) as [R|R].
  - rewrite R. simpl. split; [done|]. intros (i&[Hi _]&_).
    exfalso. eapply indexOf_none; [exact R|]. by apply masked_occurs.
  - destruct (0 <=? indexOf atjs (masked src)) eqn:E; [|apply Z.leb_gt in E; lia].
    destruct (indexOf_found atjs (masked src)
                (Z.to_nat (indexOf atjs (masked src)))) as [H1 H2]; [lia|].
    assert (first_free src (Z.to_nat (indexOf atjs (masked src)))) as Hff.
    { split; [by apply masked_occurs|].
      intros j Hj Hf. apply (H2 j Hj). by apply masked_occurs. }
    split.
    + intros [= <-]. eexists; split; [exact Hff|]. f_equal. lia.
    + intros (i&Hi&->). rewrite (first_free_unique _ _ _ Hi Hff).
      do 2 f_equal. lia.
Qed.

Lemma check_none src source off :
  checkInvalidAtJs src source off = None <-> forall i, ~ free_at src i.
Proof.
  unfold checkInvalidAtJs.
  destruct (indexOf_range atjs (masked src)) as [R|R].
  - rewrite R. simpl. split; [|done]. intros _ i Hi.
    eapply indexOf_none; [exact R|]. by apply masked_occurs.
  - destruct (0 <=? indexOf atjs (masked src)) eqn:E; [|apply Z.leb_gt in E; lia].
    split; [done|]. intros H. exfalso.
    destruct (indexOf_found atjs (masked src)
                (Z.to_nat (indexOf atjs (masked src)))) as [H1 _]; [lia|].
    eapply H. by apply masked_occurs.
Qed.

Lemma is_quote_ne_backslash q : is_quote q = true -> q <> c_backslash.
Proof. intros H ->. done. Qed.

Lemma literalTail_body q body post :
  is_quote q = true -> litBody q body = true ->
  literalTail q (body ++ q :: post) = Some (S (length body)).
Proof.
  intros Hq.
  assert (forall n body, (length body <= n)%nat -> litBody q body = true ->
            literalTail q (body ++ q :: post) = Some (S (length body))) as H.
  { induction n as [|n IH]; intros b Hlen Hb.
    - destruct b; [|simpl in Hlen; lia]. simpl. by rewrite N.eqb_refl.
    - destruct b as [|c s]; [simpl; by rewrite N.eqb_refl|].
      cbn [litBody] in Hb. cbn [app literalTail length].
      destruct (N.eqb c c_backslash) eqn:Ec.
      + apply N.eqb_eq in Ec as ->.
        rewrite (proj2 (N.eqb_neq c_backslash q))
          by (intros <-; by apply (is_quote_ne_backslash _ Hq)).
        destruct s as [|d s]; [done|].
        apply andb_true_iff in Hb as [Hd Hb]. apply negb_true_iff in Hd.
        cbn [app length]. rewrite Hd, IH; [done| |done].
        simpl in Hlen. lia.
      + apply andb_true_iff in Hb as [Hc Hb]. apply negb_true_iff in Hc.
        rewrite Hc, IH; [done| |done]. simpl in Hlen. lia. }
  intros Hb. by apply (H (length body)).
Qed.

Lemma flags_pending s t :
  s <> [] ->
  flags false (length s) (s ++ t) = replicate (length s) true ++ flags false 0 t.
Proof.
  induction s as [|c s IH]; intros Hs; [done|]. simpl.
  destruct s as [|c' s]; [done|]. f_equal. by apply IH.
Qed.

Lemma flags_plain pre rest e :
  Forall (fun c => is_quote c = false) pre ->
  flags e 0 (pre ++ rest)
  = replicate (length pre) false
    ++ flags (match last pre with
              | Some c => N.eqb c c_backslash
              | None => e
              end) 0 rest.
Proof.
  intros H. revert e. induction H as [|c pre Hc H IH]; intros e; [done|].
  cbn [app flags length replicate]. rewrite Hc. cbn [andb].
  rewrite IH. destruct pre as [|c' pre]; [done|].
  rewrite last_cons_cons.
  destruct (last (c' :: pre)) eqn:E; [done|]. by apply last_None in E.
Qed.

Lemma noQuote_Forall pre :
  noQuote pre = true -> Forall (fun c => is_quote c = false) pre.
Proof.
  unfold noQuote. rewrite forallb_forall, Forall_forall.
  intros H c Hc. apply negb_true_iff, H. by apply list_elem_of_In.
Qed.

(** A complete literal after a prefix without quotes is masked whole. *)
Lemma flags_literal pre q body post :
  is_quote q = true ->
  noQuote pre = true ->
  ends_escaped pre = false ->
  litBody q body = true ->
  flags false 0 (pre ++ q :: body ++ q :: post)
  = replicate (length pre) false
    ++ replicate (length body + 2) true
    ++ flags false 0 post.
Proof.
  intros Hq Hpre%noQuote_Forall Hesc Hb. rewrite flags_plain by done.
  f_equal.
  assert (match last pre with
          | Some c => N.eqb c c_backslash
          | None => false
          end = false) as -> by exact Hesc.
  cbn [flags]. rewrite Hq. cbn [andb negb].
  rewrite literalTail_body by done.
  replace (length body + 2)%nat with (S (length (body ++ [q])))
    by (rewrite length_app; simpl; lia).
  replace (S (length body)) with (length (body ++ [q]))
    by (rewrite length_app; simpl; lia).
  replace (body ++ q :: post) with ((body ++ [q]) ++ post)
    by (by rewrite <- app_assoc).
  cbn [replicate app]. f_equal.
  apply flags_pending. by destruct body.
Qed.

Lemma free_outside_literal pre q body post i :
  is_quote q = true ->
  noQuote pre = true ->
  ends_escaped pre = false ->
  litBody q body = true ->
  free_at (pre ++ q :: body ++ q :: post) i ->
  (i + 3 <= length pre)%nat \/ (length pre + length body + 2 <= i)%nat.
Proof.
  intros Hq Hpre Hesc Hb [_ Hf].
  rewrite flags_literal in Hf by done.
  destruct (decide (i + 3 <= length pre)%nat) as [|H1]; [by left|].
  destruct (decide (length pre + length body + 2 <= i)%nat) as [|H2];
    [by right|]. exfalso.
  (* some position among i, i+1, i+2 lies in the literal *)
  set (k := if decide (length pre <= i)%nat then 0%nat
            else (length pre - i)%nat).
  assert (k < 3)%nat as Hk by (unfold k; case_decide; lia).
  specialize (Hf k Hk).
  rewrite lookup_app_r in Hf by (rewrite length_replicate; unfold k; case_decide; lia).
  rewrite length_replicate in Hf.
  rewrite lookup_app_l in Hf
    by (rewrite length_replicate; unfold k; case_decide; lia).
  apply lookup_replicate in Hf as [? _]. done.
Qed.

End MaskFacts.

(** ** The checks of the compiler *)

Section CheckFacts.

Variable Function_ : jstring -> option ParseError.
Variable acorn : option (jstring -> option ParseError).
Variable replaceImport : Code -> option Code.
Variable globals : GlobalScope -> gmap GlobalScope GlobalBinds -> GlobalBinds.
Variable selectors : jstring -> list jstring.
Variable offsetAt : option Source -> Z -> Z.

Local Abbreviation compileChild :=
  (compileChild Function_ acorn replaceImport globals selectors offsetAt).
Local Abbreviation selectorLoop :=
  (selectorLoop Function_ acorn replaceImport offsetAt).
Local Abbreviation compileSelector :=
  (compileSelector Function_ acorn replaceImport selectors offsetAt).

Lemma check_bad src source off i s :
  first_free src i ->
  check src source off s = Bad (invalidUse source (off + Z.of_nat i)) s.
Proof.
  intros H. unfold check.
  destruct (checkInvalidAtJs src source off) as [e|] eqn:E.
  - apply check_some in E as (j&Hj&->).
    by rewrite (first_free_unique _ _ _ H Hj).
  - exfalso. rewrite check_none in E. eapply E, H.
Qed.

Lemma check_good src source off s :
  (forall i, ~ free_at src i) -> check src source off s = Good tt s.
Proof.
  intros H. unfold check.
  by rewrite (proj2 (check_none src source off) H).
Qed.

Lemma selectorLoop_app selector source pre rest st s :
  selectorLoop selector source (pre ++ rest) st s
  = match selectorLoop selector source pre st s with
    | Good st1 s1 => selectorLoop selector source rest st1 s1
    | Bad e s1 => Bad e s1
    end.
Proof.
  revert st s. induction pre as [|sel pre IH]; intros st s; [done|].
  cbn [app Compile.selectorLoop].
  destruct (isAtJsSelector sel).
  - unfold bind. destruct (validate _ _ _ _ _ _ _ _ _) as [f s1|e s1]; [|done].
    apply IH.
  - unfold bind. destruct (check _ _ _ _) as [u s1|e s1]; [|done]. apply IH.
Qed.

Lemma decl_prop_invalid prop value raws source ctx s i :
  first_free prop i ->
  compileChild (Decl prop value raws source) ctx s
  = Bad (invalidUse source (0 + Z.of_nat i)) s.
Proof.
  intros H. cbn [Compile.compileChild]. unfold bind at 1.
  by rewrite (check_bad _ _ _ _ _ H).
Qed.

Lemma decl_value_invalid prop value raws source ctx s i :
  (forall j, ~ free_at prop j) ->
  markedValue value = None ->
  first_free value i ->
  compileChild (Decl prop value raws source) ctx s
  = Bad (invalidUse source (valueOffset prop raws + Z.of_nat i)) s.
Proof.
  intros Hp Hm H. cbn [Compile.compileChild]. unfold bind at 1.
  rewrite check_good by done. rewrite Hm. unfold bind at 1.
  by rewrite (check_bad _ _ _ _ _ H).
Qed.

Lemma atrule_params_invalid name params nodes raws source ctx s i :
  JStr.eqb name (lit "js") = false ->
  first_free params i ->
  compileChild (AtRule name params nodes raws source) ctx s
  = Bad (invalidUse source (paramsOffset name params raws + Z.of_nat i)) s.
Proof.
  intros Hn H. cbn [Compile.compileChild]. rewrite Hn. unfold bind at 1.
  by rewrite (check_bad _ _ _ _ _ H).
Qed.

Lemma selector_invalid selector nodes raws source ctx s pre sel post st1 s1 i :
  includes atjs selector = true ->
  selectors selector = pre ++ sel :: post ->
  selectorLoop selector source pre {| cut := 0; scursor := 0; pieces := [] |} s
  = Good st1 s1 ->
  isAtJsSelector sel = false ->
  first_free sel i ->
  compileChild (Rule selector nodes raws source) ctx s
  = Bad (invalidUse source
           (indexOfFrom sel selector (scursor st1) + Z.of_nat i)) s1.
Proof.
  intros Hinc Hsel Hpre Hform H. cbn [Compile.compileChild].
  unfold bind at 1. unfold Compile.compileSelector. rewrite Hinc. cbn [negb].
  unfold bind at 1. rewrite Hsel, selectorLoop_app, Hpre.
  cbn [Compile.selectorLoop]. rewrite Hform. unfold bind at 1.
  by rewrite (check_bad _ _ _ _ _ H).
Qed.

End CheckFacts.

(** ** The interpretation of objects *)

Section RuntimeFacts.

Variable inspect : value -> Z -> jstring.
Variable fromOffset : Input -> Z -> option (Z * Z).

Local Abbreviation interpretEntry := (interpretEntry inspect fromOffset).
Local Abbreviation interpretObject := (interpretObject inspect fromOffset).
Local Abbreviation interpretUnknown := (interpretUnknown inspect fromOffset).
Local Abbreviation Context_reflect := (Context_reflect fromOffset).

Lemma reflect_node c n :
  exists s, (Context_reflect c n).1 = set_source n s.
Proof.
  unfold Runtime.Context_reflect.
  destruct (node_source n) as [s|] eqn:E.
  - exists (Some s). simpl. destruct n; simpl in *; by subst.
  - destruct (ctx_source c) as [b|]; [destruct (BeginJs_source _ b)|];
      simpl; eauto; exists None; destruct n; simpl in *; by subst.
Qed.

Lemma appendNodes_atRule name params raws source ns ret :
  exists raws',
    appendNodes (AtRule name params None raws source) ns ret
    = AtRule name params (Some ns) raws' source.
Proof.
  unfold appendNodes, mergeRaws. simpl.
  destruct (semi ret), (semicolon raws); simpl; eauto.
Qed.

Lemma appendNodes_rule selector raws source ns ret :
  exists raws',
    appendNodes (Rule selector [] raws source) ns ret
    = Rule selector ns raws' source.
Proof.
  unfold appendNodes, mergeRaws. simpl.
  destruct (semi ret), (semicolon raws); simpl; eauto.
Qed.

Lemma value_eq_undefined_true v : value_eq_undefined v = true -> v = VUndefined.
Proof. by destruct v. Qed.

Lemma interpretEntry_ok key value c n c1 :
  interpretEntry key value c = Ok (n, c1) -> entry_node inspect fromOffset key value n.
Proof.
  unfold Runtime.interpretEntry, entry_body, entry_node, nested_body.
  destruct (startsWith (lit "@") key).
  - destruct (reflect_node c (atRule (atRuleName (sliceFrom key 1))
                                (atRuleParams (sliceFrom key 1)))) as [s Hs].
    destruct (Context_reflect c _) as [node c0]. simpl in Hs. subst node.
    destruct (isInterpretable value) eqn:Hi.
    + fold interpretUnknown.
      destruct (interpretUnknown value (Context_nest c0)) as [[ns ret]|e] eqn:E;
        [|done].
      intros [= <- <-].
      destruct (appendNodes_atRule (atRuleName (sliceFrom key 1))
                  (atRuleParams (sliceFrom key 1)) noRaws s ns ret) as [r Hr].
      exists r, s. right. split; [done|]. exists (Context_nest c0), ns, ret.
      split; [done|]. exact Hr.
    + destruct (value_eq_undefined value) eqn:Hu; [|done].
      intros [= <- <-]. exists noRaws, s. left.
      split; [by apply value_eq_undefined_true|done].
  - destruct (isInterpretable value) eqn:Hi.
    + destruct (reflect_node c (rule key)) as [s Hs].
      destruct (Context_reflect c _) as [node c0]. simpl in Hs. subst node.
      fold interpretUnknown.
      destruct (interpretUnknown value (Context_nest c0)) as [[ns ret]|e] eqn:E;
        [|done].
      intros [= <- <-].
      destruct (appendNodes_rule key noRaws s ns ret) as [r Hr].
      exists r, s. left. split; [done|]. exists (Context_nest c0), ns, ret.
      split; [done|]. exact Hr.
    + destruct (isStringifiable value) eqn:Hs; [|done].
      destruct (reflect_node c (decl key (String_ (Runtime.unexpected_message inspect) value))) as [s Hs'].
      destruct (Context_reflect c _) as [node c0]. simpl in Hs'. subst node.
      intros [= <- <-]. exists noRaws, s. right. done.
Qed.

Lemma interpretEntry_rejected key value c :
  entry_rejected key value ->
  exists e, interpretEntry key value c = Err e /\ is_Unexpected e value.
Proof.
  unfold entry_rejected, Runtime.interpretEntry, entry_body.
  intros [Hi H]. rewrite Hi.
  destruct (startsWith (lit "@") key).
  - destruct (Context_reflect c _) as [node c0].
    destruct (value_eq_undefined value) eqn:Hu.
    + by apply value_eq_undefined_true in Hu.
    + simpl. eexists; split; [done|]. by eexists.
  - rewrite H. eexists; split; [done|]. by eexists.
Qed.

Lemma interpretObject_ok obj c ns c' :
  interpretObject obj c = Ok (ns, c') ->
  Forall2 (fun kv n => entry_node inspect fromOffset kv.1 kv.2 n) obj ns.
Proof.
  revert c ns. induction obj as [|[k v] obj IH]; intros c ns; simpl.
  - intros [= <- <-]. constructor.
  - destruct (interpretEntry k v c) as [[n c1]|e] eqn:E; [|done].
    destruct (interpretObject obj c1) as [[ns' c2]|e] eqn:E'; [|done].
    intros [= <- <-]. constructor; [|by eapply IH].
    by eapply interpretEntry_ok.
Qed.

Lemma interpretObject_rejected pre key value post c ns c1 :
  interpretObject pre c = Ok (ns, c1) ->
  entry_rejected key value ->
  exists e, interpretObject (pre ++ (key, value) :: post) c = Err e
            /\ is_Unexpected e value.
Proof.
  revert c ns. induction pre as [|[k v] pre IH]; intros c ns; simpl.
  - intros [= <- <-] H.
    destruct (interpretEntry_rejected key value c H) as (e&->&He). eauto.
  - destruct (interpretEntry k v c) as [[n c0]|e] eqn:E; [|done].
    destruct (interpretObject pre c0) as [[ns' c2]|e] eqn:E'; [|done].
    intros [= <- <-] H. destruct (IH _ _ E' H) as (e&->&He). eauto.
Qed.

(** The walk of a plain object is the loop of [interpretObject]. *)
Lemma interp_plain es c : interp inspect fromOffset (VPlain es) c = interpretObject es c.
Proof.
  cbn [interp]. revert c. induction es as [|[k v] es IH]; intros c; [done|].
  cbn [Runtime.interpretObject]. unfold Runtime.interpretEntry.
  destruct (entry_body _ _ _ k v c) as [[n c1]|e]; [|done].
  by rewrite IH.
Qed.

Lemma interp_iterable items e c :
  interp inspect fromOffset (VIterable items e) c = interpItems inspect fromOffset items e c.
Proof.
  cbn [interp]. revert c. induction items as [|v items IH]; intros c; [done|].
  cbn [interpItems]. destruct (interp inspect fromOffset v c) as [[ns c1]|x]; [|done].
  by rewrite IH.
Qed.




End RuntimeFacts.

(** ** The main loop *)

Section LoopFacts.

Variable inspect : value -> Z -> jstring.
Variable call : fid -> option value -> ending.
Variable fromOffset : Input -> Z -> option (Z * Z).

Local Abbreviation turn := (turn inspect call fromOffset).
Local Abbreviation loop := (loop inspect call fromOffset).
Local Abbreviation classify := (classify inspect fromOffset).

Lemma loop_S fuel s out :
  loop (S fuel) s out = continue inspect call fromOffset fuel out (turn s).
Proof. simpl. by destruct (turn s). Qed.

Lemma turn_pending_end s f :
  func s = Some f -> next s = Some (VEndJs true) ->
  turn s = match call f None with
           | Done v => classify v (with_func_next s None (Some (VEndJs true)))
           | Fail e => Throws e
           end.
Proof.
  intros Hf Hn. unfold Runtime.turn, dispatch. rewrite Hn, Hf. done.
Qed.

Lemma chain_resolves fs : forall f v s fuel out,
  func s = Some f -> next s = Some (VEndJs true) ->
  chain call f fs v ->
  loop (length fs + 1 + fuel) s out
  = continue inspect call fromOffset fuel out
      (classify v (with_func_next s None (Some (VEndJs true)))).
Proof.
  induction fs as [|g fs IH]; intros f v s fuel out Hf Hn Hc.
  - simpl in Hc. cbn [length Nat.add]. rewrite loop_S.
    by rewrite (turn_pending_end s f Hf Hn), Hc.
  - destruct Hc as [Hc1 Hc2].
    replace (length (g :: fs) + 1 + fuel)%nat
      with (S (length fs + 1 + fuel)) by (simpl; lia).
    rewrite loop_S, (turn_pending_end s f Hf Hn), Hc1.
    cbn [Runtime.classify continue with_func_next func next context stack iter].
    rewrite app_nil_r.
    erewrite (IH g v _ fuel out); [done..|exact Hc2].
Qed.

Lemma turn_direct s v :
  func s = None -> next s = Some v ->
  turn s = classify v (with_func_next s None None).
Proof.
  intros Hf Hn. unfold Runtime.turn, dispatch. by rewrite Hn, Hf.
Qed.

Lemma turn_cancel s f :
  func s = Some f -> next s = Some (VEndJs false) ->
  turn s = Yields [] (with_func_next s None (Some (VEndJs false))).
Proof.
  intros Hf Hn. unfold Runtime.turn, dispatch. by rewrite Hn, Hf.
Qed.

Lemma classify_undefined s : classify VUndefined s = Yields [] s.
Proof. done. Qed.

Lemma classify_null s :
  classify VNull s = Throws (Unexpected_create VNull (bj_pos <$> ctx_source (context s))).
Proof. done. Qed.

End LoopFacts.

(** ** The globals *)

Section OnceFacts.

Variable Function_ : jstring -> option ParseError.
Variable acorn : option (jstring -> option ParseError).
Variable replaceImport : Code -> option Code.
Variable globals : GlobalScope -> gmap GlobalScope GlobalBinds -> GlobalBinds.
Variable selectors : jstring -> list jstring.
Variable offsetAt : option Source -> Z -> Z.

Local Abbreviation compileChild :=
  (compileChild Function_ acorn replaceImport globals selectors offsetAt).
Local Abbreviation loadGlobals := (loadGlobals globals).
Local Abbreviation validate :=
  (validate Function_ acorn replaceImport offsetAt).

Lemma extends_refl s : extends s s.
Proof. by split. Qed.

Lemma extends_trans s1 s2 s3 : extends s1 s2 -> extends s2 s3 -> extends s1 s3.
Proof. intros [A1 A2] [B1 B2]. split; auto. Qed.

Lemma steady_ret {A} (a : A) : steady (ret a).
Proof. intros s. apply extends_refl. Qed.

Lemma steady_fail {A} e : steady (@fail A e).
Proof. intros s. apply extends_refl. Qed.

Lemma steady_bind {A B} (m : M A) (k : A -> M B) :
  steady m -> (forall a, steady (k a)) -> steady (bind m k).
Proof.
  intros Hm Hk s. unfold bind. specialize (Hm s).
  destruct (m s) as [a s1|e s1]; simpl in *; [|done].
  eapply extends_trans; [exact Hm|apply Hk].
Qed.

Lemma steady_if {A} (b : bool) (m1 m2 : M A) :
  steady m1 -> steady m2 -> steady (if b then m1 else m2).
Proof. by destruct b. Qed.

Lemma loadGlobals_hit scope s binds :
  globalEnv s !! scope = Some binds -> loadGlobals scope s = Good binds s.
Proof. intros H. unfold Compile.loadGlobals. by rewrite H. Qed.

Lemma loadGlobals_miss scope s :
  globalEnv s !! scope = None ->
  loadGlobals scope s
  = Good (globals scope (globalEnv s))
      {| globalEnv := <[scope := globals scope (globalEnv s)]> (globalEnv s);
         calls := calls s ++ [scope] |}.
Proof. intros H. unfold Compile.loadGlobals. by rewrite H. Qed.

Lemma steady_loadGlobals scope : steady (loadGlobals scope).
Proof.
  intros s. unfold Compile.loadGlobals.
  destruct (globalEnv s !! scope) as [b|] eqn:E; simpl; [apply extends_refl|].
  split; simpl.
  - intros [Hnd Hin]. split; simpl.
    + apply NoDup_app. split; [done|]. split; [|apply NoDup_singleton].
      intros k Hk ->%list_elem_of_singleton.
      apply Hin in Hk as [? Hk]. congruence.
    + intros k. rewrite elem_of_app, list_elem_of_singleton, Hin.
      rewrite lookup_insert_is_Some.
      destruct (decide (scope = k)) as [->|Hne]; [by split; auto|].
      split; [intros [H|H]; [by right|done]|intros [H|[_ H]]; [done|by left]].
  - intros k b Hk. rewrite lookup_insert_ne; [done|]. congruence.
Qed.

Lemma steady_validate source offset code stub :
  steady (validate source offset code stub).
Proof.
  unfold Compile.validate. destruct (userCode _ _ _ _ _ _ _);
    [apply steady_ret|apply steady_fail..].
Qed.

Lemma steady_check src source offset : steady (check src source offset).
Proof.
  unfold check. destruct (checkInvalidAtJs _ _ _);
    [apply steady_fail|apply steady_ret].
Qed.

Lemma steady_selectorLoop selector source sels st :
  steady (selectorLoop Function_ acorn replaceImport offsetAt selector source
            sels st).
Proof.
  revert st. induction sels as [|sel sels IH]; intros st; simpl.
  - apply steady_ret.
  - apply steady_if; apply steady_bind; intros;
      auto using steady_validate, steady_check.
Qed.

Lemma steady_compileSelector selector source :
  steady (compileSelector Function_ acorn replaceImport selectors offsetAt
            selector source).
Proof.
  unfold Compile.compileSelector. apply steady_if; [apply steady_ret|].
  apply steady_bind; [apply steady_selectorLoop|]. intros. apply steady_ret.
Qed.

Lemma steady_enterScope l node :
  steady (enterScope globals l node).
Proof.
  unfold Compile.enterScope. case_bool_decide; [apply steady_ret|].
  apply steady_bind; [apply steady_loadGlobals|]. intros. apply steady_ret.
Qed.

Section Children.

Variable rec : ChildNode -> CompileContext -> M Element.

Lemma steady_childTurn node l :
  (forall c, steady (rec node c)) ->
  steady (childTurn globals rec node l).
Proof.
  intros H. unfold childTurn.
  apply steady_bind; [apply steady_enterScope|]. intros l1.
  apply steady_bind; [apply H|]. intros e.
  apply steady_if; apply steady_ret.
Qed.

Lemma steady_childrenLoop nodes l :
  Forall (fun n => forall c, steady (rec n c)) nodes ->
  steady (childrenLoop globals rec nodes l).
Proof.
  intros H. revert l. induction H as [|n nodes Hn H IH]; intros l; simpl.
  - apply steady_ret.
  - apply steady_bind; [by apply steady_childTurn|]. apply IH.
Qed.

Lemma steady_compileContainer nodes raws c :
  Forall (fun n => forall c, steady (rec n c)) nodes ->
  steady (compileContainer globals rec nodes raws c).
Proof.
  intros H. unfold compileContainer, compileContainerChildren.
  apply steady_bind.
  - apply steady_bind; [by apply steady_childrenLoop|].
    intros. apply steady_ret.
  - intros. apply steady_if; apply steady_ret.
Qed.

End Children.

Lemma steady_compileChild node : forall c, steady (compileChild node c).
Proof.
  induction node as [name params nodes raws source IH
                    |selector nodes raws source IH
                    |prop value raws source
                    |text raws source] using ChildNode_nested_ind;
    intros c; cbn [Compile.compileChild].
  - apply steady_if.
    + unfold compileAtJs. apply steady_bind; [apply steady_validate|].
      intros frag. destruct nodes as [ns|]; [|apply steady_ret].
      apply steady_bind; [by apply steady_compileContainer|].
      intros. apply steady_ret.
    + apply steady_bind; [apply steady_check|]. intros _.
      destruct nodes as [ns|]; [|apply steady_ret].
      apply steady_bind; [by apply steady_compileContainer|].
      intros. apply steady_if; apply steady_ret.
  - apply steady_bind; [apply steady_compileSelector|]. intros sc.
    apply steady_bind; [by apply steady_compileContainer|]. intros p.
    destruct sc, (nonempty p); apply steady_ret.
  - apply steady_bind; [apply steady_check|]. intros _.
    destruct (markedValue value).
    + apply steady_bind; [apply steady_validate|]. intros. apply steady_ret.
    + apply steady_bind; [apply steady_check|]. intros. apply steady_ret.
  - apply steady_ret.
Qed.

Lemma once_initial : once {| globalEnv := ∅; calls := [] |}.
Proof.
  split; simpl; [constructor|]. intros k. rewrite lookup_empty.
  split; [by intros ?%elem_of_nil|by intros [? ?]].
Qed.

Lemma once_compile root :
  once (state_of (compile Function_ acorn replaceImport globals selectors
                    offsetAt root)).
Proof.
  unfold compile.
  eapply (steady_compileContainer compileChild); [|apply once_initial].
  apply Forall_forall. intros n _. apply steady_compileChild.
Qed.

End OnceFacts.

(** ** The blocks of a container *)

Section ScopeFacts.

Variable globals : GlobalScope -> gmap GlobalScope GlobalBinds -> GlobalBinds.
Variable rec : ChildNode -> CompileContext -> M Element.

Lemma childTurn_same_scope node l s l' s' :
  globalScope (lp_context l) = source_file (node_source node) ->
  childTurn globals rec node l s = Good l' s' ->
  lp_closed l' = lp_closed l
  /\ globalScope (lp_context l') = globalScope (lp_context l)
  /\ block_prologue (lp_block l') = block_prologue (lp_block l)
  /\ exists e, block_body (lp_block l') = block_body (lp_block l) ++ [e].
Proof.
  intros Hs. unfold childTurn, bind, enterScope.
  rewrite bool_decide_true by done. unfold ret at 1.
  destruct (rec node (lp_context l) s) as [e s1|e s1]; [|done].
  destruct (isAtJs node); intros [= <- <-]; simpl; eauto 10.
Qed.

Lemma childTurn_new_scope node l s l' s' :
  globalScope (lp_context l) <> source_file (node_source node) ->
  childTurn globals rec node l s = Good l' s' ->
  lp_closed l' = lp_closed l ++ [lp_block l]
  /\ globalScope (lp_context l') = source_file (node_source node)
  /\ exists binds e,
       loadGlobals globals (source_file (node_source node)) s
       = Good binds (state_of (loadGlobals globals
                                 (source_file (node_source node)) s))
       /\ lp_block l' = MkBlock (Some binds) [e].
Proof.
  intros Hs. unfold childTurn, enterScope.
  rewrite bool_decide_false by done.
  assert (exists binds s1,
            loadGlobals globals (source_file (node_source node)) s
            = Good binds s1) as (binds&s1&Hl).
  { unfold loadGlobals. destruct (globalEnv s !! _); eauto. }
  unfold bind, ret. rewrite Hl. cbn [lp_context state_of].
  match goal with |- context [rec node ?c s1] =>
    destruct (rec node c s1) as [e s2|e s2]; [|done] end.
  destruct (isAtJs node); intros [= <- <-]; simpl; eauto 10.
Qed.

End ScopeFacts.

(** ** The run of a program *)

Section ExecFacts.

Variable inspect : value -> Z -> jstring.
Variable call : fid -> option value -> ending.
Variable fromOffset : Input -> Z -> option (Z * Z).
Variable Env : Type.
Variable bindGlobals : Env -> GlobalBinds -> Env.
Variable runBlock : Iterate Env -> Env -> Fragment -> option Program
                    -> option (Env * list value * Completion).
Variable runValue : Iterate Env -> Env -> Fragment -> option (Env * ending).
Variable runProgram : Iterate Env.

Local Abbreviation execElement :=
  (execElement inspect Env runBlock runValue runProgram).
Local Abbreviation execElements :=
  (execElements inspect Env runBlock runValue runProgram).
Local Abbreviation execBlocks :=
  (execBlocks inspect Env bindGlobals runBlock runValue runProgram).
Local Abbreviation generator :=
  (generator inspect Env bindGlobals runBlock runValue runProgram).

Lemma handleError_spec what ext tag pos :
  handleError (Exn what ext tag) pos
  = Exn what ext
      (if isObject what && ext && bool_decide (tag = None)
       then Some pos else tag).
Proof.
  unfold handleError, setProp_tag.
  destruct (isObject what), tag, ext; done.
Qed.

Lemma generator_guarded raws inAtJs bs e0 ys m x :
  execBlocks inAtJs bs {| cur := 0; env := e0 |} = Some (ys, m, Raise x) ->
  generator raws true inAtJs bs e0
  = Some ({| rest := ys ++ [VEndJs false];
             fin := Fail (handleError x (cur m)) |}, env m).
Proof. intros H. unfold Exec.generator. by rewrite H. Qed.

Lemma execElements_app inAtJs pre post m :
  execElements inAtJs (pre ++ post) m
  = match execElements inAtJs pre m with
    | Some (ys, m1, Next) => andThen ys (execElements inAtJs post m1)
    | r => r
    end.
Proof.
  revert m. induction pre as [|e pre IH]; intros m; cbn [app Exec.execElements].
  - unfold andThen. destruct (execElements inAtJs post m) as [[[ys m1] f]|]; done.
  - destruct (execElement inAtJs e m) as [[[ys m1] []]|]; try done.
    rewrite IH. unfold andThen.
    destruct (execElements inAtJs pre m1) as [[[ys1 m2] []]|]; try done.
    destruct (execElements inAtJs post m2) as [[[ys2 m3] f]|]; [|done].
    by rewrite app_assoc.
Qed.



End ExecFacts.

Section BlockFacts.

Variable inspect : value -> Z -> jstring.
Variable Env : Type.
Variable bindGlobals : Env -> GlobalBinds -> Env.
Variable runBlock : Iterate Env -> Env -> Fragment -> option Program
                    -> option (Env * list value * Completion).
Variable runValue : Iterate Env -> Env -> Fragment -> option (Env * ending).
Variable runProgram : Iterate Env.

Local Abbreviation execElement :=
  (execElement inspect Env runBlock runValue runProgram).
Local Abbreviation execElements :=
  (execElements inspect Env runBlock runValue runProgram).
Local Abbreviation execBlocks :=
  (execBlocks inspect Env bindGlobals runBlock runValue runProgram).

Lemma execBlocks_app inAtJs b1 b2 m :
  execBlocks inAtJs (b1 ++ b2) m
  = match execBlocks inAtJs b1 m with
    | Some (ys, m1, Raise x) => Some (ys, m1, Raise x)
    | Some (ys, m1, _) => andThen ys (execBlocks inAtJs b2 m1)
    | None => None
    end.
Proof.
  revert m. induction b1 as [|[p body] b1 IH]; intros m;
    cbn [app Exec.execBlocks].
  - unfold andThen. by destruct (execBlocks inAtJs b2 m) as [[[ys m1] f]|].
  - destruct body as [|e body]; [apply IH|].
    destruct (execElements inAtJs (e :: body) _) as [[[ys m1] f]|]; [|done].
    destruct f; [| |done]; rewrite IH;
      destruct (execBlocks inAtJs b1 m1) as [[[ys1 m2] []]|]; try done;
      unfold andThen;
      destruct (execBlocks inAtJs b2 m2) as [[[ys2 m3] f2]|]; try done;
      by rewrite app_assoc.
Qed.


End BlockFacts.

(** The example of the README on [yield]: the block of the first at-rule
    is iterated three times and gives its declaration three times; the
    block of the second, which its function leaves alone, gives nothing. *)
Lemma looped_example :
  match Demo.compile Demo.looped with
  | Good p _ =>
      Demo.run 30 Demo.looped p
      = Some (Ok (Demo.rootOf
                    (replicate 3
                       (Decl (lit "margin") (lit "1em") noRaws
                          (Demo.at_ "1.css" 40)))))
  | Bad _ _ => False
  end.
Proof. vm_compute. reflexivity. Qed.

(** ** Locations and the source map *)

Section LocFacts.

Lemma chase_tagged tags base offset inc :
  (forall l o, base <> Tag l o) ->
  chase (tagged tags base) offset inc
  = (base, offset + offsetSum tags, if hasNull tags then 0 else inc).
Proof.
  intros Hb. revert offset inc.
  induction tags as [|o tags IH]; intros offset inc.
  - destruct base as [| |s|l o]; [..|exfalso; by eapply Hb];
      simpl; f_equal; f_equal; lia.
  - cbn [tagged chase]. destruct o; rewrite IH;
      unfold offsetSum, hasNull; cbn [foldr existsb orb].
    + f_equal; f_equal; lia.
    + f_equal. by destruct (existsb _ tags).
    + f_equal; f_equal; lia.
Qed.

Lemma computeLoc_source tags s from :
  computeLoc (tagged tags (LSource s)) from
  = {| cl_source := Some s; cl_offset := offsetSum tags;
       cl_inc := if hasNull tags then 0 else 1 |}.
Proof.
  unfold computeLoc. rewrite chase_tagged by done. simpl. done.
Qed.


Lemma sm_begin_source code tags s c st :
  code_source code = tagged tags (LSource s) ->
  loc (sm_begin code c st)
  = {| cl_source := Some s; cl_offset := offsetSum tags;
       cl_inc := if hasNull tags then 0 else 1 |}.
Proof.
  intros H. unfold sm_begin, loc_of_code. cbn [loc]. rewrite H.
  change (Tag (tagged tags (LSource s)) Absent)
    with (tagged (Absent :: tags) (LSource s)).
  rewrite computeLoc_source. done.
Qed.


Lemma sm_translate_moving item c st s :
  cl_source (loc c) = Some s -> cl_inc (loc c) = 1 ->
  sm_translate item c st
  = {| cursor := cursor st + len item;
       position := position st + len item;
       entries :=
         entries st
         ++ List.map (fun i => Some (s, cl_offset (loc c)
                                        + (cursor st - start_ c) + Z.of_nat i))
              (seq 0 (length item)) |}.
Proof.
  intros Hs Hi. unfold sm_translate. rewrite Hs, Hi. f_equal; [lia|].
  f_equal. apply map_ext. intros i. do 2 f_equal. lia.
Qed.

End LocFacts.

Section MapFacts.

Lemma toString_join content source :
  toString (MkCode content source) = joinItems content.
Proof.
  cbn [toString]. induction content as [|[[s|c]|] l IH]; cbn [joinItems];
    [done|by rewrite IH..|done].
Qed.

Lemma walk_items {C St} (begin : Code -> C -> St -> C)
    (leaf : jstring -> C -> St -> St) context content source st :
  walk begin leaf context (MkCode content source) st
  = walkItems begin leaf context content st.
Proof.
  cbn [walk]. revert st.
  induction content as [|[[s|c]|] l IH]; intros st; cbn [walkItems];
    [done|by rewrite IH..].
Qed.




End MapFacts.

Section MovingFacts.

Lemma map_seq_from {A} (f : nat -> A) a b :
  List.map f (seq a b) = List.map (fun i => f (a + i)%nat) (seq 0 b).
Proof.
  replace (seq a b) with (seq (a + 0) b) by (f_equal; lia).
  rewrite <- (fmap_add_seq a 0 b).
  change (Nat.add a <$> seq 0 b) with (List.map (Nat.add a) (seq 0 b)).
  by rewrite map_map.
Qed.

Lemma walkItems_flat s k ctx l : forall st,
  loc ctx = {| cl_source := Some s; cl_offset := k; cl_inc := 1 |} ->
  forallb (fun i => match i with Some (Sub _) => false | _ => true end) l
  = true ->
  walkItems sm_begin sm_translate ctx l st
  = {| cursor := cursor st + len (joinItems l);
       position := position st + len (joinItems l);
       entries :=
         entries st
         ++ List.map (fun i => Some (s, k + (cursor st - start_ ctx)
                                        + Z.of_nat i))
              (seq 0 (length (joinItems l))) |}.
Proof.
  intros st Hloc. revert st.
  induction l as [|[[t|c]|] l IH]; intros st Hflat.
  - cbn [walkItems joinItems length seq List.map]. unfold len. simpl.
    destruct st; simpl. f_equal; [lia|lia|by rewrite app_nil_r].
  - cbn [walkItems joinItems].
    rewrite (sm_translate_moving t ctx st s) by (by rewrite Hloc).
    rewrite IH by exact Hflat. cbn [cursor position entries].
    rewrite Hloc. cbn [cl_offset]. unfold len.
    rewrite !length_app, Nat2Z.inj_add, seq_app, map_app.
    f_equal; [lia|lia|]. rewrite <- app_assoc. f_equal. f_equal.
    rewrite (map_seq_from _ (0 + length t)). apply map_ext.
    intros i. do 2 f_equal. lia.
  - done.
  - cbn [walkItems joinItems]. by apply IH.
Qed.

Lemma force_moving c tags s :
  code_source c = tagged tags (LSource s) ->
  hasNull tags = false ->
  flat c = true ->
  entries (force c)
  = List.map (fun i => Some (s, offsetSum tags + Z.of_nat i))
      (seq 0 (length (toString c))).
Proof.
  intros Hsrc Hnull Hflat. unfold force, translate.
  destruct c as [content source]. rewrite walk_items, toString_join.
  rewrite (walkItems_flat s (offsetSum tags)); [| |exact Hflat].
  - cbn. apply map_ext. intros i. do 2 f_equal. lia.
  - rewrite (sm_begin_source _ tags s) by done. by rewrite Hnull.
Qed.

End MovingFacts.

(** ** More on the mask, entries, the validator and the loop *)

Section MoreFacts.

Variable inspect : value -> Z -> jstring.
Variable fromOffset : Input -> Z -> option (Z * Z).

Lemma zip_unmasked (s : jstring) :
  zip_with (fun (c : N) (b : bool) => if b then c_star else c) s
    (replicate (length s) false) = s.
Proof. induction s as [|c s IH]; simpl; [done|by rewrite IH]. Qed.

Lemma zip_masked (s : jstring) :
  zip_with (fun (c : N) (b : bool) => if b then c_star else c) s
    (replicate (length s) true) = replicate (length s) c_star.
Proof. induction s as [|c s IH]; simpl; [done|by rewrite IH]. Qed.

Lemma masked_literal pre q body post :
  is_quote q = true ->
  noQuote pre = true ->
  ends_escaped pre = false ->
  litBody q body = true ->
  masked (pre ++ q :: body ++ q :: post)
  = pre ++ replicate (length body + 2) c_star ++ masked post.
Proof.
  intros Hq Hpre Hesc Hb. unfold masked. rewrite flags_literal by done.
  rewrite zip_with_app by (by rewrite length_replicate).
  rewrite zip_unmasked. f_equal.
  replace (q :: body ++ q :: post) with ((q :: body ++ [q]) ++ post)
    by (simpl; by rewrite <- app_assoc).
  replace (length body + 2)%nat with (length (q :: body ++ [q]))
    by (simpl; rewrite length_app; simpl; lia).
  rewrite zip_with_app by (by rewrite length_replicate).
  by rewrite zip_masked.
Qed.



End MoreFacts.

Section ValidatorFacts.

Variable Function_ : jstring -> option ParseError.
Variable acorn : option (jstring -> option ParseError).
Variable replaceImport : Code -> option Code.

Local Abbreviation userCode := (userCode Function_ acorn replaceImport).
Local Abbreviation imported := (imported replaceImport).

Lemma userCode_expression source offset src stub :
  Function_ (exprPrefix ++ src ++ exprSuffix stub) = None ->
  userCode source offset src stub
  = imported (fragmentCode source offset src) true.
Proof. intros H. unfold Syntax.userCode, attempt. by rewrite H. Qed.

Lemma userCode_statements source offset src stub e1 :
  Function_ (exprPrefix ++ src ++ exprSuffix stub) = Some e1 ->
  Function_ (stmtPrefix ++ src ++ stmtSuffix stub) = None ->
  userCode source offset src stub
  = imported (fragmentCode source offset src) false.
Proof.
  intros H1 H2. unfold Syntax.userCode, attempt. by rewrite H1, H2.
Qed.

Lemma userCode_rejected source offset src stub e1 e2 :
  Function_ (exprPrefix ++ src ++ exprSuffix stub) = Some e1 ->
  Function_ (stmtPrefix ++ src ++ stmtSuffix stub) = Some e2 ->
  userCode source offset src stub
  = Rejected
      (match acorn with
       | Some parse =>
           match parse (stmtPrefix ++ src ++ stmtSuffix stub) with
           | Some error =>
               cssSyntaxError (text error) source
                 (match pos error with
                  | Some p => offset + (p - len stmtPrefix)
                  | None => offset
                  end)
           | None => cssSyntaxError (text e2) source offset
           end
       | None => cssSyntaxError (text e2) source offset
       end).
Proof.
  intros H1 H2. unfold Syntax.userCode, attempt, findSyntaxError.
  rewrite H1, H2. cbn [negb].
  destruct acorn as [parse|]; cbn.
  - destruct (parse _) as [[t [p|]]|]; cbn; do 2 f_equal; lia.
  - do 2 f_equal; lia.
Qed.

End ValidatorFacts.

Section IndexFacts.

(** What [indexOf] finds in the masked text is the first free occurrence. *)
Lemma masked_index_first_free src i :
  indexOf atjs (masked src) = Z.of_nat i -> first_free src i.
Proof.
  intros H. destruct (indexOf_found atjs (masked src) i H) as [H1 H2].
  split; [by apply masked_occurs|].
  intros j Hj Hf. apply (H2 j Hj). by apply masked_occurs.
Qed.

Lemma masked_no_index src :
  indexOf atjs (masked src) = -1 -> forall i, ~ free_at src i.
Proof.
  intros H i Hi. eapply indexOf_none; [exact H|]. by apply masked_occurs.
Qed.

End IndexFacts.

(** ** The order of [Object.entries] *)

Section EntriesFacts.










End EntriesFacts.

(** ** The arrival of the end of a region *)

Section ArrivalFacts.

Variable inspect : value -> Z -> jstring.
Variable call : fid -> option value -> ending.
Variable fromOffset : Input -> Z -> option (Z * Z).

Local Abbreviation turn := (turn inspect call fromOffset).
Local Abbreviation loop := (loop inspect call fromOffset).
Local Abbreviation classify := (classify inspect fromOffset).

(** A turn that fetches an item with no function pending classifies the
    item. *)
Lemma turn_fetch_direct s v it st c :
  func s = None -> next s = None ->
  fetch (iter s) (stack s) (context s) = Item v it st c ->
  turn s = classify v {| func := None; next := None; context := c;
                         stack := st; iter := it |}.
Proof.
  intros Hf Hn Hi. unfold Runtime.turn. rewrite Hn, Hi.
  unfold dispatch. cbn [func]. by rewrite Hf.
Qed.

(** A turn that fetches the successful end of a region with a function
    pending calls the function with no argument. *)
Lemma turn_fetch_end s f it st c :
  func s = Some f -> next s = None ->
  fetch (iter s) (stack s) (context s) = Item (VEndJs true) it st c ->
  turn s = match call f None with
           | Done v =>
               classify v {| func := None; next := Some (VEndJs true);
                             context := c; stack := st; iter := it |}
           | Fail e => Throws e
           end.
Proof.
  intros Hf Hn Hi. unfold Runtime.turn. rewrite Hn, Hi.
  unfold dispatch. cbn [func]. by rewrite Hf.
Qed.

(** A turn that fetches a value other than the end of a region with a
    function pending calls the function with that value. *)
Lemma turn_fetch_apply s f v it st c :
  func s = Some f -> next s = None ->
  fetch (iter s) (stack s) (context s) = Item v it st c ->
  (forall b, v <> VEndJs b) ->
  turn s = match call f (Some v) with
           | Done w =>
               classify w {| func := None; next := None; context := c;
                             stack := st; iter := it |}
           | Fail e => Throws e
           end.
Proof.
  intros Hf Hn Hi Hv. unfold Runtime.turn. rewrite Hn, Hi.
  unfold dispatch. cbn [func]. rewrite Hf.
  destruct v; try done. by destruct (Hv success).
Qed.

(** A turn that fetches the failed end of a region with a function
    pending drops the function, whatever a call would do. *)
Lemma turn_fetch_cancel s f it st c :
  func s = Some f -> next s = None ->
  fetch (iter s) (stack s) (context s) = Item (VEndJs false) it st c ->
  turn s = Yields [] {| func := None; next := Some (VEndJs false);
                        context := c; stack := st; iter := it |}.
Proof.
  intros Hf Hn Hi. unfold Runtime.turn. rewrite Hn, Hi.
  unfold dispatch. cbn [func]. by rewrite Hf.
Qed.

(** From the arrival of the end of the region to the classification of
    the last answer of the chain. *)
Lemma arrival_resolves fs f v s it st c fuel out :
  func s = Some f -> next s = None ->
  fetch (iter s) (stack s) (context s) = Item (VEndJs true) it st c ->
  chain call f fs v ->
  loop (length fs + 1 + fuel) s out
  = continue inspect call fromOffset fuel out
      (classify v {| func := None; next := Some (VEndJs true);
                     context := c; stack := st; iter := it |}).
Proof.
  intros Hf Hn Hi Hc. destruct fs as [|g fs].
  - simpl in Hc. cbn [length Nat.add]. rewrite loop_S.
    by rewrite (turn_fetch_end s f it st c Hf Hn Hi), Hc.
  - destruct Hc as [Hc1 Hc2].
    replace (length (g :: fs) + 1 + fuel)%nat
      with (S (length fs + 1 + fuel)) by (simpl; lia).
    rewrite loop_S, (turn_fetch_end s f it st c Hf Hn Hi), Hc1.
    cbn [Runtime.classify continue func next context stack iter].
    rewrite app_nil_r.
    by rewrite (chain_resolves inspect call fromOffset fs g v
                  {| func := Some g; next := Some (VEndJs true);
                     context := c; stack := st; iter := it |} fuel out
                  eq_refl eq_refl Hc2).
Qed.

(** From the yield of a function that the end of its region follows. *)
Lemma yielded_resolves fs f v s it0 st0 c0 it st c fuel out :
  func s = None -> next s = None ->
  fetch (iter s) (stack s) (context s) = Item (VFunction f) it0 st0 c0 ->
  fetch it0 st0 c0 = Item (VEndJs true) it st c ->
  chain call f fs v ->
  loop (length fs + 2 + fuel) s out
  = continue inspect call fromOffset fuel out
      (classify v {| func := None; next := Some (VEndJs true);
                     context := c; stack := st; iter := it |}).
Proof.
  intros Hf Hn H0 H1 Hc.
  replace (length fs + 2 + fuel)%nat with (S (length fs + 1 + fuel)) by lia.
  rewrite loop_S, (turn_fetch_direct s _ it0 st0 c0 Hf Hn H0).
  cbn [Runtime.classify continue func next context stack iter].
  rewrite app_nil_r.
  by apply (arrival_resolves fs f).
Qed.

End ArrivalFacts.

(** ** The guard of a container *)

Section GuardFacts.

Variable globals : GlobalScope -> gmap GlobalScope GlobalBinds
                   -> GlobalBinds.
Variable compileChild : ChildNode -> CompileContext -> M Element.

(** The program of a container is guarded exactly when a body of its
    blocks holds code. *)
Lemma compileContainer_guard nodes raws ctx s r g a bs s' :
  compileContainer globals compileChild nodes raws ctx s
  = Good (PMain r g a bs) s' ->
  compileContainerChildren globals compileChild nodes ctx s = Good bs s'
  /\ r = raws /\ a = inAtJs ctx
  /\ g = existsb (fun b => existsb is_code (block_body b)) bs.
Proof.
  unfold compileContainer, bind.
  destruct (compileContainerChildren globals compileChild nodes ctx s)
    as [blocks s1|e s1]; [|done].
  destruct (negb _ && negb _); unfold ret; [done|].
  by intros [= <- <- <- <- <-].
Qed.

End GuardFacts.

Section UnguardedFacts.

Variable inspect : value -> Z -> jstring.
Variable Env : Type.
Variable bindGlobals : Env -> GlobalBinds -> Env.
Variable runBlock : Iterate Env -> Env -> Fragment -> option Program
                    -> option (Env * list value * Completion).
Variable runValue : Iterate Env -> Env -> Fragment -> option (Env * ending).
Variable runProgram : Iterate Env.

Lemma generator_unguarded raws inAtJs bs e0 ys m x :
  execBlocks inspect Env bindGlobals runBlock runValue runProgram inAtJs bs
    {| cur := 0; env := e0 |} = Some (ys, m, Raise x) ->
  generator inspect Env bindGlobals runBlock runValue runProgram raws false
    inAtJs bs e0
  = Some ({| rest := ys; fin := Fail x |}, env m).
Proof. intros H. unfold Exec.generator. by rewrite H. Qed.

End UnguardedFacts.

(** * The claims *)




(** C2.  A function that the loop fetches is held; when the next item that
    arrives is the successful end of the region, the loop calls the
    function with no argument; while the answer is a function, that
    function is held and called in turn; the last answer [v] is classified
    by the same [classify] that a value fetched with no function pending
    goes through, the end of the region still being held.  The same holds
    from any state in which a function is pending, however it came to be. *)
Theorem C2_pending_continuation
    (inspect : value -> Z -> jstring)
    (call : fid -> option value -> ending)
    (fromOffset : Input -> Z -> option (Z * Z))
    (f : fid) (fs : list fid) (v : value) (s : State)
    (it0 : Iter) (st0 : list Iter) (c0 : Context)
    (it : Iter) (st : list Iter) (c : Context)
    (fuel : nat) (out : list ChildNode)
    (Hf : func s = None) (Hn : next s = None)
    (H0 : fetch (iter s) (stack s) (context s) = Item (VFunction f) it0 st0 c0)
    (H1 : fetch it0 st0 c0 = Item (VEndJs true) it st c)
    (Hc : chain call f fs v) :
  loop inspect call fromOffset (length fs + 2 + fuel) s out
  = continue inspect call fromOffset fuel out
      (classify inspect fromOffset v
         {| func := None; next := Some (VEndJs true); context := c;
            stack := st; iter := it |})
  /\ (forall s' g gs w it' st' c' fuel' out',
        func s' = Some g -> next s' = None ->
        fetch (iter s') (stack s') (context s')
        = Item (VEndJs true) it' st' c' ->
        chain call g gs w ->
        loop inspect call fromOffset (length gs + 1 + fuel') s' out'
        = continue inspect call fromOffset fuel' out'
            (classify inspect fromOffset w
               {| func := None; next := Some (VEndJs true); context := c';
                  stack := st'; iter := it' |}))
  /\ (forall s' w it' st' c',
        func s' = None -> next s' = None ->
        fetch (iter s') (stack s') (context s') = Item w it' st' c' ->
        turn inspect call fromOffset s'
        = classify inspect fromOffset w
            {| func := None; next := None; context := c'; stack := st';
               iter := it' |})
  /\ (forall s' g,
        classify inspect fromOffset (VFunction g) s'
        = Yields [] (with_func_next s' (Some g) (next s'))).
Proof.
  split; [by eapply yielded_resolves|]. split.
  - intros s' g gs w it' st' c' fuel' out' Hg Hn' Hi Hw.
    by apply (arrival_resolves inspect call fromOffset gs g).
  - split; [|done]. intros s' w it' st' c' Hf' Hn' Hi.
    by apply turn_fetch_direct.
Qed.

Lemma C2_witness :
  mainLoop Demo.inspect Demo.call Demo.fromOffset 5
    (iterator [VFunction 1%N; VEndJs true] (Done VUndefined))
  = Some (Ok ([Decl (lit "color") (lit "red") noRaws None],
              {| semi := None |})).
Proof.
  exact (proj1 (C2_pending_continuation Demo.inspect Demo.call
                  Demo.fromOffset 1%N [2%N]
                  (VPlain [(lit "color", VString (lit "red"))])
                  (initial (iterator [VFunction 1%N; VEndJs true]
                              (Done VUndefined)))
                  (iterator [VEndJs true] (Done VUndefined)) [] newContext
                  (iterator [] (Done VUndefined)) [] newContext
                  2%nat [] eq_refl eq_refl eq_refl eq_refl
                  (conj eq_refl eq_refl))).
Defined.

(** C3 (amended).  The program that [compileContainer] makes of a
    container with guest code (a body of its blocks holds code) is
    guarded: when its body throws, its generator yields [EndJs(false)] and
    then throws what [handleError] makes of the error and the cursor, the
    same value, tagged with the cursor when it is an object that takes the
    property and has no tag yet, and as it is otherwise.  In the main
    loop, [EndJs(false)] that arrives with a function pending drops the
    function: the turn is the same whatever a call would do, yields
    nothing, and the next turn passes the marker. *)
Theorem C3_guard_and_cancel
    (Function_ : jstring -> option ParseError)
    (acorn : option (jstring -> option ParseError))
    (replaceImport : Code -> option Code)
    (globals : GlobalScope -> gmap GlobalScope GlobalBinds -> GlobalBinds)
    (selectors : jstring -> list jstring)
    (offsetAt : option Source -> Z -> Z)
    (inspect : value -> Z -> jstring)
    (call : fid -> option value -> ending)
    (fromOffset : Input -> Z -> option (Z * Z))
    (Env : Type) (bindGlobals : Env -> GlobalBinds -> Env)
    (runBlock : Iterate Env -> Env -> Fragment -> option Program
                -> option (Env * list value * Completion))
    (runValue : Iterate Env -> Env -> Fragment -> option (Env * ending))
    (runProgram : Iterate Env)
    (nodes : list ChildNode) (raws : Raws) (ctx : CompileContext)
    (s s' : CState) (r : Raws) (g a : bool) (bs : list Block) (e0 : Env)
    (ys : list value) (m : Machine Env) (x : exn)
    (Hp : compileContainer globals
            (compileChild Function_ acorn replaceImport globals selectors
               offsetAt) nodes raws ctx s
          = Good (PMain r g a bs) s')
    (Hg : existsb (fun b => existsb is_code (block_body b)) bs = true)
    (H : execBlocks inspect Env bindGlobals runBlock runValue runProgram a bs
           {| cur := 0; env := e0 |} = Some (ys, m, Raise x)) :
  (g = true
   /\ generator inspect Env bindGlobals runBlock runValue runProgram r g a bs
        e0
      = Some ({| rest := ys ++ [VEndJs false];
                 fin := Fail (handleError x (cur m)) |}, env m))
  /\ (forall what ext tag pos,
        handleError (Exn what ext tag) pos
        = Exn what ext
            (if isObject what && ext && bool_decide (tag = None)
             then Some pos else tag))
  /\ (forall st f it stk c call',
        func st = Some f -> next st = None ->
        fetch (iter st) (stack st) (context st)
        = Item (VEndJs false) it stk c ->
        turn inspect call fromOffset st
        = Yields [] {| func := None; next := Some (VEndJs false);
                       context := c; stack := stk; iter := it |}
        /\ turn inspect call' fromOffset st = turn inspect call fromOffset st
        /\ turn inspect call fromOffset
             {| func := None; next := Some (VEndJs false); context := c;
                stack := stk; iter := it |}
           = Yields [] {| func := None; next := None; context := c;
                          stack := stk; iter := it |}).
Proof.
  destruct (compileContainer_guard _ _ _ _ _ _ _ _ _ _ _ Hp)
    as (_ & _ & _ & Eg).
  rewrite Hg in Eg. subst g. split.
  - split; [done|]. by apply generator_guarded.
  - split; [intros; apply handleError_spec|].
    intros st f it stk c call' Hf Hn Hi.
    rewrite (turn_fetch_cancel inspect call fromOffset st f it stk c Hf Hn Hi),
            (turn_fetch_cancel inspect call' fromOffset st f it stk c Hf Hn Hi).
    done.
Qed.

Lemma C3_witness :
  Demo.generator noRaws true false Demo.throwBlocks tt
  = Some ({| rest := Demo.throwYields ++ [VEndJs false];
             fin := Fail Demo.testfail |}, tt).
Proof.
  refine (proj2 (proj1 (C3_guard_and_cancel Demo.Function_ None Some
                          Demo.globals Demo.selectors Demo.offsetAt
                          Demo.inspect Demo.call Demo.fromOffset ()
                          (fun e _ => e) Demo.runBlock Demo.runValue
                          (Demo.runProgram 10)
                          [Demo.js 5 "throw 'testfail'"] noRaws Demo.context1
                          Demo.state0 Demo.state0 noRaws true false
                          Demo.throwBlocks tt Demo.throwYields
                          Demo.throwMachine Demo.testfail _ _ _))).
  - vm_compute. reflexivity.
  - vm_compute. reflexivity.
  - vm_compute. reflexivity.
Defined.

(** C3, as it was stated, fails for [h1 { @js throw 'testfail'; }]: the
    string that the guest code throws comes out of the run with no tag. *)
Lemma C3_counterexample :
  exists p s,
    Demo.compile Demo.thrower = Good p s
    /\ Demo.run 10 Demo.thrower p = Some (Err Demo.testfail)
    /\ getErrorPos Demo.testfail = None.
Proof.
  eexists _, _. split; [vm_compute; reflexivity|].
  split; vm_compute; reflexivity.
Qed.

(** C4 (amended).  [userCode] tries the fragment as a parenthesized
    expression followed by the stub, and only when [Function] refuses that,
    as statements followed by the stub; the attempt that compiles gives the
    [expr] flag.  When both are refused the error is a CSS syntax error at
    the offset of the fragment plus the position that acorn reports for the
    statement text, less the length of the prefix, when acorn is there and
    its error has a position; at the offset of the fragment otherwise (no
    acorn, acorn accepts the text, or its error has no position).  The
    position is in the document when the node has a start offset. *)
Theorem C4_userCode
    (Function_ : jstring -> option ParseError)
    (acorn : option (jstring -> option ParseError))
    (replaceImport : Code -> option Code)
    (source : option Source) (offset : Z) (src stub : jstring) :
  let exprTest := exprPrefix ++ src ++ exprSuffix stub in
  let stmtTest := stmtPrefix ++ src ++ stmtSuffix stub in
  let validated := userCode Function_ acorn replaceImport source offset src
                     stub in
  (Function_ exprTest = None ->
   validated = imported replaceImport (fragmentCode source offset src) true)
  /\ (forall e1, Function_ exprTest = Some e1 -> Function_ stmtTest = None ->
      validated
      = imported replaceImport (fragmentCode source offset src) false)
  /\ (forall e1 e2,
        Function_ exprTest = Some e1 -> Function_ stmtTest = Some e2 ->
        validated
        = Rejected
            (match acorn with
             | Some parse =>
                 match parse stmtTest with
                 | Some error =>
                     cssSyntaxError (text error) source
                       (match pos error with
                        | Some p => offset + (p - len stmtPrefix)
                        | None => offset
                        end)
                 | None => cssSyntaxError (text e2) source offset
                 end
             | None => cssSyntaxError (text e2) source offset
             end))
  /\ (forall message s p,
        source_start_offset source = Some s ->
        at_offset (cssSyntaxError message source p) = Some (s + p))
  /\ (forall c e,
        expr <$> (match imported replaceImport c e with
                  | Accepted u => Some u
                  | _ => None
                  end) = (fun _ => e) <$> replaceImport c).
Proof.
  cbv zeta. split; [apply userCode_expression|].
  split; [apply userCode_statements|]. split; [apply userCode_rejected|].
  split.
  - intros message s p Hs. unfold cssSyntaxError. by rewrite Hs.
  - intros c e. unfold imported. by destruct (replaceImport c).
Qed.

Lemma C4_witness :
  userCode Demo.refuse (Some (Demo.acornAt 25)) Some (Demo.at_ "1.css" 10) 5
    (lit "test'fail") []
  = Rejected {| reason := lit "SyntaxError: Unterminated string constant";
                at_offset := Some 19 |}.
Proof.
  exact (proj1 (proj2 (proj2 (C4_userCode Demo.refuse
                                (Some (Demo.acornAt 25)) Some
                                (Demo.at_ "1.css" 10) 5 (lit "test'fail") [])))
           _ _ eq_refl eq_refl).
Defined.

(** C4, as it was stated, fails when acorn is there and its error has no
    position: the error is at the start of the fragment (here 10 + 5). *)
Lemma C4_counterexample :
  userCode Demo.refuse (Some Demo.acornMock) Some (Demo.at_ "1.css" 10) 5
    (lit "test'fail") []
  = Rejected {| reason := lit "Error: acorn.parse is hooked by mock";
                at_offset := Some 15 |}.
Proof. vm_compute. reflexivity. Qed.

(** C5.  In one compilation the globals provider is called once for each
    scope that gets into the [GlobalEnv] map, and for no other scope:
    [loadGlobals] calls it, with the scope and the map, only when the map
    has nothing for the scope, and stores the answer; when the map has the
    bindings of the scope it answers them without a call; and the
    compilation of a child, whatever it contains, keeps what the map holds,
    so that a scope met again later, after children of other scopes, finds
    its bindings. *)
Theorem C5_globals_once
    (Function_ : jstring -> option ParseError)
    (acorn : option (jstring -> option ParseError))
    (replaceImport : Code -> option Code)
    (globals : GlobalScope -> gmap GlobalScope GlobalBinds -> GlobalBinds)
    (selectors : jstring -> list jstring)
    (offsetAt : option Source -> Z -> Z) (root : Root) :
  once (state_of (compile Function_ acorn replaceImport globals selectors
                    offsetAt root))
  /\ (forall scope s,
        loadGlobals globals scope s
        = match globalEnv s !! scope with
          | Some binds => Good binds s
          | None =>
              Good (globals scope (globalEnv s))
                {| globalEnv :=
                     <[scope := globals scope (globalEnv s)]> (globalEnv s);
                   calls := calls s ++ [scope] |}
          end)
  /\ (forall node context s,
        extends s
          (state_of (compileChild Function_ acorn replaceImport globals
                       selectors offsetAt node context s))).
Proof.
  split; [apply once_compile|]. split.
  - intros scope s. unfold loadGlobals. by destruct (globalEnv s !! scope).
  - intros node context s. apply steady_compileChild.
Qed.

Lemma C5_witness :
  once (state_of (Demo.compile Demo.twoFiles))
  /\ calls (state_of (Demo.compile Demo.twoFiles))
     = [Some (lit "a.css"); Some (lit "b.css")].
Proof.
  split.
  - exact (proj1 (C5_globals_once Demo.Function_ None Some Demo.globals
                    Demo.selectors Demo.offsetAt Demo.twoFiles)).
  - vm_compute. reflexivity.
Defined.



(** C7 (amended).  In the main loop a yielded [undefined] is passed over: no
    node, no error; a yielded [null] makes the loop throw the error of
    [Unexpected], whose message ends with the dump of the value to depth 3.
    Where a value is stringified, for a declaration value or a selector,
    [null] is rejected with that error, and so is [undefined]. *)
Theorem C7_undefined_and_null
    (call : fid -> option value -> ending)
    (fromOffset : Input -> Z -> option (Z * Z))
    (inspect : value -> Z -> jstring)
    (c : Context) (st : list Iter) (r : list value) (e : ending) :
  turn inspect call fromOffset
    {| func := None; next := None; context := c; stack := st;
       iter := {| rest := VUndefined :: r; fin := e |} |}
  = Yields []
      {| func := None; next := None; context := c; stack := st;
         iter := {| rest := r; fin := e |} |}
  /\ turn inspect call fromOffset
       {| func := None; next := None; context := c; stack := st;
          iter := {| rest := VNull :: r; fin := e |} |}
     = Throws (Unexpected_create VNull (bj_pos <$> ctx_source c))
  /\ (forall s, classify inspect fromOffset VUndefined s = Yields [] s
                /\ classify inspect fromOffset VNull s
                   = Throws (Context_unexpected (context s) VNull))
  /\ unexpected_message inspect VNull
     = lit "attempt to inject an invalid value: " ++ inspect VNull 3
  /\ stringify inspect VNull = Err (Unexpected_create VNull None)
  /\ stringify inspect VUndefined = Err (Unexpected_create VUndefined None).
Proof.
  split; [by destruct st|]. split; [by destruct st|].
  split; [by intros s|]. done.
Qed.

Lemma C7_witness :
  turn Demo.inspect Demo.call Demo.fromOffset
    (initial {| rest := [VUndefined; VNull]; fin := Done VUndefined |})
  = Yields [] (initial {| rest := [VNull]; fin := Done VUndefined |})
  /\ turn Demo.inspect Demo.call Demo.fromOffset
       (initial {| rest := [VNull]; fin := Done VUndefined |})
     = Throws (Unexpected_create VNull None).
Proof.
  split.
  - exact (proj1 (C7_undefined_and_null Demo.call Demo.fromOffset
                    Demo.inspect newContext [] [VNull] (Done VUndefined))).
  - exact (proj1 (proj2 (C7_undefined_and_null Demo.call Demo.fromOffset
                           Demo.inspect newContext [] [] (Done VUndefined)))).
Defined.

(** C7, as it was stated, fails where a value is stringified: [undefined]
    is not passed over there, it is rejected as [null] is. *)
Lemma C7_counterexample :
  stringify Demo.inspect VUndefined = Err (Unexpected_create VUndefined None)
  /\ classify Demo.inspect Demo.fromOffset VUndefined (Demo.pending true)
     = Yields [] (Demo.pending true).
Proof. split; reflexivity. Qed.

(** C8 (amended).  The marker outside the string literals that the mask
    covers is an error 'invalid use of @js', at the offset of its first
    such occurrence in the text: in the property name of a declaration; in
    the params of an at-rule other than [@js]; in a declaration value that
    does not begin with the marker; and in a component of a selector (one
    that contains the marker) that is not of the form [:@js(...)], once the
    components before it have passed. *)
Theorem C8_invalid_use
    (Function_ : jstring -> option ParseError)
    (acorn : option (jstring -> option ParseError))
    (replaceImport : Code -> option Code)
    (globals : GlobalScope -> gmap GlobalScope GlobalBinds -> GlobalBinds)
    (selectors : jstring -> list jstring)
    (offsetAt : option Source -> Z -> Z)
    (context : CompileContext) (s : CState) :
  (forall prop value raws source i,
     first_free prop i ->
     compileChild Function_ acorn replaceImport globals selectors offsetAt
       (Decl prop value raws source) context s
     = Bad (invalidUse source (0 + Z.of_nat i)) s)
  /\ (forall name params nodes raws source i,
        JStr.eqb name (lit "js") = false ->
        first_free params i ->
        compileChild Function_ acorn replaceImport globals selectors offsetAt
          (AtRule name params nodes raws source) context s
        = Bad (invalidUse source
                 (paramsOffset name params raws + Z.of_nat i)) s)
  /\ (forall prop value raws source i,
        (forall j, ~ free_at prop j) ->
        markedValue value = None ->
        first_free value i ->
        compileChild Function_ acorn replaceImport globals selectors offsetAt
          (Decl prop value raws source) context s
        = Bad (invalidUse source (valueOffset prop raws + Z.of_nat i)) s)
  /\ (forall selector nodes raws source pre sel post st1 s1 i,
        includes atjs selector = true ->
        selectors selector = pre ++ sel :: post ->
        selectorLoop Function_ acorn replaceImport offsetAt selector source
          pre {| cut := 0; scursor := 0; pieces := [] |} s = Good st1 s1 ->
        isAtJsSelector sel = false ->
        first_free sel i ->
        compileChild Function_ acorn replaceImport globals selectors offsetAt
          (Rule selector nodes raws source) context s
        = Bad (invalidUse source
                 (indexOfFrom sel selector (scursor st1) + Z.of_nat i)) s1)
  /\ (forall source p,
        invalidUse source p
        = Syntax {| reason := lit "invalid use of @js";
                    at_offset := (fun o => o + p)
                                 <$> source_start_offset source |}).
Proof.
  split; [intros; by apply decl_prop_invalid|].
  split; [intros; by apply atrule_params_invalid|].
  split; [intros; by apply decl_value_invalid|].
  split; [intros; by eapply selector_invalid|].
  intros source p. unfold invalidUse, cssSyntaxError.
  by destruct (source_start_offset source).
Qed.

Lemma C8_witness :
  Demo.compileChild
    (Decl (lit "color") (lit "red @js(1)") noRaws (Demo.at_ "1.css" 5))
    Demo.context1 Demo.state0
  = Bad (Syntax {| reason := lit "invalid use of @js";
                   at_offset := Some 16 |}) Demo.state0.
Proof.
  refine (proj1 (proj2 (proj2 (C8_invalid_use Demo.Function_ None Some
                                 Demo.globals Demo.selectors Demo.offsetAt
                                 Demo.context1 Demo.state0)))
            (lit "color") (lit "red @js(1)") noRaws (Demo.at_ "1.css" 5)
            4%nat _ _ _).
  - apply masked_no_index. vm_compute. reflexivity.
  - reflexivity.
  - apply masked_index_first_free. vm_compute. reflexivity.
Defined.

(** C8, as it was stated, fails for [content: '@js']: the value contains
    the marker and does not begin with it, and the declaration compiles. *)
Lemma C8_counterexample :
  includes atjs (lit "'@js'") = true
  /\ markedValue (lit "'@js'") = None
  /\ Demo.compileChild Demo.quoted Demo.context1 Demo.state0
     = Good (ENode Demo.quoted) Demo.state0.
Proof. repeat split; vm_compute; reflexivity. Qed.



(** C10.  [checkInvalidAtJs] looks for the marker in the text with its
    string literals masked: it throws for the first occurrence of the
    marker that no literal covers, at the offset of that occurrence, and
    does not throw when there is none.  A complete literal in single or
    double quotes (after a text without quotes that does not end in a
    backslash) is replaced whole by asterisks, so no occurrence of the
    marker that touches it is ever found. *)
Theorem C10_masked_literals :
  (forall src source offset e,
     checkInvalidAtJs src source offset = Some e <->
     exists i, first_free src i
               /\ e = cssSyntaxError (lit "invalid use of @js") source
                        (offset + Z.of_nat i))
  /\ (forall src source offset,
        checkInvalidAtJs src source offset = None <->
        forall i, ~ free_at src i)
  /\ (forall pre q body post,
        is_quote q = true ->
        noQuote pre = true ->
        ends_escaped pre = false ->
        litBody q body = true ->
        masked (pre ++ q :: body ++ q :: post)
        = pre ++ replicate (length body + 2) c_star ++ masked post
        /\ forall i,
             free_at (pre ++ q :: body ++ q :: post) i ->
             (i + 3 <= length pre)%nat
             \/ (length pre + length body + 2 <= i)%nat).
Proof.
  split; [apply check_some|]. split; [apply check_none|].
  intros pre q body post Hq Hpre Hesc Hb. split.
  - by apply masked_literal.
  - intros i. by apply free_outside_literal.
Qed.

Lemma C10_witness :
  masked (lit "a " ++ c_squote :: lit "@js" ++ c_squote :: lit " b")
  = lit "a *****" ++ masked (lit " b")
  /\ checkInvalidAtJs (lit "a '@js' b") None 0 = None.
Proof.
  split.
  - exact (proj1 (proj2 (proj2 C10_masked_literals) (lit "a ") c_squote
                    (lit "@js") (lit " b") eq_refl eq_refl eq_refl eq_refl)).
  - vm_compute. reflexivity.
Defined.

(** * Further properties of the code *)

(** ** Documents without the marker *)

Section PlainFacts.

Variable Function_ : jstring -> option ParseError.
Variable acorn : option (jstring -> option ParseError).
Variable replaceImport : Code -> option Code.
Variable globals : GlobalScope -> gmap GlobalScope GlobalBinds -> GlobalBinds.
Variable selectors : jstring -> list jstring.
Variable offsetAt : option Source -> Z -> Z.

Local Abbreviation compileChild :=
  (compileChild Function_ acorn replaceImport globals selectors offsetAt).

Lemma includes_false_free src :
  includes atjs src = false -> forall i, ~ free_at src i.
Proof.
  unfold includes. intros H i [Ho _].
  apply Z.leb_gt in H.
  destruct (indexOf_range atjs src) as [E|E]; [|lia].
  by apply (indexOf_none _ _ E i).
Qed.

Lemma includes_false_check src source off s :
  includes atjs src = false -> check src source off s = Good tt s.
Proof. intros H. apply check_good. by apply includes_false_free. Qed.

Lemma includes_false_marked v : includes atjs v = false -> markedValue v = None.
Proof.
  unfold includes, markedValue. intros H.
  destruct (startsWith atjs v) eqn:E; [|done].
  assert (indexOf atjs v = 0) as E0.
  { destruct v; simpl in *; [done|]. by rewrite E. }
  rewrite E0 in H. done.
Qed.

Lemma enterScope_codeless l node s :
  codeless l ->
  exists l1 s1, enterScope globals l node s = Good l1 s1 /\ codeless l1.
Proof.
  intros (Hi & Hb & Hf). unfold enterScope.
  case_bool_decide; [by exists l, s|].
  unfold bind, loadGlobals.
  destruct (globalEnv s !! _); eexists _, _; (split; [reflexivity|]);
    (split; [done|split; [done|]]); simpl;
    rewrite Forall_app; (split; [done|]); by repeat constructor.
Qed.

Lemma childTurn_codeless rec node l s :
  passes rec node -> codeless l ->
  exists l' s', childTurn globals rec node l s = Good l' s' /\ codeless l'.
Proof.
  intros [Ha Hr] Hl. unfold childTurn, bind.
  destruct (enterScope_codeless l node s Hl) as (l1 & s1 & -> & Hi & Hb & Hf).
  destruct (Hr (lp_context l1) s1 Hi) as [s2 ->].
  rewrite Ha, Hb. eexists _, _. split; [reflexivity|].
  unfold codeless; simpl. split; [done|split; [done|]].
  apply Forall_app in Hf as [Hc Hk]. rewrite Forall_app. split; [done|].
  constructor; [|done]. rewrite Forall_singleton in Hk.
  destruct (lp_block l1) as [p body]; simpl in *.
  rewrite Forall_app. split; [done|]. by repeat constructor.
Qed.

Lemma childrenLoop_codeless rec nodes : forall l s,
  Forall (passes rec) nodes -> codeless l ->
  exists l' s', childrenLoop globals rec nodes l s = Good l' s' /\ codeless l'.
Proof.
  induction nodes as [|n nodes IH]; intros l s Hn Hl; simpl.
  - by exists l, s.
  - apply Forall_cons in Hn as [Hn Hns]. unfold bind.
    destruct (childTurn_codeless rec n l s Hn Hl) as (l1 & s1 & -> & Hl1).
    by apply IH.
Qed.

Lemma compileContainer_codeless rec nodes raws ctx s :
  Forall (passes rec) nodes -> inAtJs ctx = false ->
  exists s', compileContainer globals rec nodes raws ctx s = Good PEmpty s'.
Proof.
  intros Hn Hi. unfold compileContainer, compileContainerChildren, bind.
  edestruct (childrenLoop_codeless rec nodes) as (l' & s' & -> & Hi' & Hb & Hf);
    [done| |].
  { split; [done|split; [done|]]. by repeat constructor. }
  unfold ret. rewrite Hi.
  assert (existsb (fun b => existsb is_code (block_body b))
            (lp_closed l' ++ [lp_block l']) = false) as ->.
  { apply not_true_is_false. intros H.
    apply existsb_exists in H as (b & Hb1 & H).
    apply existsb_exists in H as (e & He1 & He).
    apply list_elem_of_In in Hb1, He1.
    rewrite Forall_forall in Hf. specialize (Hf b Hb1).
    rewrite Forall_forall in Hf. specialize (Hf e He1). congruence. }
  by exists s'.
Qed.

Lemma forallb_Forall_plain (P : ChildNode -> Prop) ns :
  Forall (fun n => plain n = true -> P n) ns ->
  forallb plain ns = true -> Forall P ns.
Proof.
  induction 1 as [|n ns Hn _ IH]; simpl; [done|].
  intros [H1 H2]%andb_true_iff. constructor; auto.
Qed.

Lemma plain_passes node : plain node = true -> passes compileChild node.
Proof.
  induction node as [name params nodes raws source IH
                    |selector nodes raws source IH
                    |prop value raws source
                    |text raws source] using ChildNode_nested_ind;
    intros Hp; simpl in Hp.
  - apply andb_true_iff in Hp as [[Hn Hq]%andb_true_iff Hk].
    apply negb_true_iff in Hn, Hq.
    split; [done|]. intros ctx s Hi. cbn [Compile.compileChild].
    rewrite Hn. unfold bind. rewrite includes_false_check by done.
    destruct nodes as [ns|]; [|by exists s].
    edestruct (compileContainer_codeless compileChild ns raws ctx s)
      as [s' ->]; [|done|by exists s'].
    by apply forallb_Forall_plain.
  - apply andb_true_iff in Hp as [Hq%negb_true_iff Hk].
    split; [done|]. intros ctx s Hi. cbn [Compile.compileChild].
    unfold bind, compileSelector. rewrite Hq. simpl.
    edestruct (compileContainer_codeless compileChild nodes raws ctx s)
      as [s' ->]; [|done|by exists s'].
    by apply forallb_Forall_plain.
  - apply andb_true_iff in Hp as [Hq%negb_true_iff Hv%negb_true_iff].
    split; [done|]. intros ctx s Hi. cbn [Compile.compileChild].
    unfold bind. rewrite includes_false_check by done.
    rewrite includes_false_marked by done.
    rewrite includes_false_check by done. by exists s.
  - split; [done|]. intros ctx s Hi. by exists s.
Qed.

Lemma plain_compile root :
  forallb plain (root_nodes root) = true ->
  exists s, compile Function_ acorn replaceImport globals selectors offsetAt
              root = Good PEmpty s.
Proof.
  intros H. unfold compile.
  apply compileContainer_codeless; [|done].
  apply (forallb_Forall_plain _ _ (Forall_true _ _ (fun n => plain_passes n)) H).
Qed.

End PlainFacts.

(** ** Marked values *)

Section MarkFacts.

Variable Function_ : jstring -> option ParseError.
Variable acorn : option (jstring -> option ParseError).
Variable replaceImport : Code -> option Code.
Variable globals : GlobalScope -> gmap GlobalScope GlobalBinds -> GlobalBinds.
Variable selectors : jstring -> list jstring.
Variable offsetAt : option Source -> Z -> Z.

Local Abbreviation compileChild :=
  (compileChild Function_ acorn replaceImport globals selectors offsetAt).

Lemma wsRun_spec s :
  Forall (fun c => is_space c = true) (take (wsRun s) s)
  /\ (forall c, drop (wsRun s) s !! 0%nat = Some c -> is_space c = false).
Proof.
  induction s as [|c s [IH1 IH2]]; simpl.
  - split; [constructor|]. intros c H. done.
  - destruct (is_space c) eqn:E; simpl.
    + split; [by constructor|done].
    + split; [constructor|]. intros c' [= <-]. done.
Qed.

Lemma wsRun_le s : (wsRun s <= length s)%nat.
Proof. induction s as [|c s IH]; simpl; [lia|]. destruct (is_space c); simpl; lia. Qed.

Lemma startsWith_atjs_drop v :
  startsWith atjs v = true -> v = atjs ++ drop 3 v.
Proof.
  intros H. apply startsWith_inv in H as [t ->].
  by rewrite drop_app_length'.
Qed.

Lemma markedValue_some v n :
  markedValue v = Some n ->
  exists ws,
    v = atjs ++ ws ++ drop n v
    /\ n = (3 + length ws)%nat
    /\ Forall (fun c => is_space c = true) ws
    /\ (forall c, drop n v !! 0%nat = Some c ->
        is_space c = false /\ (ws = [] -> is_css_meta c = true)).
Proof.
  unfold markedValue. destruct (startsWith atjs v) eqn:Hs; [|done].
  pose proof (startsWith_atjs_drop v Hs) as Hv.
  destruct (drop 3 v) as [|c r] eqn:Hd.
  - intros [= <-]. exists []. rewrite Hd. repeat split; try done.
  - destruct (is_space c) eqn:Hc.
    + intros H.
      assert (n = 3 + wsRun (c :: r))%nat as -> by congruence. clear H.
      destruct (wsRun_spec (c :: r)) as [H1 H2].
      pose proof (wsRun_le (c :: r)) as Hle.
      exists (take (wsRun (c :: r)) (c :: r)).
      rewrite <- drop_drop, Hd.
      rewrite take_drop. split; [done|].
      split; [by rewrite length_take; lia|].
      split; [done|]. intros c' Hc'. split; [by apply H2|].
      cbn [wsRun]. rewrite Hc. done.
    + destruct (is_css_meta c) eqn:Hm; [|done].
      intros [= <-]. exists []. rewrite Hd. simpl.
      split; [done|]. split; [done|]. split; [constructor|].
      intros c' [= <-]. done.
Qed.

Lemma markedValue_none v :
  markedValue v = None ->
  startsWith atjs v = false
  \/ exists c, v !! 3%nat = Some c /\ is_space c = false /\ is_css_meta c = false.
Proof.
  unfold markedValue. destruct (startsWith atjs v) eqn:Hs; [|by left].
  destruct (drop 3 v) as [|c r] eqn:Hd; [done|].
  destruct (is_space c) eqn:Hc; [done|].
  destruct (is_css_meta c) eqn:Hm; [done|]. intros _. right. exists c.
  split; [|done].
  assert (drop 3 v !! 0%nat = Some c) as H by by rewrite Hd.
  by rewrite lookup_drop in H.
Qed.

Lemma marker_first_free c rest :
  first_free (atjs ++ c :: rest) 0.
Proof.
  split; [|intros j Hj; lia]. split.
  - change (startsWith atjs (atjs ++ c :: rest) = true). apply startsWith_app.
  - intros k Hk.
    rewrite (flags_plain atjs (c :: rest) false) by (by repeat constructor).
    rewrite lookup_app_l by (simpl; lia).
    apply lookup_replicate_2. simpl. lia.
Qed.

Lemma marked_word_invalid prop c rest raws source ctx s :
  includes atjs prop = false ->
  is_space c = false -> is_css_meta c = false ->
  compileChild (Decl prop (atjs ++ c :: rest) raws source) ctx s
  = Bad (invalidUse source (valueOffset prop raws)) s.
Proof.
  intros Hp Hc Hm.
  rewrite (decl_value_invalid _ _ _ _ _ _ prop (atjs ++ c :: rest) raws source
             ctx s 0).
  - by rewrite Z.add_0_r.
  - by apply includes_false_free.
  - unfold markedValue. rewrite startsWith_app.
    replace (drop 3 (atjs ++ c :: rest)) with (c :: rest) by reflexivity.
    cbv beta iota. by rewrite Hc, Hm.
  - apply marker_first_free.
Qed.

End MarkFacts.

(** ** Errors and their positions *)

Section ErrorFacts.

Lemma handleError_idem e p1 p2 :
  handleError (handleError e p1) p2 = handleError e p1.
Proof.
  destruct e as [what ext tag]. unfold handleError, setProp_tag.
  destruct (isObject what) eqn:Ho; simpl; [|by rewrite Ho].
  destruct tag as [t|]; simpl.
  - by rewrite Ho.
  - destruct ext; simpl; by rewrite Ho.
Qed.

Lemma getErrorPos_handleError what p :
  isObject what = true ->
  getErrorPos (handleError (Exn what true None) p) = Some p.
Proof.
  intros Ho. unfold handleError, getErrorPos, setProp_tag, deleteProp_tag.
  rewrite Ho. simpl. by rewrite Ho.
Qed.

Lemma getErrorPos_primitive what ext tag p :
  isObject what = false ->
  getErrorPos (handleError (Exn what ext tag) p) = None.
Proof.
  intros Ho. unfold handleError, getErrorPos, setProp_tag, deleteProp_tag.
  rewrite Ho. simpl. by rewrite Ho.
Qed.

End ErrorFacts.

(** ** Raws *)

Section RawsFacts.

Lemma mergeRaws_assoc r1 r2 r3 :
  mergeRaws (mergeRaws r1 r2) r3 = mergeRaws r1 (mergeRaws r2 r3).
Proof.
  destruct r1 as [[[]|]], r2 as [[[]|]], r3 as [[[]|]]; reflexivity.
Qed.

Lemma mergeRaws_empty_l r : mergeRaws {| semi := None |} r = r.
Proof. destruct r as [[[]|]]; reflexivity. Qed.

Lemma mergeRaws_empty_r r : mergeRaws r {| semi := None |} = r.
Proof. destruct r as [[[]|]]; reflexivity. Qed.

Lemma mergeRaws_true_l r :
  semi (mergeRaws {| semi := Some true |} r) = Some true.
Proof. destruct r as [[[]|]]; reflexivity. Qed.

Lemma mergeRaws_true_r r :
  semi (mergeRaws r {| semi := Some true |}) = Some true.
Proof. destruct r as [[[]|]]; reflexivity. Qed.

Lemma blank_strip_before n :
  blank (before (node_raws (stripRaws n))) = false.
Proof.
  destruct n; simpl; by destruct (blank (before _)) eqn:E.
Qed.

Lemma blank_strip_after n :
  blank (after (node_raws (stripRaws n))) = false.
Proof.
  destruct n; simpl; by destruct (blank (after _)) eqn:E.
Qed.

Lemma stripRaws_idem n : stripRaws (stripRaws n) = stripRaws n.
Proof.
  pose proof (blank_strip_before n) as Hb.
  pose proof (blank_strip_after n) as Ha.
  destruct n; unfold stripRaws in *; simpl in *; rewrite Hb, Ha; reflexivity.
Qed.

End RawsFacts.

(** ** The interpretation of values *)

Section WalkFacts.

Variable inspect : value -> Z -> jstring.
Variable call : fid -> option value -> ending.
Variable fromOffset : Input -> Z -> option (Z * Z).

Local Abbreviation interp := (interp inspect fromOffset).
Local Abbreviation interpItems := (interpItems inspect fromOffset).
Local Abbreviation interpretEntry := (interpretEntry inspect fromOffset).
Local Abbreviation interpretObject := (interpretObject inspect fromOffset).
Local Abbreviation interpretUnknown := (interpretUnknown inspect fromOffset).
Local Abbreviation turn := (turn inspect call fromOffset).
Local Abbreviation loop := (loop inspect call fromOffset).

Lemma interpretUnknown_semi v c ns r :
  interpretUnknown v c = Ok (ns, r) -> semi r = Some true.
Proof.
  unfold Runtime.interpretUnknown, interpretUnknown_body.
  destruct (interp v c) as [[ns' c']|e]; [|done].
  intros [= _ <-]. apply mergeRaws_true_r.
Qed.

Lemma reflect_raws c n :
  node_raws (Context_reflect fromOffset c n).1 = node_raws n.
Proof.
  unfold Context_reflect. destruct (node_source n); [done|].
  destruct (ctx_source c); [|done].
  destruct (BeginJs_source _ _); [|done]. by destruct n.
Qed.

Lemma appendNodes_semi dest ns ret :
  semicolon (node_raws dest) = None -> semi ret = Some true ->
  (exists a p o r s, dest = AtRule a p o r s) \/ (exists a o r s, dest = Rule a o r s) ->
  semicolon (node_raws (appendNodes dest ns ret)) = Some true.
Proof.
  intros Hd Hr Hk. unfold appendNodes. rewrite Hd.
  rewrite mergeRaws_empty_r, Hr.
  destruct Hk as [(a & p & o & r & s & ->)|(a & o & r & s & ->)]; reflexivity.
Qed.

Lemma interpretEntry_semi key value c n c1 :
  interpretEntry key value c = Ok (n, c1) ->
  semicolon (node_raws n)
  = if isInterpretable value then Some true else None.
Proof.
  unfold Runtime.interpretEntry, entry_body, nested_body.
  destruct (startsWith (lit "@") key).
  - destruct (Context_reflect fromOffset c _) as [node c2] eqn:E.
    assert (node_raws node = noRaws) as Hn.
    { change node with (node, c2).1. rewrite <- E. by rewrite reflect_raws. }
    assert (exists a p o r s, node = AtRule a p o r s) as Hk.
    { destruct (reflect_node fromOffset c
                  (atRule (atRuleName (sliceFrom key 1))
                     (atRuleParams (sliceFrom key 1)))) as [s Hs].
      rewrite E in Hs. simpl in Hs. subst node. by eexists _, _, _, _, _. }
    destruct (isInterpretable value).
    + destruct (interpretUnknown_body _ _ _) as [[ns ret]|e] eqn:Ei; [|done].
      intros [= <- _]. apply appendNodes_semi; [by rewrite Hn| |by left].
      by apply (interpretUnknown_semi _ _ _ _ Ei).
    + destruct (negb _); [done|]. intros [= <- _]. by rewrite Hn.
  - destruct (isInterpretable value).
    + destruct (Context_reflect fromOffset c _) as [node c2] eqn:E.
      assert (node_raws node = noRaws) as Hn.
      { change node with (node, c2).1. rewrite <- E. by rewrite reflect_raws. }
      assert (exists a o r s, node = Rule a o r s) as Hk.
      { destruct (reflect_node fromOffset c (rule key)) as [s Hs].
        rewrite E in Hs. simpl in Hs. subst node. by eexists _, _, _, _. }
      destruct (interpretUnknown_body _ _ _) as [[ns ret]|e] eqn:Ei; [|done].
      intros [= <- _]. apply appendNodes_semi; [by rewrite Hn| |by right].
      by apply (interpretUnknown_semi _ _ _ _ Ei).
    + destruct (isStringifiable value); [|done].
      destruct (Context_reflect fromOffset c _) as [node c2] eqn:E.
      intros [= <- _].
      change node with (node, c2).1. rewrite <- E. by rewrite reflect_raws.
Qed.

Lemma interpretObject_semi obj : forall c ns c',
  interpretObject obj c = Ok (ns, c') ->
  Forall2 (fun kv n => semicolon (node_raws n)
                       = if isInterpretable kv.2 then Some true else None)
    obj ns.
Proof.
  induction obj as [|[k v] obj IH]; intros c ns c'; simpl.
  - intros [= <- _]. constructor.
  - destruct (interpretEntry k v c) as [[n c1]|e] eqn:E; [|done].
    destruct (Runtime.interpretObject inspect fromOffset obj c1) as [[ns1 c2]|e] eqn:E2;
      [|done].
    intros [= <- _]. constructor; [|by eapply IH].
    by apply (interpretEntry_semi _ _ _ _ _ E).
Qed.

(** A value that is not interpretable is not walked. *)
Lemma interp_reject v c :
  isInterpretable v = false ->
  interp v c = Err (Context_unexpected c v).
Proof. by destruct v. Qed.

Lemma interp_node n c :
  interp (VNode n) c
  = Ok ([(Context_reflect fromOffset c n).1],
        (Context_reflect fromOffset c n).2).
Proof. simpl. by destruct (Context_reflect fromOffset c n). Qed.

Lemma reflect_source c n :
  ctx_source (Context_reflect fromOffset c n).2 = ctx_source c.
Proof.
  unfold Context_reflect. destruct (node_source n); [done|].
  destruct (ctx_source c) eqn:E; [|by rewrite ?E].
  by destruct (BeginJs_source _ _).
Qed.

Lemma interpItems_cons v rest fin c :
  interpItems (v :: rest) fin c
  = match interp v c with
    | Err e => Err e
    | Ok (ns, c') =>
        match interpItems rest fin c' with
        | Err e => Err e
        | Ok (ns', c'') => Ok (ns ++ ns', c'')
        end
    end.
Proof. reflexivity. Qed.

Lemma interpItems_reject ns v post fin : forall c,
  isInterpretable v = false ->
  interpItems ((VNode <$> ns) ++ v :: post) fin c
  = Err (Unexpected_create v (bj_pos <$> ctx_source c)).
Proof.
  induction ns as [|n ns IH]; intros c Hv.
  - cbn [fmap list_fmap app].
    by rewrite interpItems_cons, interp_reject.
  - cbn [fmap list_fmap app].
    rewrite interpItems_cons, interp_node.
    rewrite (IH _ Hv). by rewrite reflect_source.
Qed.

End WalkFacts.

(** ** The main loop and the walk of [interpretUnknown] *)

Section RefineFacts.

Variable inspect : value -> Z -> jstring.
Variable call : fid -> option value -> ending.
Variable fromOffset : Input -> Z -> option (Z * Z).

Local Abbreviation interp := (interp inspect fromOffset).
Local Abbreviation interpItems := (interpItems inspect fromOffset).
Local Abbreviation interpretEntry := (interpretEntry inspect fromOffset).
Local Abbreviation interpretObject := (interpretObject inspect fromOffset).
Local Abbreviation interpretUnknown := (interpretUnknown inspect fromOffset).
Local Abbreviation turn := (turn inspect call fromOffset).
Local Abbreviation loop := (loop inspect call fromOffset).

Lemma reflect_source_only c1 c2 n :
  ctx_source c1 = ctx_source c2 ->
  Context_reflect fromOffset c1 n = Context_reflect fromOffset c2 n.
Proof.
  destruct c1 as [s1 r1], c2 as [s2 r2]; simpl. intros ->.
  reflexivity.
Qed.

Lemma interpretEntry_source_only c1 c2 k v :
  ctx_source c1 = ctx_source c2 ->
  interpretEntry k v c1 = interpretEntry k v c2.
Proof.
  intros H. unfold Runtime.interpretEntry, entry_body, Context_unexpected.
  rewrite !(reflect_source_only c1 c2) by done. by rewrite H.
Qed.

Lemma agree_refl r : agree r r.
Proof. by destruct r as [[ns c]|e]. Qed.

Lemma interpretObject_agree es c1 c2 :
  ctx_source c1 = ctx_source c2 ->
  agree (interpretObject es c1) (interpretObject es c2).
Proof.
  intros H. destruct es as [|[k v] es]; simpl; [done|].
  rewrite (interpretEntry_source_only c1 c2) by done. apply agree_refl.
Qed.

Lemma interpItems_agree items fin :
  Forall (fun v => forall c1 c2, ctx_source c1 = ctx_source c2 ->
                   agree (interp v c1) (interp v c2)) items ->
  forall c1 c2, ctx_source c1 = ctx_source c2 ->
  agree (interpItems items fin c1) (interpItems items fin c2).
Proof.
  induction 1 as [|v items Hv _ IH]; intros c1 c2 H.
  - simpl. by destruct fin.
  - rewrite !interpItems_cons. specialize (Hv c1 c2 H).
    destruct (interp v c1) as [[ns1 c1']|e1], (interp v c2) as [[ns2 c2']|e2];
      try done.
    destruct Hv as [-> Hs]. specialize (IH c1' c2' Hs).
    destruct (interpItems items fin c1') as [[ms1 d1]|e1],
             (interpItems items fin c2') as [[ms2 d2]|e2]; try done.
    destruct IH as [-> Hd]. done.
Qed.

Lemma interp_agree v : forall c1 c2,
  ctx_source c1 = ctx_source c2 -> agree (interp v c1) (interp v c2).
Proof.
  induction v as [items fin IH|v Hv] using value_nested_ind; intros c1 c2 H.
  - rewrite !interp_iterable. by apply interpItems_agree.
  - destruct v; try done;
      try (simpl; unfold Context_unexpected; by rewrite H).
    + rewrite !interp_plain. by apply interpretObject_agree.
    + rewrite !interp_node, (reflect_source_only c1 c2) by done. done.
Qed.

Lemma items_agree items fin c1 c2 :
  ctx_source c1 = ctx_source c2 ->
  agree (interpItems items fin c1) (interpItems items fin c2).
Proof.
  apply interpItems_agree. apply Forall_true. intros v. apply interp_agree.
Qed.

Lemma walkStack_agree its : forall c1 c2,
  ctx_source c1 = ctx_source c2 ->
  agree (walkStack inspect fromOffset its c1) (walkStack inspect fromOffset its c2).
Proof.
  induction its as [|it its IH]; intros c1 c2 H; simpl; [done|].
  pose proof (items_agree (rest it) (fin it) c1 c2 H) as Ha.
  destruct (Runtime.interpItems inspect fromOffset (rest it) (fin it) c1)
    as [[ns1 c1']|e1],
    (Runtime.interpItems inspect fromOffset (rest it) (fin it) c2) as [[ns2 c2']|e2];
    try done.
  destruct Ha as [-> Hs]. specialize (IH c1' c2' Hs).
  destruct (walkStack inspect fromOffset its c1') as [[ms1 d1]|e1],
           (walkStack inspect fromOffset its c2') as [[ms2 d2]|e2]; try done.
  destruct IH as [-> Hd]. done.
Qed.

Lemma walkStack_ok its c1 c2 ns cf :
  ctx_source c1 = ctx_source c2 ->
  walkStack inspect fromOffset its c1 = Ok (ns, cf) ->
  exists cf', walkStack inspect fromOffset its c2 = Ok (ns, cf').
Proof.
  intros H E. pose proof (walkStack_agree its c1 c2 H) as Ha.
  rewrite E in Ha. destruct (walkStack inspect fromOffset its c2) as [[ms d]|e];
    [|done].
  destruct Ha as [<- _]. by exists d.
Qed.

Lemma turns_iterable items e : turns (VIterable items e) = S (turnsOf items).
Proof.
  reflexivity.
Qed.

Lemma turns_pos v : (1 <= turns v)%nat.
Proof. destruct v; simpl; lia. Qed.

(** A finished iterator gives way to the one under it within the turn. *)
Lemma turn_pop ret it' st' c :
  turn {| func := None; next := None; context := c; stack := it' :: st';
          iter := {| rest := []; fin := Done ret |} |}
  = turn {| func := None; next := None;
            context := Context_mergeRaws c (coerceToRaws ret);
            stack := st'; iter := it' |}.
Proof. reflexivity. Qed.

Lemma turn_item v r e st c :
  turn {| func := None; next := None; context := c; stack := st;
          iter := {| rest := v :: r; fin := e |} |}
  = classify inspect fromOffset v
      {| func := None; next := None; context := c; stack := st;
         iter := {| rest := r; fin := e |} |}.
Proof. by destruct st. Qed.

Lemma loop_walkStack m : forall it st c out ns c0 cf k,
  (2 * turnsOfStack (it :: st) + length (it :: st) <= m)%nat ->
  ctx_source c0 = ctx_source c ->
  walkStack inspect fromOffset (it :: st) c0 = Ok (ns, cf) ->
  exists raws,
    loop (turnsOfStack (it :: st) + 1 + k)
      {| func := None; next := None; context := c; stack := st; iter := it |}
      out
    = Some (Ok (out ++ ns, raws)).
Proof.
  induction m as [|m IH]; intros it st c out ns c0 cf k Hm Hs Hw.
  { simpl in Hm. lia. }
  destruct it as [items e]. destruct items as [|v r].
  - (* the iterator is finished *)
    cbn [walkStack rest fin Runtime.interpItems] in Hw.
    destruct e as [ret|x]; [|done].
    destruct st as [|it' st'].
    + simpl in Hw. injection Hw as <- _.
      exists (rawsEnd (Context_mergeRaws c (coerceToRaws ret))).
      rewrite app_nil_r. reflexivity.
    + replace (turnsOfStack ({| rest := []; fin := Done ret |} :: it' :: st')
               + 1 + k)%nat
        with (S (turnsOfStack (it' :: st') + k)) by (simpl; lia).
      rewrite loop_S, turn_pop, <- loop_S.
      replace (S (turnsOfStack (it' :: st') + k))
        with (turnsOfStack (it' :: st') + 1 + k)%nat by lia.
      destruct (walkStack inspect fromOffset (it' :: st') c0)
        as [[ns' cf']|x] eqn:Hw'; [|done].
      injection Hw as <- _.
      apply (IH it' st' _ out ns' c0 cf' k); [simpl in *; lia|done|done].
  - (* the iterator has an item *)
    cbn [walkStack rest fin] in Hw. rewrite interpItems_cons in Hw.
    pose proof (turns_pos v) as Hv.
    replace (turnsOfStack ({| rest := v :: r; fin := e |} :: st) + 1 + k)%nat
      with (S (turns v - 1 + turnsOfStack ({| rest := r; fin := e |} :: st)
               + 1 + k))
      by (simpl; lia).
    rewrite loop_S, turn_item.
    destruct v as [| |b|t|s|f|items fin0|es|n|b|b|o|t]; try done.
    + (* an iterable *)
      rewrite interp_iterable in Hw. rewrite turns_iterable.
      cbn [Runtime.classify continue].
      replace (S (turnsOf items) - 1
               + turnsOfStack ({| rest := r; fin := e |} :: st) + 1 + k)%nat
        with (turnsOfStack (iterator items fin0
                            :: {| rest := r; fin := e |} :: st) + 1 + k)%nat
        by (simpl; lia).
      rewrite app_nil_r.
      eapply (IH _ _ _ out ns c0 cf k); [|done|].
      * cbn [turnsOfStack turnsOf rest length] in Hm.
        rewrite turns_iterable in Hm.
        cbn [turnsOfStack turnsOf rest length iterator]. lia.
      * cbn [walkStack rest fin iterator].
        destruct (Runtime.interpItems inspect fromOffset items fin0 c0)
          as [[nsA cA]|x]; [|done].
        destruct (Runtime.interpItems inspect fromOffset r e cA) as [[ns1 c1]|x];
          [|done].
        destruct (walkStack inspect fromOffset st c1) as [[ns2 c2]|x]; [|done].
        injection Hw as <- <-. by rewrite app_assoc.
    + (* a plain object *)
      rewrite interp_plain in Hw. cbn [Runtime.classify context].
      pose proof (interpretObject_agree es c0 c Hs) as Ha.
      destruct (Runtime.interpretObject inspect fromOffset es c0)
        as [[nsA cA]|x]; [|done].
      destruct (Runtime.interpretObject inspect fromOffset es c)
        as [[nsB cB]|x]; [|done].
      destruct Ha as [<- Hs']. cbn [continue func next stack iter].
      destruct (Runtime.interpItems inspect fromOffset r e cA) as [[ns1 c1]|x] eqn:E1;
        [|done].
      destruct (walkStack inspect fromOffset st c1) as [[ns2 c2]|x] eqn:E2;
        [|done].
      injection Hw as <- <-.
      destruct (IH {| rest := r; fin := e |} st cB (out ++ nsA) (ns1 ++ ns2)
                  cA c2 k) as [raws Hl].
      * simpl in *. lia.
      * done.
      * cbn [walkStack rest fin]. by rewrite E1, E2.
      * exists raws. simpl turns. rewrite Nat.sub_diag. simpl "+"%nat at 1.
        etrans; [exact Hl|]. by rewrite !app_assoc.
    + (* a node *)
      rewrite interp_node in Hw. cbn [Runtime.classify context].
      rewrite (reflect_source_only c c0) by done.
      destruct (Context_reflect fromOffset c0 n) as [n' c'] eqn:E.
      cbn [fst snd] in Hw. cbn [continue func next stack iter].
      destruct (Runtime.interpItems inspect fromOffset r e c') as [[ns1 c1]|x] eqn:E1;
        [|done].
      destruct (walkStack inspect fromOffset st c1) as [[ns2 c2]|x] eqn:E2;
        [|done].
      injection Hw as <- <-.
      destruct (IH {| rest := r; fin := e |} st c' (out ++ [n']) (ns1 ++ ns2)
                  c' c2 k) as [raws Hl].
      * simpl in *. lia.
      * done.
      * cbn [walkStack rest fin]. by rewrite E1, E2.
      * exists raws. simpl turns. rewrite Nat.sub_diag. simpl "+"%nat at 1.
        etrans; [exact Hl|]. by rewrite <- app_assoc.
Qed.

Lemma mainLoop_walk items e ns cf k :
  interpItems items e newContext = Ok (ns, cf) ->
  exists raws,
    mainLoop inspect call fromOffset (turnsOf items + 1 + k) (iterator items e)
    = Some (Ok (ns, raws)).
Proof.
  intros H. unfold mainLoop, initial.
  destruct (loop_walkStack
              (2 * turnsOfStack [iterator items e] + 1)
              (iterator items e) [] newContext [] ns newContext cf k)
    as [raws Hl].
  - simpl. lia.
  - done.
  - cbn [walkStack rest fin iterator]. rewrite H. by rewrite app_nil_r.
  - exists raws. etrans; [|exact Hl]. f_equal. simpl. lia.
Qed.

End RefineFacts.

(** ** A throw in a block *)

Section ThrowFacts.

Variable inspect : value -> Z -> jstring.
Variable Env : Type.
Variable bindGlobals : Env -> GlobalBinds -> Env.
Variable runBlock : Iterate Env -> Env -> Fragment -> option Program
                    -> option (Env * list value * Completion).
Variable runValue : Iterate Env -> Env -> Fragment -> option (Env * ending).
Variable runProgram : Iterate Env.

Local Abbreviation execElement :=
  (execElement inspect Env runBlock runValue runProgram).
Local Abbreviation execElements :=
  (execElements inspect Env runBlock runValue runProgram).
Local Abbreviation execBlocks :=
  (execBlocks inspect Env bindGlobals runBlock runValue runProgram).

Lemma execElements_raise inAtJs pre e post m ys m1 ys1 m2 x :
  execElements inAtJs pre m = Some (ys, m1, Next) ->
  execElement inAtJs e m1 = Some (ys1, m2, Raise x) ->
  execElements inAtJs (pre ++ e :: post) m = Some (ys ++ ys1, m2, Raise x).
Proof.
  intros Hpre He. rewrite execElements_app, Hpre.
  cbn [Exec.execElements]. rewrite He. done.
Qed.

Lemma throw_leaves_all inAtJs b1 prologue pre e post b2 m ys0 m0 f0 ys m1 ys1
    m2 x :
  execBlocks inAtJs b1 m = Some (ys0, m0, f0) ->
  (forall y, f0 <> Raise y) ->
  execElements inAtJs pre (enter Env bindGlobals prologue m0) = Some (ys, m1, Next) ->
  execElement inAtJs e m1 = Some (ys1, m2, Raise x) ->
  execBlocks inAtJs (b1 ++ MkBlock prologue (pre ++ e :: post) :: b2) m
  = Some (ys0 ++ ys ++ ys1, m2, Raise x).
Proof.
  intros Hb1 Hf0 Hpre He. rewrite execBlocks_app, Hb1.
  assert (execBlocks inAtJs (MkBlock prologue (pre ++ e :: post) :: b2) m0
          = Some (ys ++ ys1, m2, Raise x)) as ->.
  { cbn [Exec.execBlocks].
    destruct (pre ++ e :: post) eqn:E; [by destruct pre|]. rewrite <- E.
    rewrite (execElements_raise _ _ _ _ _ _ _ _ _ _ Hpre He). done. }
  unfold andThen. destruct f0; try done. by destruct (Hf0 e0).
Qed.

End ThrowFacts.

(** ** The source map of any code *)

Section ForceFacts.

Lemma sm_translate_grows item c st :
  position (sm_translate item c st) = position st + len item
  /\ exists l, entries (sm_translate item c st) = entries st ++ l
               /\ length l = length item.
Proof.
  unfold sm_translate. destruct (cl_source (loc c)); simpl.
  - split; [done|]. eexists. split; [done|]. by rewrite length_map, length_seq.
  - split; [done|]. eexists. split; [done|]. by rewrite length_replicate.
Qed.

Lemma walk_grows c : forall ctx st,
  position (walk sm_begin sm_translate ctx c st)
  = position st + len (toString c)
  /\ exists l, entries (walk sm_begin sm_translate ctx c st) = entries st ++ l
               /\ length l = length (toString c).
Proof.
  induction c as [content source IH] using Code_nested_ind.
  intros ctx st. rewrite walk_items, toString_join.
  revert st. induction IH as [|i content Hi _ IHl]; intros st.
  - simpl. split; [unfold len; simpl; lia|]. exists []. by rewrite app_nil_r.
  - destruct i as [[s|c]|]; cbn [walkItems joinItems].
    + destruct (IHl (sm_translate s ctx st)) as (Hp & l & Hl & Hn).
      destruct (sm_translate_grows s ctx st) as (Hp1 & l1 & Hl1 & Hn1).
      split.
      * rewrite Hp, Hp1. unfold len. rewrite length_app. lia.
      * exists (l1 ++ l). rewrite Hl, Hl1, <- app_assoc. split; [done|].
        rewrite !length_app. lia.
    + destruct (IHl (walk sm_begin sm_translate (sm_begin c ctx st) c st))
        as (Hp & l & Hl & Hn).
      destruct (Hi (sm_begin c ctx st) st) as (Hp1 & l1 & Hl1 & Hn1).
      split.
      * rewrite Hp, Hp1. unfold len. rewrite length_app. lia.
      * exists (l1 ++ l). rewrite Hl, Hl1, <- app_assoc. split; [done|].
        rewrite !length_app. lia.
    + apply IHl.
Qed.

Lemma force_length c :
  position (force c) = len (toString c)
  /\ length (entries (force c)) = length (toString c).
Proof.
  unfold force, translate.
  destruct (walk_grows c
              (sm_begin c sm_init {| cursor := 0; position := 0; entries := [] |})
              {| cursor := 0; position := 0; entries := [] |})
    as (Hp & l & Hl & Hn).
  split; [by rewrite Hp|]. rewrite Hl. simpl. done.
Qed.

Lemma find_in_range fromOffset c pos :
  is_Some (find fromOffset c pos) -> 0 <= pos < len (toString c).
Proof.
  unfold find. destruct (pos <? 0) eqn:E; [by intros [? ?]|].
  apply Z.ltb_ge in E.
  destruct (entries (force c) !! Z.to_nat pos) as [o|] eqn:El;
    [|by intros [? ?]].
  intros _. apply lookup_lt_Some in El.
  rewrite (proj2 (force_length c)) in El. unfold len. lia.
Qed.

Lemma find_fragment fromOffset s offset src pos :
  0 <= pos < len src ->
  find fromOffset (fragmentCode (Some s) offset src) pos
  = let o := offset + pos + default 0 (source_start_offset (Some s)) in
    match fromOffset (input s) o with
    | None => Some s
    | Some (l, c) =>
        Some {| input := input s;
                start := Some {| Postcss.offset := o; line := l; column := c |};
                finish := finish s |}
    end.
Proof.
  intros [H0 H1]. unfold find.
  destruct (pos <? 0) eqn:E; [apply Z.ltb_lt in E; lia|].
  rewrite (force_moving (fragmentCode (Some s) offset src) [Num offset] s)
    by done.
  assert (toString (fragmentCode (Some s) offset src) = src) as ->.
  { simpl. apply app_nil_r. }
  rewrite list_lookup_fmap, lookup_seq_lt by (unfold len in H1; lia).
  simpl. rewrite Z2Nat.id by done.
  replace (offset + 0 + pos) with (offset + pos) by lia. done.
Qed.

Lemma walkItems_app {C St} (begin : Code -> C -> St -> C)
    (leaf : jstring -> C -> St -> St) ctx l1 l2 st :
  walkItems begin leaf ctx (l1 ++ l2) st
  = walkItems begin leaf ctx l2 (walkItems begin leaf ctx l1 st).
Proof.
  revert st. induction l1 as [|[[s|c]|] l1 IH]; intros st; simpl; auto.
Qed.

Lemma joinItems_app l1 l2 : joinItems (l1 ++ l2) = joinItems l1 ++ joinItems l2.
Proof.
  induction l1 as [|[[s|c]|] l1 IH]; simpl; [done| | |done];
    by rewrite IH, app_assoc.
Qed.

Lemma hole_toString pre post source :
  toString (MkCode (pre ++ None :: post) source)
  = toString (MkCode (pre ++ post) source).
Proof. by rewrite !toString_join, !joinItems_app. Qed.

Lemma hole_force pre post source :
  force (MkCode (pre ++ None :: post) source)
  = force (MkCode (pre ++ post) source).
Proof.
  unfold force, translate. rewrite !walk_items, !walkItems_app. reflexivity.
Qed.

End ForceFacts.

(** ** The blocks that [compileContainerChildren] makes *)

Section ShapeFacts.

Variable globals : GlobalScope -> gmap GlobalScope GlobalBinds -> GlobalBinds.
Variable rec : ChildNode -> CompileContext -> M Element.

Lemma wellformed_push closed p body e :
  wellformed (closed ++ [MkBlock p body]) ->
  wellformed (closed ++ [MkBlock p (body ++ [e])]).
Proof.
  destruct closed as [|b0 closed]; simpl.
  - intros [H _]. split; [done|constructor].
  - intros [H0 H]. split; [done|].
    apply Forall_app in H as [H1 H2]. apply Forall_app. split; [done|].
    apply Forall_singleton in H2 as [H2 _]. apply Forall_singleton.
    split; [done|]. simpl. by destruct body.
Qed.

Lemma wellformed_open bs binds e :
  wellformed bs -> wellformed (bs ++ [MkBlock (Some binds) [e]]).
Proof.
  destruct bs as [|b0 bs]; simpl; [done|].
  intros [H0 H]. split; [done|]. apply Forall_app. split; [done|].
  apply Forall_singleton. split; [by eexists|done].
Qed.

Lemma childTurn_shape node l s l' s' :
  childTurn globals rec node l s = Good l' s' ->
  wellformed (lp_closed l ++ [lp_block l]) ->
  wellformed (lp_closed l' ++ [lp_block l']).
Proof.
  intros H Hw.
  destruct (decide (globalScope (lp_context l) = source_file (node_source node)))
    as [Hs|Hs].
  - destruct (childTurn_same_scope globals rec node l s l' s' Hs H)
      as (Hc & _ & Hp & e & Hb).
    destruct (lp_block l) as [p body], (lp_block l') as [p' body'].
    simpl in *. subst p' body'. rewrite Hc. by apply wellformed_push.
  - destruct (childTurn_new_scope globals rec node l s l' s' Hs H)
      as (Hc & _ & binds & e & _ & Hb).
    rewrite Hc, Hb. by apply wellformed_open.
Qed.

Lemma childrenLoop_shape nodes : forall l s l' s',
  childrenLoop globals rec nodes l s = Good l' s' ->
  wellformed (lp_closed l ++ [lp_block l]) ->
  wellformed (lp_closed l' ++ [lp_block l']).
Proof.
  induction nodes as [|n nodes IH]; intros l s l' s' H Hw; simpl in H.
  - injection H as <- _. done.
  - unfold bind in H.
    destruct (childTurn globals rec n l s) as [l1 s1|] eqn:E; [|done].
    eapply IH; [exact H|]. by eapply childTurn_shape.
Qed.

Lemma compileContainerChildren_shape nodes ctx s blocks s' :
  compileContainerChildren globals rec nodes ctx s = Good blocks s' ->
  wellformed blocks.
Proof.
  unfold compileContainerChildren, bind, ret.
  destruct (childrenLoop globals rec nodes _ s) as [l' s1|] eqn:E; [|done].
  intros [= <- _]. eapply childrenLoop_shape; [exact E|]. by split.
Qed.

End ShapeFacts.

(** ** The scope of the first child *)

Section FirstScopeFacts.

Variable Function_ : jstring -> option ParseError.
Variable acorn : option (jstring -> option ParseError).
Variable replaceImport : Code -> option Code.
Variable globals : GlobalScope -> gmap GlobalScope GlobalBinds -> GlobalBinds.
Variable selectors : jstring -> list jstring.
Variable offsetAt : option Source -> Z -> Z.

Local Abbreviation compileChild :=
  (compileChild Function_ acorn replaceImport globals selectors offsetAt).

Lemma bind_extends {A B} (m : M A) (k : A -> M B) s :
  (forall a, steady (k a)) ->
  extends (state_of (m s)) (state_of (bind m k s)).
Proof.
  intros Hk. unfold bind. destruct (m s) as [a s1|e s1]; simpl.
  - apply Hk.
  - apply extends_refl.
Qed.

Lemma first_scope_kept n rest raws ctx s :
  globalScope ctx <> source_file (node_source n) ->
  extends (state_of (loadGlobals globals (source_file (node_source n)) s))
    (state_of (compileContainer globals compileChild (n :: rest) raws ctx s)).
Proof.
  intros Hs.
  assert (forall nodes, Forall (fun n => forall c, steady (compileChild n c)) nodes)
    as Hall.
  { intros nodes. apply Forall_true. intros x. apply steady_compileChild. }
  eapply extends_trans; [|apply bind_extends].
  2:{ intros blocks. apply steady_if; apply steady_ret. }
  unfold compileContainerChildren.
  eapply extends_trans; [|apply bind_extends].
  2:{ intros l. apply steady_ret. }
  cbn [Compile.childrenLoop].
  eapply extends_trans; [|apply bind_extends].
  2:{ intros l. by apply steady_childrenLoop. }
  unfold childTurn.
  eapply extends_trans; [|apply bind_extends].
  2:{ intros l. apply steady_bind; [apply steady_compileChild|].
      intros e. apply steady_if; apply steady_ret. }
  unfold enterScope. cbn [lp_context]. rewrite bool_decide_eq_false_2 by done.
  apply bind_extends. intros binds. apply steady_ret.
Qed.

Lemma first_scope_loaded root n rest :
  root_nodes root = n :: rest ->
  source_file (node_source n) <> Some [] ->
  globalEnv (state_of (compile Function_ acorn replaceImport globals selectors
                         offsetAt root))
    !! source_file (node_source n)
  = Some (globals (source_file (node_source n)) ∅).
Proof.
  intros Hr Hf. unfold compile. rewrite Hr.
  eapply (proj2 (first_scope_kept n rest _ _ _ _)).
  rewrite loadGlobals_miss by done. simpl. apply lookup_insert_eq.
  Unshelve. simpl. congruence.
Qed.

End FirstScopeFacts.

(** ** Selectors *)

Section SelectorFacts.

Variable Function_ : jstring -> option ParseError.
Variable acorn : option (jstring -> option ParseError).
Variable replaceImport : Code -> option Code.
Variable selectors : jstring -> list jstring.
Variable offsetAt : option Source -> Z -> Z.

Local Abbreviation selectorLoop :=
  (selectorLoop Function_ acorn replaceImport offsetAt).
Local Abbreviation compileSelector :=
  (compileSelector Function_ acorn replaceImport selectors offsetAt).
Local Abbreviation validate :=
  (validate Function_ acorn replaceImport offsetAt).

Lemma inOrder_prefix sels : forall u t, inOrder sels t -> inOrder sels (u ++ t).
Proof.
  destruct sels as [|sel rest]; intros u t; simpl; [done|].
  intros (g & t' & -> & H). exists (u ++ g), t'. by rewrite <- app_assoc.
Qed.

Lemma occurs_indexOf p s j :
  occurs p s j -> exists i, indexOf p s = Z.of_nat i /\ (i <= j)%nat.
Proof.
  intros Ho. destruct (indexOf_range p s) as [E|[E1 E2]].
  - by destruct (indexOf_none _ _ E j).
  - exists (Z.to_nat (indexOf p s)). rewrite Z2Nat.id by done. split; [done|].
    destruct (indexOf_found p s (Z.to_nat (indexOf p s))) as [_ Hmin];
      [by rewrite Z2Nat.id|].
    destruct (decide (Z.to_nat (indexOf p s) <= j)%nat) as [|Hn]; [done|].
    destruct (Hmin j); [lia|done].
Qed.

(** What the search of a selector finds, from a cursor in the text. *)
Lemma indexOfFrom_inOrder sel rest s (k : nat) :
  (k <= length s)%nat ->
  inOrder (sel :: rest) (drop k s) ->
  exists i : nat,
    indexOfFrom sel s (Z.of_nat k) = Z.of_nat (k + i)
    /\ (k + i + length sel <= length s)%nat
    /\ take (length sel) (drop (k + i) s) = sel
    /\ inOrder rest (drop (k + i + length sel) s).
Proof.
  intros Hk (g & t & Hs & Hr).
  assert (occurs sel (drop k s) (length g)) as Ho.
  { unfold occurs. rewrite Hs, drop_app_length. apply startsWith_app. }
  destruct (occurs_indexOf _ _ _ Ho) as (i & Hi & Hle).
  exists i. unfold indexOfFrom.
  assert (Z.to_nat (Z.min (Z.max (Z.of_nat k) 0) (len s)) = k) as ->
    by (unfold len; lia).
  rewrite Hi. destruct (Z.of_nat i <? 0) eqn:E; [apply Z.ltb_lt in E; lia|].
  split; [lia|].
  destruct (indexOf_found _ _ _ Hi) as [Hoi _].
  apply startsWith_inv in Hoi as [t' Ht'].
  rewrite drop_drop in Ht'.
  assert (length (drop (k + i) s) = length (sel ++ t')) as Hl by by rewrite Ht'.
  rewrite length_drop, length_app in Hl.
  destruct (indexOf_range sel (drop k s)) as [Hr1|Hr1]; [lia|].
  rewrite Hi in Hr1. unfold len in Hr1. rewrite length_drop in Hr1.
  split; [lia|]. split; [by rewrite Ht', take_app_length|].
  replace (k + i + length sel)%nat with (k + (i + length sel))%nat by lia.
  rewrite <- drop_drop, Hs.
  rewrite (app_assoc g sel t), drop_app_le by (rewrite length_app; lia).
  by apply inOrder_prefix.
Qed.

Lemma slice_inside s (a b : nat) :
  (a <= b)%nat -> (b <= length s)%nat ->
  slice s (Z.of_nat a) (Z.of_nat b) = take (b - a) (drop a s).
Proof.
  intros Hab Hb. unfold slice, len.
  destruct (Z.of_nat a <? 0) eqn:Ea; [apply Z.ltb_lt in Ea; lia|].
  destruct (Z.of_nat b <? 0) eqn:Eb; [apply Z.ltb_lt in Eb; lia|].
  f_equal; [|f_equal]; lia.
Qed.

Lemma take_step {A} (s : list A) (a b : nat) (x : list A) :
  (a <= b)%nat -> (b + length x <= length s)%nat ->
  take (length x) (drop b s) = x ->
  take (b + length x) s = take a s ++ take (b - a) (drop a s) ++ x.
Proof.
  intros Hab Hb Hx.
  rewrite <- (take_drop b s) at 1.
  rewrite take_app_add' by (rewrite length_take; lia).
  rewrite Hx. rewrite app_assoc. f_equal.
  rewrite <- (take_drop a s) at 1.
  replace b with (a + (b - a))%nat at 1 by lia.
  rewrite take_app_add' by (rewrite length_take; lia). done.
Qed.

Lemma isAtJsSelector_marked sel :
  isAtJsSelector sel = true ->
  sel = lit ":@js(" ++ slice sel 5 (len sel - 1) ++ lit ")".
Proof.
  unfold isAtJsSelector, endsWith. intros [H1 H2]%andb_true_iff.
  apply startsWith_inv in H1 as [t ->].
  apply startsWith_inv in H2 as [u Hu].
  assert (lit ":@js(" ++ t = rev u ++ lit ")") as Hr.
  { rewrite <- (rev_involutive (lit ":@js(" ++ t)), Hu. by rewrite rev_app_distr. }
  destruct (rev u) as [|a [|b [|c [|d [|e r]]]]] eqn:Er;
    try (by injection Hr).
  injection Hr as <- <- <- <- <- ->.
  assert (len (lit ":@js(" ++ r ++ lit ")") - 1 = Z.of_nat (5 + length r)) as ->.
  { unfold len. rewrite !length_app. simpl. lia. }
  change 5 with (Z.of_nat 5).
  rewrite slice_inside by (rewrite ?length_app; simpl; lia).
  replace (5 + length r - 5)%nat with (length r) by lia.
  change (drop 5 (lit ":@js(" ++ r ++ lit ")")) with (r ++ lit ")").
  by rewrite take_app_length.
Qed.

Lemma validate_text source offset code stub s frag s1 :
  validate source offset code stub s = Good frag s1 -> fr_text frag = code.
Proof.
  unfold Compile.validate.
  destruct (userCode _ _ _ _ _ _ _) as [u|e|]; [|done|done].
  by intros [= <- _].
Qed.

Lemma template_snoc ps p frag :
  template (ps ++ [(p, frag)]) = template ps ++ p ++ marked frag.
Proof.
  unfold template. induction ps as [|[q f] ps IH].
  - simpl. by rewrite app_nil_r.
  - cbn [app fmap list_fmap filled snd] in *. rewrite IH.
    by rewrite <- !app_assoc.
Qed.

Lemma selectorLoop_template selector source sels : forall st s st' s' (a k : nat),
  cut st = Z.of_nat a -> scursor st = Z.of_nat k ->
  (a <= k)%nat -> (k <= length selector)%nat ->
  inOrder sels (drop k selector) ->
  take a selector = template (pieces st) ->
  selectorLoop selector source sels st s = Good st' s' ->
  exists a' : nat,
    cut st' = Z.of_nat a' /\ (a' <= length selector)%nat
    /\ take a' selector = template (pieces st').
Proof.
  induction sels as [|sel rest IH]; intros st s st' s' a k Ha Hk Hak Hkl Ho Ht.
  - simpl. intros [= <- _]. exists a. split; [done|]. split; [lia|done].
  - destruct (indexOfFrom_inOrder sel rest selector k Hkl Ho)
      as (i & Hi & Hle & Hsel & Hrest).
    cbn [Compile.selectorLoop]. rewrite Hk, Hi.
    assert (Z.of_nat (k + i) + len sel = Z.of_nat (k + i + length sel)) as ->
      by (unfold len; lia).
    destruct (isAtJsSelector sel) eqn:Hjs; unfold bind.
    + destruct (validate source _ _ [] s) as [frag s1|e s1] eqn:Hv; [|done].
      apply (IH _ s1 st' s' (k + i + length sel)%nat (k + i + length sel)%nat);
        cbn [cut scursor pieces]; try done; try lia.
      rewrite template_snoc, <- Ht, Ha.
      rewrite slice_inside by lia.
      unfold marked. rewrite (validate_text _ _ _ _ _ _ _ Hv).
      rewrite <- (isAtJsSelector_marked sel Hjs).
      by apply take_step; [lia|lia|].
    + destruct (check sel source _ s) as [u s1|e s1]; [|done].
      apply (IH _ s1 st' s' a (k + i + length sel)%nat);
        cbn [cut scursor pieces]; try done; lia.
Qed.

(** The slices and the tail of a compiled selector, with the pseudo-classes
    back in their places, are the selector. *)
Lemma compileSelector_template selector source s sc s' :
  inOrder (selectors selector) selector ->
  compileSelector selector source s = Good (Some sc) s' ->
  selector = template (sc_pieces sc) ++ sc_tail sc.
Proof.
  intros Ho. unfold Compile.compileSelector.
  destruct (negb (includes atjs selector)); [done|]. unfold bind.
  destruct (selectorLoop selector source _ _ s) as [st s1|e s1] eqn:E; [|done].
  intros [= <- _]. cbn [sc_pieces sc_tail].
  destruct (selectorLoop_template selector source (selectors selector)
              {| cut := 0; scursor := 0; pieces := [] |} s st s1 0%nat 0%nat)
    as (a' & Hc & Hl & Ht); try done; try lia.
  rewrite <- Ht, Hc. unfold sliceFrom.
  destruct (Z.of_nat a' <? 0) eqn:En; [apply Z.ltb_lt in En; lia|].
  by rewrite Nat2Z.id, take_drop.
Qed.

End SelectorFacts.

Section EvalSelectorFacts.

Variable inspect : value -> Z -> jstring.
Variable Env : Type.
Variable runValue : Iterate Env -> Env -> Fragment -> option (Env * ending).
Variable runProgram : Iterate Env.

Local Abbreviation evalSelector :=
  (evalSelector inspect Env runValue runProgram).

(** The selector that the program computes is made of the same slices,
    with the strings of the values of the fragments between them. *)
Lemma evalSelector_filled ps tail : forall m m' t,
  evalSelector ps tail m = Some (m', Ok t) ->
  exists ts,
    t = filled ps ts ++ tail
    /\ Forall2 (fun pf x => exists e e' v,
                  runValue runProgram e pf.2 = Some (e', Done v)
                  /\ isStringifiable v = true
                  /\ x = String_ (unexpected_message inspect) v)
         ps ts.
Proof.
  induction ps as [|[p frag] ps IH]; intros m m' t; simpl.
  - intros [= _ <-]. exists []. split; [done|constructor].
  - destruct (runValue runProgram (env m) frag) as [[e1 [v|x]]|] eqn:Ev;
      [|done|done].
    unfold stringify. destruct (isStringifiable v) eqn:Es; [|done].
    cbn [negb].
    destruct (Exec.evalSelector inspect Env runValue runProgram ps tail _)
      as [[m2 [r|y]]|] eqn:E; [|done|done].
    intros [= _ <-]. destruct (IH _ _ _ E) as (ts & -> & Hf).
    exists (String_ (unexpected_message inspect) v :: ts).
    split; [by rewrite <- !app_assoc|].
    constructor; [|done]. by exists (env m), e1, v.
Qed.

End EvalSelectorFacts.

(** ** Stack traces *)

Section TraceFacts.

Import StackTrace.

Lemma splitLines_nonempty s : splitLines s <> [].
Proof.
  induction s as [|c s IH]; simpl; [done|].
  destruct (N.eqb c c_lf); [done|]. by destruct (splitLines s).
Qed.

Lemma joinLines_cons l ls :
  ls <> [] -> joinLines (l :: ls) = l ++ c_lf :: joinLines ls.
Proof. by destruct ls. Qed.

Lemma join_split s : joinLines (splitLines s) = s.
Proof.
  induction s as [|c s IH]; simpl; [done|].
  destruct (N.eqb c c_lf) eqn:E.
  - apply N.eqb_eq in E as ->.
    rewrite joinLines_cons by apply splitLines_nonempty. by rewrite IH.
  - pose proof (splitLines_nonempty s) as Hn.
    destruct (splitLines s) as [|l ls]; [done|].
    destruct ls as [|l' ls]; simpl in *; by rewrite <- IH.
Qed.

Lemma joinLines_take i : forall ls,
  exists t, joinLines ls = joinLines (take i ls) ++ t.
Proof.
  induction i as [|i IH]; intros ls.
  - by exists (joinLines ls).
  - destruct ls as [|l ls]; [by exists []|].
    destruct ls as [|l' ls]. { simpl. exists []. by rewrite take_nil, app_nil_r. }
    destruct (IH (l' :: ls)) as [t Ht].
    cbn [take]. rewrite joinLines_cons by done.
    destruct (take i (l' :: ls)) as [|x xs] eqn:E.
    + simpl. by eexists.
    + rewrite (joinLines_cons l (x :: xs)) by done. rewrite Ht. exists t.
      by rewrite <- !app_assoc.
Qed.

Lemma eqb_eq a b : JStr.eqb a b = true <-> a = b.
Proof.
  revert b. induction a as [|x a IH]; intros [|y b]; simpl; try done.
  rewrite andb_true_iff, N.eqb_eq, IH. split; [by intros [-> ->]|].
  by intros [= -> ->].
Qed.

Lemma eqb_refl a : JStr.eqb a a = true.
Proof. by apply eqb_eq. Qed.

Lemma indexOfLine_none x s : x ∉ s -> indexOfLine x s = -1.
Proof.
  induction s as [|y s IH]; simpl; [done|].
  intros [Hy Hs]%not_elem_of_cons.
  destruct (JStr.eqb y x) eqn:E; [by apply eqb_eq in E|].
  by rewrite IH.
Qed.

Lemma indexOfLine_app x pre post :
  x ∉ pre -> indexOfLine x (pre ++ x :: post) = Z.of_nat (length pre).
Proof.
  induction pre as [|y pre IH]; simpl.
  - by rewrite eqb_refl.
  - intros [Hy Hs]%not_elem_of_cons.
    destruct (JStr.eqb y x) eqn:E; [by apply eqb_eq in E|].
    rewrite IH by done. destruct (_ <? 0) eqn:E2; [apply Z.ltb_lt in E2|]; lia.
Qed.

Lemma indexOfLine_range x s :
  indexOfLine x s = -1 \/ 0 <= indexOfLine x s < Z.of_nat (length s).
Proof.
  induction s as [|y s IH]; simpl; [by left|].
  destruct (JStr.eqb y x); [right; lia|].
  destruct (_ <? 0) eqn:E; [by left|]. apply Z.ltb_ge in E. right. lia.
Qed.

(** The result is what of [s1] comes before some index. *)
Lemma scanTrace_prefix s1 s2 rest : forall i,
  exists n, scanTrace s1 s2 rest i = take n s1.
Proof.
  induction rest as [|x rest IH]; intros i; simpl.
  - exists (length s1). by rewrite take_ge.
  - destruct (_ <? 0); [apply IH|].
    destruct (commonRun _ _); [by exists i|apply IH].
Qed.

Lemma commonRun_refl a : commonRun a a = true.
Proof. induction a as [|x a IH]; simpl; [done|]. by rewrite eqb_refl. Qed.

Lemma commonRun_prefix a t : commonRun (a ++ t) a = true.
Proof.
  induction a as [|x a IH]; simpl; [by destruct t|]. by rewrite eqb_refl.
Qed.

Lemma scanTrace_skip s1 s2 pre : forall rest i,
  Forall (fun x => x ∉ s2) pre ->
  scanTrace s1 s2 (pre ++ rest) i = scanTrace s1 s2 rest (i + length pre).
Proof.
  induction pre as [|x pre IH]; intros rest i Hp; simpl.
  - by rewrite Nat.add_0_r.
  - apply Forall_cons in Hp as [Hx Hp].
    rewrite indexOfLine_none by done. simpl.
    rewrite IH by done. f_equal. lia.
Qed.

(** The comment of the source: with [common], a suffix of [s2], in the
    middle of [s1], what of [s1] comes before it is returned. *)
Lemma removeCommonTrace_common pre x common post other :
  Forall (fun y => y ∉ other ++ x :: common) pre ->
  x ∉ other ->
  removeCommonTrace (pre ++ (x :: common) ++ post) (other ++ x :: common)
  = pre.
Proof.
  intros Hp Hx. unfold removeCommonTrace.
  rewrite scanTrace_skip by done. cbn [app scanTrace].
  rewrite indexOfLine_app by done.
  destruct (_ <? 0) eqn:E; [apply Z.ltb_lt in E; lia|].
  rewrite Nat2Z.id.
  replace (drop (S (length other)) (other ++ x :: common)) with common.
  2:{ change (S (length other)) with (1 + length other)%nat.
      rewrite Nat.add_comm, <- drop_drop, drop_app_length. done. }
  rewrite commonRun_prefix. simpl. by rewrite take_app_length.
Qed.


Lemma removeCommonTrace_self s : removeCommonTrace s s = [].
Proof.
  destruct s as [|x s]; [done|].
  pose proof (removeCommonTrace_common [] x s [] []) as H.
  rewrite app_nil_r in H. apply H; [constructor|apply not_elem_of_nil].
Qed.

Lemma compactStackTrace_prefix s base :
  exists t, s = compactStackTrace (VString s) base ++ t.
Proof.
  unfold compactStackTrace. destruct s as [|c s]; [by exists []|].
  cbn [nonEmpty].
  destruct (nonEmpty base) as [b|]; [|exists []; by rewrite app_nil_r].
  unfold removeCommonTrace.
  destruct (scanTrace_prefix (splitLines (c :: s)) (splitLines b)
              (splitLines (c :: s)) 0) as [n ->].
  destruct (joinLines_take n (splitLines (c :: s))) as [t Ht].
  exists t. by rewrite <- Ht, join_split.
Qed.

Lemma compactStackTrace_self s : compactStackTrace (VString s) (VString s) = [].
Proof.
  unfold compactStackTrace. destruct s as [|c s]; [done|].
  cbn [nonEmpty]. by rewrite removeCommonTrace_self.
Qed.

End TraceFacts.

Section ReportFacts.

Import StackTrace Evaluate.

Variable inspect : value -> Z -> jstring.
Variable fromOffset : Input -> Z -> option (Z * Z).
Variable highlight : Code -> Z -> jstring.

Lemma visit_fold find frames : forall lines ret,
  (fold_left (visit find) frames (lines, ret)).2
  = match ret with
    | FSource s => FSource s
    | FPos n =>
        match head (omap positioned (find <$> frames)) with
        | Some s => FSource s
        | None => FPos n
        end
    | FUndefined => chosen (find <$> frames)
    end.
Proof.
  induction frames as [|frame frames IH]; intros lines ret.
  - by destruct ret.
  - cbn [fold_left fmap list_fmap]. unfold visit at 2. rewrite IH.
    unfold chosen. cbn [omap list_omap].
    destruct ret as [s|n|]; [done| |].
    + destruct (find frame) as [s'|n'|]; cbn [positioned numbered]; try done.
      destruct (start s'); done.
    + destruct (find frame) as [s'|n'|]; cbn [positioned numbered]; try done.
      destruct (start s'); done.
Qed.

Lemma getStackTrace_source find name message frames :
  (getStackTrace find (Pending name message frames)).2
  = chosen (find <$> frames).
Proof.
  unfold getStackTrace, prepare.
  pose proof (visit_fold find frames
                [default (lit "Error") (nonEmpty name) ++ lit ": " ++ message]
                FUndefined) as H.
  destruct (fold_left _ _ _) as [lines ret]. by simpl in *.
Qed.

Lemma report_primitive code origin what ext tag stack random current :
  isObject what = false ->
  report fromOffset highlight code origin (Exn what ext tag) stack random
    current
  = AtRoot (lit "uncaught exception" ++ [c_lf]
            ++ lit "(failed to determine where the error happened)").
Proof.
  intros Ho. unfold report, getErrorPos, deleteProp_tag. rewrite Ho.
  reflexivity.
Qed.

Lemma report_place code origin error name message frames random current :
  (match error with Exn what _ _ => isObject what end) = true ->
  place (report fromOffset highlight code origin error
           (Pending name message frames) random current)
  = match head (omap positioned (Evaluate.find fromOffset code origin <$> frames)) with
    | Some s => Some (sourcePlace s)
    | None =>
        match getErrorPos error with
        | Some p => sourcePlace <$> Script.find fromOffset code p
        | None => None
        end
    end.
Proof.
  destruct error as [what ext tag]. intros Ho. unfold report. rewrite Ho.
  pose proof (getStackTrace_source (Evaluate.find fromOffset code origin)
                name message frames) as H.
  destruct (getStackTrace _ (Pending name message frames)) as [st src].
  cbn [snd] in H. subst src. unfold chosen.
  destruct (head (omap positioned _)) as [s|]; [done|].
  destruct (getErrorPos (Exn what ext tag)) as [p|].
  - destruct (head (omap numbered _)) as [n|];
      by destruct (Script.find fromOffset code p).
  - by destruct (head (omap numbered _)).
Qed.

End ReportFacts.

(** ** Templates and the generated script *)

Section SqueezeFacts.

Import Generate.

Lemma line_terminator_space c : is_line_terminator c = true -> is_space c = true.
Proof.
  unfold is_line_terminator, mem. simpl.
  rewrite !orb_true_iff, !N.eqb_eq.
  intros [->|[->|[->|[->|H]]]]; try reflexivity. discriminate.
Qed.

Lemma squeezeFrom_no_break s : forall pending broken,
  (broken = false -> Forall (fun c => is_line_terminator c = false) pending) ->
  Forall (fun c => is_line_terminator c = false) (squeezeFrom pending broken s).
Proof.
  induction s as [|c s IH]; intros pending broken H; simpl.
  - destruct broken; [constructor|by apply H].
  - destruct (is_space c) eqn:Ec.
    + apply IH. intros [Hb Hc]%orb_false_iff. apply Forall_app. split; [by apply H|].
      by constructor.
    + apply Forall_app. split; [destruct broken; [constructor|by apply H]|].
      constructor; [|apply IH; by intros _].
      destruct (is_line_terminator c) eqn:El; [|done].
      apply line_terminator_space in El. congruence.
Qed.

Lemma squeezeFrom_text s : forall pending broken,
  Forall (fun c => is_space c = true) pending ->
  List.filter (fun c => negb (is_space c)) (squeezeFrom pending broken s)
  = List.filter (fun c => negb (is_space c)) s.
Proof.
  assert (forall p, Forall (fun c => is_space c = true) p ->
                    List.filter (fun c => negb (is_space c)) p = []) as Hnil.
  { induction 1 as [|c p Hc _ IH]; simpl; [done|]. by rewrite Hc. }
  induction s as [|c s IH]; intros pending broken H; simpl.
  - destruct broken; [done|by apply Hnil].
  - destruct (is_space c) eqn:Ec; simpl.
    + apply IH. apply Forall_app. split; [done|by constructor].
    + rewrite List.filter_app. simpl. rewrite Ec. simpl.
      rewrite (IH [] false) by constructor.
      destruct broken; [done|]. by rewrite Hnil.
Qed.

Lemma squeezeFrom_plain s : forall pending,
  Forall (fun c => is_line_terminator c = false) s ->
  squeezeFrom pending false s = pending ++ s.
Proof.
  induction s as [|c s IH]; intros pending H; simpl.
  - by rewrite app_nil_r.
  - apply Forall_cons in H as [Hc Hs]. destruct (is_space c).
    + rewrite Hc. simpl. rewrite IH by done. by rewrite <- app_assoc.
    + by rewrite (IH []).
Qed.

End SqueezeFacts.

Section TranslateFacts.

Import Generate.

Context {X Y St : Type}.
Variable leaf : X -> St -> NItem Y * St.

Lemma ntranslate_items content source st :
  ntranslate leaf (NMk content source) st
  = let '(dst, st') := ntranslateItems leaf content st in
    (NMk dst (Tag source Absent), st').
Proof. reflexivity. Qed.

Lemma leaves_items {Z0} (content : list (option (NItem Z0))) source :
  leaves (NMk content source) = leavesOf content.
Proof.
  simpl. induction content as [|[[x|c]|] l IH]; simpl; by rewrite ?IH.
Qed.

Lemma thread_app l1 l2 st :
  thread leaf (l1 ++ l2) st
  = let '(ys1, s1) := thread leaf l1 st in
    let '(ys2, s2) := thread leaf l2 s1 in (ys1 ++ ys2, s2).
Proof.
  revert st. induction l1 as [|x l1 IH]; intros st; simpl.
  - by destruct (thread leaf l2 st).
  - destruct (leaf x st) as [y s1]. rewrite IH.
    destruct (thread leaf l1 s1) as [ys1 s2].
    by destruct (thread leaf l2 s2).
Qed.

(** A translation goes through the leaves in the order of the text. *)
Lemma ntranslate_thread c : forall st,
  (ntranslate leaf c st).2 = (thread leaf (leaves c) st).2
  /\ leaves (ntranslate leaf c st).1
     = concat (itemLeaves <$> (thread leaf (leaves c) st).1).
Proof.
  induction c as [content source IH] using NCode_nested_ind.
  intros st. rewrite ntranslate_items, leaves_items.
  assert ((ntranslateItems leaf content st).2
          = (thread leaf (leavesOf content) st).2
          /\ leavesOf (ntranslateItems leaf content st).1
             = concat (itemLeaves <$> (thread leaf (leavesOf content) st).1))
    as H.
  { revert st. induction IH as [|i content Hi _ IHl]; intros st; [done|].
    destruct i as [[x|c]|]; cbn [ntranslateItems leavesOf].
    - cbn [thread]. destruct (leaf x st) as [y s1].
      destruct (IHl s1) as [H1 H2].
      destruct (ntranslateItems leaf content s1) as [d s2].
      destruct (thread leaf (leavesOf content) s1) as [ys s3].
      simpl in *. split; [done|]. rewrite H2. by destruct y.
    - rewrite thread_app. destruct (Hi st) as [H1 H2].
      destruct (ntranslate leaf c st) as [c' s1].
      destruct (thread leaf (leaves c) st) as [ys1 s1'].
      simpl in H1, H2. subst s1'.
      destruct (IHl s1) as [H3 H4].
      destruct (ntranslateItems leaf content s1) as [d s2].
      destruct (thread leaf (leavesOf content) s1) as [ys2 s2'].
      simpl in *. split; [done|].
      by rewrite H2, H4, fmap_app, concat_app.
    - destruct (IHl st) as [H1 H2].
      destruct (ntranslateItems leaf content st) as [d s2]. by simpl in *. }
  destruct H as [H1 H2].
  destruct (ntranslateItems leaf content st) as [d s2].
  cbv beta iota. cbn [fst snd] in *. split; [done|].
  by rewrite leaves_items.
Qed.

End TranslateFacts.

Section TextFacts.

Import Generate.

Lemma ntoString_leaves c : ntoString c = concat (leaves c).
Proof.
  induction c as [content source IH] using NCode_nested_ind.
  simpl. induction IH as [|i content Hi _ IHl]; [done|].
  destruct i as [[x|c]|]; simpl.
  - by rewrite IHl.
  - by rewrite Hi, IHl, concat_app.
  - done.
Qed.

Lemma thread_second id l : forall k,
  concat (concat (itemLeaves <$> (thread (second id) l k).1)) = render id l k
  /\ (thread (second id) l k).2 = k + len (render id l k).
Proof.
  induction l as [|x l IH]; intros k.
  - split; [done|]. unfold len. simpl. lia.
  - cbn [thread render].
    destruct x as [s|n|]; cbn [second].
    + destruct (IH (k + len s)) as [H1 H2].
      destruct (thread (second id) l (k + len s)) as [ys s2].
      cbn [fst snd fmap list_fmap itemLeaves concat app] in *.
      rewrite H1. split; [done|]. rewrite H2. unfold len.
      rewrite length_app. lia.
    + destruct (IH (k + len (indexName id n))) as [H1 H2].
      destruct (thread (second id) l (k + len (indexName id n))) as [ys s2].
      cbn [fst snd fmap list_fmap itemLeaves concat app leaves] in *.
      rewrite H1. split; [done|]. rewrite H2. unfold len.
      rewrite length_app. lia.
    + destruct (IH (k + len (StackTrace.decimal k))) as [H1 H2].
      destruct (thread (second id) l (k + len (StackTrace.decimal k)))
        as [ys s2].
      cbn [fst snd fmap list_fmap itemLeaves concat app leaves] in *.
      rewrite H1. split; [done|]. rewrite H2. unfold len.
      rewrite length_app. lia.
Qed.

Lemma render_app id pre post : forall k,
  render id (pre ++ post) k
  = render id pre k ++ render id post (k + len (render id pre k)).
Proof.
  induction pre as [|x pre IH]; intros k; simpl.
  - f_equal. unfold len. simpl. lia.
  - destruct x as [s|n|]; rewrite IH, <- app_assoc; do 3 f_equal;
      unfold len; rewrite length_app; lia.
Qed.

(** The text that the second translation makes of a code. *)
Lemma second_text id c k :
  ntoString (ntranslate (second id) c k).1 = render id (leaves c) k.
Proof.
  rewrite ntoString_leaves.
  destruct (ntranslate_thread (second id) c k) as [_ ->].
  apply thread_second.
Qed.

End TextFacts.

Section GenerateFacts.

Import Generate.

Lemma func_leaves id translated :
  leaves (CODE MString LRelative funcRaw
            [NLeaf (MString id); NSub translated])
  = [MString (lit "(function $compiled("); MString id;
     MString (lit ") {" ++ [c_dquote] ++ lit "use strict" ++ [c_dquote]
              ++ lit ";")]
    ++ leaves translated ++ [MString (lit ";})")].
Proof.
  unfold CODE, funcRaw. rewrite leaves_items. cbn [weave].
  assert (squeeze (lit "(function $compiled(") = lit "(function $compiled(")
    as -> by (vm_compute; reflexivity).
  assert (squeeze (lit ") {" ++ [c_lf] ++ lit "    " ++ [c_dquote]
                   ++ lit "use strict" ++ [c_dquote] ++ lit ";" ++ [c_lf]
                   ++ lit "    ")
          = lit ") {" ++ [c_dquote] ++ lit "use strict" ++ [c_dquote]
            ++ lit ";") as -> by (vm_compute; reflexivity).
  assert (squeeze (lit ";" ++ [c_lf] ++ lit "  })") = lit ";})") as ->
    by (vm_compute; reflexivity).
  reflexivity.
Qed.

Lemma render_wrap id a i b c l :
  render id ([MString a; MString i; MString b] ++ l ++ [MString c]) 0
  = (a ++ i ++ b) ++ render id l (len (a ++ i ++ b)) ++ c.
Proof.
  rewrite render_app. cbn [render]. rewrite render_app. cbn [render].
  rewrite !app_nil_r, <- !app_assoc. do 3 f_equal.

Qed.

(** The text of the script. *)
Lemma generate_text draws source g :
  generate draws source = Some g ->
  ntoString (gen_code g)
  = scriptHead (gen_id g)
    ++ render (gen_id g) (leaves (ntranslate first source genState0).1)
         (len (scriptHead (gen_id g)))
    ++ lit ";})".
Proof.
  unfold generate. fold genState0.
  destruct (ntranslate first source genState0) as [translated st].
  destruct (pickId draws _) as [id|]; [|done].
  pose proof (second_text id
                (CODE MString LRelative funcRaw
                   [NLeaf (MString id); NSub translated]) 0) as Ht.
  destruct (ntranslate (second id) _ 0) as [code k].
  intros [= <-]. cbn [gen_code gen_id fst] in *. rewrite Ht, func_leaves.
  apply render_wrap.
Qed.

Lemma generate_offset draws source g pre post :
  generate draws source = Some g ->
  leaves (ntranslate first source genState0).1 = pre ++ MOffset :: post ->
  exists before after,
    ntoString (gen_code g)
    = before ++ StackTrace.decimal (len before) ++ after
    /\ before = scriptHead (gen_id g)
                ++ render (gen_id g) pre (len (scriptHead (gen_id g))).
Proof.
  intros Hg Hl. rewrite (generate_text _ _ _ Hg), Hl.
  rewrite render_app. cbn [render].
  eexists _, _. split; [|reflexivity].
  rewrite <- !app_assoc. do 2 f_equal.
  assert (len (scriptHead (gen_id g)
               ++ render (gen_id g) pre (len (scriptHead (gen_id g))))
          = len (scriptHead (gen_id g))
            + len (render (gen_id g) pre (len (scriptHead (gen_id g))))) as ->
    by (unfold len; rewrite length_app; lia).
  reflexivity.
Qed.

Lemma pickId_fresh draws tmp id :
  pickId draws tmp = Some id -> includes id tmp = false.
Proof.
  induction draws as [|d draws IH]; cbn [pickId]; [done|].
  destruct (includes (lit "$" ++ d) tmp) eqn:E; [exact IH|]. by intros [= <-].
Qed.

End GenerateFacts.


Section NumberingFacts.

Import Generate.

Lemma mapGet_snoc x m k i :
  mapGet x (m ++ [(k, i)])
  = match mapGet x m with
    | Some j => Some j
    | None => if decide (k = x) then Some i else None
    end.
Proof.
  induction m as [|[k' j] m IH]; simpl; [done|].
  by destruct (decide (k' = x)).
Qed.

Lemma numbered_ok_initial : numbered_ok genState0.
Proof. split; [done|]. repeat split; intros; done. Qed.

Lemma numbered_ok_NoDup st : numbered_ok st -> NoDup (args st).
Proof.
  intros (_ & _ & _ & H3). apply NoDup_alt. intros n n' x Hn Hn'.
  apply H3 in Hn, Hn'. rewrite Hn in Hn'. injection Hn' as Hn'. lia.
Qed.

Lemma numbered_ok_args st x :
  numbered_ok st -> x ∈ args st -> isObjectItem x = true.
Proof.
  intros (_ & H1 & _ & H3) [n Hn]%list_elem_of_lookup.
  destruct (H1 _ _ (H3 _ _ Hn)) as [(a & -> & Hr)|(a & -> & _)]; [lia|done].
Qed.

Lemma grows_refl st : grows st st.
Proof. by intros z i. Qed.

Lemma grows_trans s1 s2 s3 : grows s1 s2 -> grows s2 s3 -> grows s1 s3.
Proof. intros H1 H2 z i Hz. by apply H2, H1. Qed.

(** A variable that the map does not have. *)
Lemma number_variable a st :
  numbered_ok st ->
  mapGet (IVariable a) (argMap st) = None ->
  numbered_ok {| vars := vars st + 1;
                 argMap := argMap st ++ [(IVariable a, - (vars st + 1))];
                 args := args st; contents := contents st |}.
Proof.
  intros (H0 & H1 & H2 & H3) Eg. split; [simpl; lia|].
  cbn [argMap args vars]. split; [|split].
  - intros z i. rewrite mapGet_snoc.
    destruct (mapGet z (argMap st)) as [j|] eqn:Ez.
    + intros [= Hi]; subst. destruct (H1 _ _ Ez) as [(b & -> & Hr)|Hr].
      * left. exists b. split; [done|lia].
      * by right.
    + destruct (decide _) as [<-|]; [|done]. intros [= Hi]; subst.
      left. exists a. split; [done|lia].
  - intros z w i. rewrite !mapGet_snoc.
    destruct (mapGet z (argMap st)) as [j|] eqn:Ez,
             (mapGet w (argMap st)) as [j'|] eqn:Ew.
    + intros [= Hi] [= Hj]; subst. by eapply H2.
    + intros [= Hi]; subst. destruct (decide _) as [<-|]; [|done].
      intros [= Hi]; subst.
      destruct (H1 _ _ Ez) as [(b & -> & Hr)|(b & -> & Hr & _)]; lia.
    + destruct (decide _) as [<-|]; [|done]. intros [= Hi] [= Hj]; subst.
      destruct (H1 _ _ Ew) as [(b & -> & Hr)|(b & -> & Hr & _)]; lia.
    + destruct (decide _) as [<-|]; [|done].
      destruct (decide _) as [<-|]; done.
  - intros n z Hn. rewrite mapGet_snoc. by rewrite (H3 _ _ Hn).
Qed.

(** An object that the map does not have. *)
Lemma number_object a st :
  numbered_ok st ->
  mapGet (IObject a) (argMap st) = None ->
  numbered_ok {| vars := vars st;
                 argMap := argMap st
                           ++ [(IObject a, Z.of_nat (length (args st)))];
                 args := args st ++ [IObject a]; contents := contents st |}.
Proof.
  intros (H0 & H1 & H2 & H3) Eg. split; [done|].
  cbn [argMap args vars]. split; [|split].
  - intros z i. rewrite mapGet_snoc.
    destruct (mapGet z (argMap st)) as [j|] eqn:Ez.
    + intros [= Hi]; subst. destruct (H1 _ _ Ez) as [Hr|(b & -> & Hr & Hl)].
      * by left.
      * right. exists b. split; [done|]. split; [done|].
        by apply lookup_app_l_Some.
    + destruct (decide _) as [<-|]; [|done]. intros [= Hi]; subst.
      right. exists a. split; [done|]. split; [lia|].
      rewrite Nat2Z.id. by rewrite lookup_app_r, Nat.sub_diag.
  - intros z w i. rewrite !mapGet_snoc.
    destruct (mapGet z (argMap st)) as [j|] eqn:Ez,
             (mapGet w (argMap st)) as [j'|] eqn:Ew.
    + intros [= Hi] [= Hj]; subst. by eapply H2.
    + intros [= Hi]; subst. destruct (decide _) as [<-|]; [|done].
      intros [= Hi]; subst.
      destruct (H1 _ _ Ez) as [(b & -> & Hr)|(b & -> & Hr & Hl)]; [lia|].
      apply lookup_lt_Some in Hl. lia.
    + destruct (decide _) as [<-|]; [|done]. intros [= Hi] [= Hj]; subst.
      destruct (H1 _ _ Ew) as [(b & -> & Hr)|(b & -> & Hr & Hl)]; [lia|].
      apply lookup_lt_Some in Hl. lia.
    + destruct (decide _) as [<-|]; [|done].
      destruct (decide _) as [<-|]; done.
  - intros n z Hn. rewrite mapGet_snoc.
    apply lookup_app_Some in Hn as [Hn|[Hle Hn]].
    + by rewrite (H3 _ _ Hn).
    + apply list_lookup_singleton_Some in Hn as [Hn <-].
      rewrite Eg, decide_True by done. f_equal. lia.
Qed.

(** One step of the first translation. *)
Lemma first_step x st :
  numbered_ok st ->
  numbered_ok (first x st).2
  /\ grows st (first x st).2
  /\ (forall m, grows (first x st).2 m ->
                (first x st).1 = NLeaf (nameIn (argMap m) x))
  /\ (forall z, z ∈ args (first x st).2 -> z ∈ args st \/ z = x)
  /\ (isObjectItem x || isVariableItem x = true ->
      is_Some (mapGet x (argMap (first x st).2))).
Proof.
  intros Hok.
  destruct x as [s| |j|b| | |a|a]; cbn [first emit fst snd];
    try (split; [exact Hok|]; split; [intros z i Hz; exact Hz|];
         split; [done|]; split; [auto|done]).
  - unfold indexOfItem.
    destruct (mapGet (IVariable a) (argMap st)) as [i|] eqn:Eg;
      cbn [fst snd argMap args].
    + split; [done|]. split; [apply grows_refl|]. split; [|split; [auto|]].
      * intros m Hm. cbn [nameIn]. by rewrite (Hm _ _ Eg).
      * intros _. by rewrite Eg.
    + split; [by apply number_variable|]. split; [|split; [|split; [auto|]]].
      * intros z i Hz. cbn [argMap]. rewrite mapGet_snoc. by rewrite Hz.
      * intros m Hm. cbn [nameIn]. erewrite Hm; [done|].
        cbn [argMap]. rewrite mapGet_snoc, Eg. by rewrite decide_True.
      * intros _. rewrite mapGet_snoc, Eg. by rewrite decide_True.
  - unfold indexOfItem.
    destruct (mapGet (IObject a) (argMap st)) as [i|] eqn:Eg;
      cbn [fst snd argMap args].
    + split; [done|]. split; [apply grows_refl|]. split; [|split; [auto|]].
      * intros m Hm. cbn [nameIn]. by rewrite (Hm _ _ Eg).
      * intros _. by rewrite Eg.
    + split; [by apply number_object|]. split; [|split; [|split]].
      * intros z i Hz. cbn [argMap]. rewrite mapGet_snoc. by rewrite Hz.
      * intros m Hm. cbn [nameIn]. erewrite Hm; [done|].
        cbn [argMap]. rewrite mapGet_snoc, Eg. by rewrite decide_True.
      * intros z [Hz|Hz%list_elem_of_singleton]%elem_of_app; auto.
      * intros _. rewrite mapGet_snoc, Eg. by rewrite decide_True.
Qed.

(** The first translation of leaves, one after the other. *)
Lemma thread_first l : forall st,
  numbered_ok st ->
  numbered_ok (thread first l st).2
  /\ grows st (thread first l st).2
  /\ (thread first l st).1
     = NLeaf ∘ nameIn (argMap (thread first l st).2) <$> l
  /\ (forall z, z ∈ args (thread first l st).2 -> z ∈ args st \/ z ∈ l)
  /\ (forall x, x ∈ l -> isObjectItem x || isVariableItem x = true ->
                is_Some (mapGet x (argMap (thread first l st).2))).
Proof.
  induction l as [|x l IH]; intros st Hok; cbn [thread].
  - split; [done|]. split; [apply grows_refl|]. split; [done|].
    split; [auto|]. intros x Hx. by apply elem_of_nil in Hx.
  - destruct (first_step x st Hok) as (Hok1 & Hg1 & Hy & Ha1 & Hs1).
    destruct (first x st) as [y s1]. cbn [fst snd] in *.
    destruct (IH s1 Hok1) as (Hok2 & Hg2 & Hys & Ha2 & Hs2).
    destruct (thread first l s1) as [ys s2]. cbn [fst snd] in *.
    split; [done|]. split; [by eapply grows_trans|]. split; [|split].
    + cbn [fmap list_fmap]. rewrite <- Hys. f_equal. by apply Hy.
    + intros z Hz. destruct (Ha2 z Hz) as [Hz1|Hz1].
      * destruct (Ha1 z Hz1) as [Hz2|Hz2]; [by left|].
        subst z. right. by left.
      * right. by right.
    + intros w Hw Hk. apply elem_of_cons in Hw as [Hw|Hw].
      * subst w. destruct (Hs1 Hk) as [i Hi]. exists i. by apply Hg2.
      * by apply Hs2.
Qed.

End NumberingFacts.

Section ScriptFacts.

Import Generate.

Lemma emit_contents l : forall st,
  contents (thread first l st).2
  = contents st ++ omap textOf (nameIn (argMap (thread first l st).2) <$> l).
Proof.
  induction l as [|x l IH]; intros st; cbn [thread].
  - by rewrite app_nil_r.
  - pose proof (IH (first x st).2) as H.
    assert (contents (first x st).2
            = contents st ++ match textOf (nameIn [] x) with
                             | Some s => [s]
                             | None => []
                             end
            /\ forall m, textOf (nameIn m x) = textOf (nameIn [] x))
      as [Hc Hm].
    { destruct x as [s| |j|b| | |a|a]; cbn [first emit snd contents nameIn textOf];
        rewrite ?app_nil_r; try done;
        unfold indexOfItem; split; try done;
        by destruct (mapGet _ (argMap st)). }
    destruct (first x st) as [y s1]. cbn [fst snd] in *.
    destruct (thread first l s1) as [ys s2]. cbn [fst snd] in *.
    rewrite H, Hc, <- app_assoc. f_equal. cbn [fmap list_fmap].
    change (omap textOf (nameIn (argMap s2) x
                         :: (nameIn (argMap s2) <$> l)))
      with (match textOf (nameIn (argMap s2) x) with
            | Some s => s :: omap textOf (nameIn (argMap s2) <$> l)
            | None => omap textOf (nameIn (argMap s2) <$> l)
            end).
    rewrite (Hm (argMap s2)). by destruct (textOf (nameIn [] x)).
Qed.

(** The first translation of a code. *)
Lemma first_code source :
  numbered_ok (ntranslate first source genState0).2
  /\ leaves (ntranslate first source genState0).1
     = nameIn (argMap (ntranslate first source genState0).2) <$> leaves source
  /\ (forall z, z ∈ args (ntranslate first source genState0).2 ->
                z ∈ leaves source)
  /\ (forall x, x ∈ leaves source ->
                isObjectItem x || isVariableItem x = true ->
                is_Some (mapGet x
                           (argMap (ntranslate first source genState0).2)))
  /\ contents (ntranslate first source genState0).2
     = omap textOf
         (nameIn (argMap (ntranslate first source genState0).2)
          <$> leaves source).
Proof.
  destruct (ntranslate_thread first source genState0) as [Hs Hl].
  destruct (thread_first (leaves source) genState0 numbered_ok_initial)
    as (Hok & _ & Hy & Ha & Hm).
  pose proof (emit_contents (leaves source) genState0) as Hc.
  rewrite Hs. split; [done|]. split; [|split; [|split; [exact Hm|exact Hc]]].
  - rewrite Hl, Hy.
    assert (forall m (l : list ScriptItem),
              concat (itemLeaves <$> (NLeaf ∘ nameIn m <$> l))
              = nameIn m <$> l) as Hflat.
    { intros m l. induction l as [|x l IH]; [done|].
      rewrite !fmap_cons. cbn [concat itemLeaves compose app]. f_equal.
      exact IH. }
    apply Hflat.
  - intros z Hz. destruct (Ha z Hz) as [H|H]; [|done].
    by apply elem_of_nil in H.
Qed.

(** The script that [generate] gives. *)
Lemma generate_script draws source g :
  generate draws source = Some g ->
  exists st,
    st = (ntranslate first source genState0).2
    /\ gen_args g = args st
    /\ pickId draws (concat (contents st)) = Some (gen_id g)
    /\ ntoString (gen_code g)
       = scriptText (gen_id g) (argMap st) (leaves source).
Proof.
  intros Hg. exists (ntranslate first source genState0).2.
  split; [done|]. pose proof (generate_text _ _ _ Hg) as Ht.
  destruct (first_code source) as (_ & Hl & _). rewrite Hl in Ht.
  split; [|split; [|exact Ht]].
  - revert Hg. unfold generate. fold genState0.
    destruct (ntranslate first source genState0) as [translated st].
    destruct (pickId draws _) as [id|]; [|done].
    destruct (ntranslate (second id) _ 0) as [code k]. by intros [= <-].
  - revert Hg. unfold generate. fold genState0.
    destruct (ntranslate first source genState0) as [translated st].
    destruct (pickId draws _) as [id|] eqn:E; [|done].
    destruct (ntranslate (second id) _ 0) as [code k]. by intros [= <-].
Qed.

End ScriptFacts.

Section NameFacts.

Import Generate.

Lemma textOf_nameIn m (l : list ScriptItem) :
  omap textOf (nameIn m <$> l) = omap textOf (nameIn [] <$> l).
Proof.
  induction l as [|x l IH]; [done|]. rewrite !fmap_cons.
  change (omap textOf (nameIn m x :: (nameIn m <$> l)))
    with (match textOf (nameIn m x) with
          | Some s => s :: omap textOf (nameIn m <$> l)
          | None => omap textOf (nameIn m <$> l)
          end).
  change (omap textOf (nameIn [] x :: (nameIn [] <$> l)))
    with (match textOf (nameIn [] x) with
          | Some s => s :: omap textOf (nameIn [] <$> l)
          | None => omap textOf (nameIn [] <$> l)
          end).
  rewrite IH. by destruct x.
Qed.

(** The loop that draws the name stops at the first draw that the text
    does not include. *)
Lemma pickId_first draws tmp id :
  pickId draws tmp = Some id ->
  exists pre d post,
    draws = pre ++ d :: post /\ id = lit "$" ++ d
    /\ includes id tmp = false
    /\ Forall (fun e => includes (lit "$" ++ e) tmp = true) pre.
Proof.
  induction draws as [|d draws IH]; cbn [pickId]; [done|].
  destruct (includes (lit "$" ++ d) tmp) eqn:E.
  - intros H. destruct (IH H) as (pre & e & post & -> & -> & Hn & Hp).
    exists (d :: pre), e, post. repeat split; try done. by constructor.
  - intros [= <-]. exists [], d, draws. repeat split; done.
Qed.

End NameFacts.

(** * Further properties *)

(** X1.  A document in which no at-rule is an [@js] at-rule and the text
    [@js] occurs in no params, selector, property name or value compiles to
    the empty code, and the function that [compile] returns for the empty
    code leaves the root as it is. *)
Theorem X1_plain_document_untouched
    (Function_ : jstring -> option ParseError)
    (acorn : option (jstring -> option ParseError))
    (replaceImport : Code -> option Code)
    (globals : GlobalScope -> gmap GlobalScope GlobalBinds -> GlobalBinds)
    (selectors : jstring -> list jstring)
    (offsetAt : option Source -> Z -> Z)
    (inspect : value -> Z -> jstring)
    (call : fid -> option value -> ending)
    (fromOffset : Input -> Z -> option (Z * Z))
    (Env : Type) (bindGlobals : Env -> GlobalBinds -> Env)
    (runBlock : Iterate Env -> Env -> Fragment -> option Program
                -> option (Env * list value * Completion))
    (runValue : Iterate Env -> Env -> Fragment -> option (Env * ending))
    (root : Root) (fuel : nat) (e0 : Env)
    (H : forallb plain (root_nodes root) = true) :
  exists s,
    compile Function_ acorn replaceImport globals selectors offsetAt root
    = Good PEmpty s
    /\ run inspect call fromOffset Env bindGlobals runBlock runValue fuel root
         PEmpty e0
       = Some (Ok root).
Proof.
  destruct (plain_compile Function_ acorn replaceImport globals selectors
              offsetAt root H) as [s Hs].
  exists s. split; [done|reflexivity].
Qed.

Lemma X1_witness :
  exists s,
    Demo.compile Demo.twoFiles = Good PEmpty s
    /\ Demo.run 0 Demo.twoFiles PEmpty = Some (Ok Demo.twoFiles).
Proof.
  exact (X1_plain_document_untouched Demo.Function_ None Some Demo.globals
           Demo.selectors Demo.offsetAt Demo.inspect Demo.call
           Demo.fromOffset ()
           (fun e _ => e) Demo.runBlock Demo.runValue Demo.twoFiles 0 tt
           eq_refl).
Defined.

(** X2.  The marker of a declaration value: a value is marked when it
    starts with [@js] followed by whitespace, by a CSS meta character, or
    by nothing; the expression is what follows the marker and all of that
    whitespace.  A value that starts with [@js] and goes on with another
    code unit is not marked. *)
Theorem X2_marked_value (v : jstring) :
  match markedValue v with
  | Some n =>
      exists ws,
        v = atjs ++ ws ++ drop n v
        /\ n = (3 + length ws)%nat
        /\ Forall (fun c => is_space c = true) ws
        /\ (forall c, drop n v !! 0%nat = Some c ->
            is_space c = false /\ (ws = [] -> is_css_meta c = true))
  | None =>
      startsWith atjs v = false
      \/ exists c, v !! 3%nat = Some c
                   /\ is_space c = false /\ is_css_meta c = false
  end.
Proof.
  destruct (markedValue v) as [n|] eqn:E.
  - by apply markedValue_some.
  - by apply markedValue_none.
Qed.

(** X3.  A declaration value that starts with [@js] and goes on with a code
    unit that is neither whitespace nor a CSS meta character (as in
    [color: @jsx]) is an invalid use of the marker: the compilation fails
    with that error at the offset of the value, when the property name
    holds no marker. *)
Theorem X3_marked_word_rejected
    (Function_ : jstring -> option ParseError)
    (acorn : option (jstring -> option ParseError))
    (replaceImport : Code -> option Code)
    (globals : GlobalScope -> gmap GlobalScope GlobalBinds -> GlobalBinds)
    (selectors : jstring -> list jstring)
    (offsetAt : option Source -> Z -> Z)
    (prop : jstring) (c : N) (rest : jstring) (raws : Raws)
    (source : option Source) (ctx : CompileContext) (s : CState)
    (Hp : includes atjs prop = false)
    (Hc : is_space c = false) (Hm : is_css_meta c = false) :
  compileChild Function_ acorn replaceImport globals selectors offsetAt
    (Decl prop (atjs ++ c :: rest) raws source) ctx s
  = Bad (invalidUse source (valueOffset prop raws)) s.
Proof. by apply marked_word_invalid. Qed.

Lemma X3_witness :
  Demo.compileChild Samples.jsx Demo.context1 Demo.state0
  = Bad (invalidUse (Demo.at_ "1.css" 0) 7) Demo.state0.
Proof.
  exact (X3_marked_word_rejected Demo.Function_ None Some Demo.globals
           Demo.selectors Demo.offsetAt (lit "color") 120%N [] noRaws
           (Demo.at_ "1.css" 0) Demo.context1 Demo.state0
           eq_refl eq_refl eq_refl).
Defined.

(** X4.  The position that [handleError] hides on an error is the one of
    the innermost guard: a second [handleError] changes nothing.
    [getErrorPos] reads back the position that [handleError] gave to an
    object that takes the property and had none, and reads nothing from a
    value that is not an object.  The position of an [Unexpected] error
    made with a position is kept by [handleError]. *)
Theorem X4_innermost_position :
  (forall e p1 p2, handleError (handleError e p1) p2 = handleError e p1)
  /\ (forall what p,
        isObject what = true ->
        getErrorPos (handleError (Exn what true None) p) = Some p)
  /\ (forall what ext tag p,
        isObject what = false ->
        getErrorPos (handleError (Exn what ext tag) p) = None)
  /\ (forall obj p q,
        handleError (Unexpected_create obj (Some p)) q
        = Unexpected_create obj (Some p)).
Proof.
  split; [apply handleError_idem|].
  split; [apply getErrorPos_handleError|].
  split; [apply getErrorPos_primitive|]. reflexivity.
Qed.

Lemma X4_witness :
  getErrorPos (handleError (Exn (VObject None) true None) 7) = Some 7.
Proof.
  exact (proj1 (proj2 X4_innermost_position) (VObject None) 7 eq_refl).
Defined.

(** X5.  [interpretUnknown] ends with [semicolon: true] when it succeeds;
    so in the nodes that [interpretObject] makes, the raws of an at-rule or
    a rule built around an interpretable value have [semicolon] true, and
    the raws of the other nodes have none. *)
Theorem X5_block_semicolon
    (inspect : value -> Z -> jstring)
    (fromOffset : Input -> Z -> option (Z * Z))
    (obj : list (jstring * value)) (c : Context) (ns : list ChildNode)
    (c' : Context)
    (H : interpretObject inspect fromOffset obj c = Ok (ns, c')) :
  Forall2 (fun kv n => semicolon (node_raws n)
                       = if isInterpretable kv.2 then Some true else None)
    obj ns
  /\ forall v c0 ms r,
       interpretUnknown inspect fromOffset v c0 = Ok (ms, r) ->
       semi r = Some true.
Proof.
  split; [by eapply interpretObject_semi|]. apply interpretUnknown_semi.
Qed.

Lemma X5_witness :
  Forall2 (fun kv n => semicolon (node_raws n)
                       = if isInterpretable kv.2 then Some true else None)
    Demo.object Demo.objectNodes
  /\ forall v c0 ms r,
       interpretUnknown Demo.inspect Demo.fromOffset v c0 = Ok (ms, r) ->
       semi r = Some true.
Proof.
  exact (X5_block_semicolon Demo.inspect Demo.fromOffset Demo.object newContext
           Demo.objectNodes newContext eq_refl).
Defined.

(** X6.  Inside a value that [interpretUnknown] walks nothing is skipped:
    an item of an iterable that is not interpretable ([undefined] and
    functions included), met after items that are nodes, makes the walk
    fail with the [Unexpected] error of that item, positioned by the active
    region; so does a value that is not interpretable itself. *)
Theorem X6_nested_item_rejected
    (inspect : value -> Z -> jstring)
    (fromOffset : Input -> Z -> option (Z * Z))
    (ns : list ChildNode) (v : value) (post : list value) (fin : ending)
    (c : Context)
    (H : isInterpretable v = false) :
  interpretUnknown inspect fromOffset
    (VIterable ((VNode <$> ns) ++ v :: post) fin) c
  = Err (Unexpected_create v (bj_pos <$> ctx_source c))
  /\ interpretUnknown inspect fromOffset v c
     = Err (Unexpected_create v (bj_pos <$> ctx_source c)).
Proof.
  unfold interpretUnknown, interpretUnknown_body. split.
  - rewrite interp_iterable. by rewrite interpItems_reject.
  - by rewrite interp_reject.
Qed.

Lemma X6_witness :
  interpretUnknown Demo.inspect Demo.fromOffset Samples.withUndefined newContext
  = Err (Unexpected_create VUndefined None)
  /\ interpretUnknown Demo.inspect Demo.fromOffset VUndefined newContext
     = Err (Unexpected_create VUndefined None).
Proof.
  exact (X6_nested_item_rejected Demo.inspect Demo.fromOffset
           [decl (lit "color") (lit "red")] VUndefined [] (Done VUndefined)
           newContext eq_refl).
Defined.

(** X7.  The main loop yields what [interpretUnknown] makes: for the items
    of an iterable that [interpretUnknown] turns into the nodes [ns], the
    main loop run on the iterator of these items yields the same nodes and
    returns, within one turn for each value met and one more. *)
Theorem X7_main_loop_walk
    (inspect : value -> Z -> jstring)
    (call : fid -> option value -> ending)
    (fromOffset : Input -> Z -> option (Z * Z))
    (items : list value) (e : ending) (ns : list ChildNode)
    (r : ContainerRawsEnd) (k : nat)
    (H : interpretUnknown inspect fromOffset (VIterable items e) newContext
         = Ok (ns, r)) :
  exists raws,
    mainLoop inspect call fromOffset (turnsOf items + 1 + k) (iterator items e)
    = Some (Ok (ns, raws)).
Proof.
  unfold interpretUnknown, interpretUnknown_body in H.
  rewrite interp_iterable in H.
  destruct (interpItems inspect fromOffset items e newContext) as [[ns' c']|x] eqn:E;
    [|done].
  injection H as <- _. by eapply mainLoop_walk.
Qed.

Lemma X7_witness :
  exists raws,
    mainLoop Demo.inspect Demo.call Demo.fromOffset 4
      (iterator Samples.nested (Done VUndefined))
    = Some (Ok (Samples.nestedNodes, raws)).
Proof.
  exact (X7_main_loop_walk Demo.inspect Demo.call Demo.fromOffset Samples.nested
           (Done VUndefined) Samples.nestedNodes {| semi := Some true |} 0
           eq_refl).
Defined.

(** X8.  [mergeRaws] is associative, the raws without [semicolon] are
    neutral on both sides, and a [semicolon] that is true on either side
    stays true. *)
Theorem X8_mergeRaws_monoid :
  (forall r1 r2 r3,
     mergeRaws (mergeRaws r1 r2) r3 = mergeRaws r1 (mergeRaws r2 r3))
  /\ (forall r, mergeRaws {| semi := None |} r = r)
  /\ (forall r, mergeRaws r {| semi := None |} = r)
  /\ (forall r, semi (mergeRaws {| semi := Some true |} r) = Some true)
  /\ (forall r, semi (mergeRaws r {| semi := Some true |}) = Some true).
Proof.
  split; [apply mergeRaws_assoc|]. split; [apply mergeRaws_empty_l|].
  split; [apply mergeRaws_empty_r|]. split; [apply mergeRaws_true_l|].
  apply mergeRaws_true_r.
Qed.

(** X9.  [stripRaws] leaves no [before] and no [after] that is made of
    whitespace only (the empty string included), and stripping twice is
    stripping once. *)
Theorem X9_stripRaws_idempotent (n : ChildNode) :
  stripRaws (stripRaws n) = stripRaws n
  /\ blank (before (node_raws (stripRaws n))) = false
  /\ blank (after (node_raws (stripRaws n))) = false
  /\ blank (Some []) = true.
Proof.
  split; [apply stripRaws_idem|]. split; [apply blank_strip_before|].
  split; [apply blank_strip_after|]. reflexivity.
Qed.

(** X10.  The source map has one entry for each code unit of the text of
    the code, whatever the code: [SourceMap.find] answers nothing for a
    position that is negative or not less than the length of the text. *)
Theorem X10_source_map_bounds
    (fromOffset : Input -> Z -> option (Z * Z)) (c : Code) :
  position (force c) = len (toString c)
  /\ length (entries (force c)) = length (toString c)
  /\ forall pos, is_Some (find fromOffset c pos) ->
                 0 <= pos < len (toString c).
Proof.
  destruct (force_length c) as [H1 H2]. split; [done|]. split; [done|].
  intros pos. apply find_in_range.
Qed.

(** X11.  The code that [userCode] makes of a fragment maps a position
    inside the fragment to the document: to the start offset of the node,
    plus the offset of the fragment in the node, plus the position, with
    the line and column that postcss gives for that offset (or to the
    source of the node as it is when postcss gives none). *)
Theorem X11_fragment_position
    (fromOffset : Input -> Z -> option (Z * Z))
    (s : Source) (offset : Z) (src : jstring) (pos : Z)
    (H : 0 <= pos < len src) :
  find fromOffset (fragmentCode (Some s) offset src) pos
  = let o := offset + pos + default 0 (source_start_offset (Some s)) in
    match fromOffset (input s) o with
    | None => Some s
    | Some (l, c) =>
        Some {| input := input s;
                start := Some {| Postcss.offset := o; line := l; column := c |};
                finish := finish s |}
    end.
Proof. by apply find_fragment. Qed.

Lemma X11_witness :
  find Demo.fromOffset (fragmentCode (Some Samples.source5) 4 (lit "a+b")) 2
  = Some {| input := Demo.input_of "1.css";
            start := Some {| offset := 11; line := 1; column := 12 |};
            finish := None |}.
Proof.
  refine (X11_fragment_position Demo.fromOffset Samples.source5 4 (lit "a+b") 2
            _).
  split; [discriminate|reflexivity].
Defined.

(** X12.  A hole of the content of a code (a sparse array) changes neither
    the text of the code nor its source map. *)
Theorem X12_holes_ignored (pre post : list (option Script.Item))
    (source : Loc) :
  toString (MkCode (pre ++ None :: post) source)
  = toString (MkCode (pre ++ post) source)
  /\ force (MkCode (pre ++ None :: post) source)
     = force (MkCode (pre ++ post) source).
Proof. split; [apply hole_toString|apply hole_force]. Qed.

(** X13.  The blocks that [compileContainerChildren] makes of the children
    of a container: there is a first block, which has no prologue, and
    every block after it has the prologue of a file scope and a body that
    is not empty.  So the first block is the only one whose body can be
    empty, the only one that [compileContainer] can pass over. *)
Theorem X13_blocks_shape
    (Function_ : jstring -> option ParseError)
    (acorn : option (jstring -> option ParseError))
    (replaceImport : Code -> option Code)
    (globals : GlobalScope -> gmap GlobalScope GlobalBinds -> GlobalBinds)
    (selectors : jstring -> list jstring)
    (offsetAt : option Source -> Z -> Z)
    (nodes : list ChildNode) (ctx : CompileContext) (s : CState)
    (blocks : list Block) (s' : CState)
    (H : compileContainerChildren globals
           (compileChild Function_ acorn replaceImport globals selectors
              offsetAt) nodes ctx s
         = Good blocks s') :
  wellformed blocks.
Proof. by eapply compileContainerChildren_shape. Qed.

Lemma X13_witness : wellformed Samples.twoFilesBlocks.
Proof.
  exact (X13_blocks_shape Demo.Function_ None Some Demo.globals
           Demo.selectors Demo.offsetAt (root_nodes Demo.twoFiles)
           {| globalScope := Some []; inAtJs := false |} Demo.state0
           Samples.twoFilesBlocks _ eq_refl).
Defined.

(** X14.  The compilation of a root whose first child is of a file scope
    other than the empty name calls the globals provider for that scope
    first, with the empty environment, and what the provider answers is
    what the environment holds for the scope when the compilation ends,
    whether it succeeds or fails. *)
Theorem X14_first_scope_loaded
    (Function_ : jstring -> option ParseError)
    (acorn : option (jstring -> option ParseError))
    (replaceImport : Code -> option Code)
    (globals : GlobalScope -> gmap GlobalScope GlobalBinds -> GlobalBinds)
    (selectors : jstring -> list jstring)
    (offsetAt : option Source -> Z -> Z)
    (root : Root) (n : ChildNode) (rest : list ChildNode)
    (Hr : root_nodes root = n :: rest)
    (Hf : source_file (node_source n) <> Some []) :
  globalEnv (state_of (compile Function_ acorn replaceImport globals selectors
                         offsetAt root))
    !! source_file (node_source n)
  = Some (globals (source_file (node_source n)) ∅).
Proof. by eapply first_scope_loaded. Qed.

Lemma X14_witness :
  globalEnv (state_of (Demo.compile Demo.twoFiles)) !! Some (lit "a.css")
  = Some [].
Proof.
  exact (X14_first_scope_loaded Demo.Function_ None Some Demo.globals
           Demo.selectors Demo.offsetAt Demo.twoFiles _ _ eq_refl
           ltac:(discriminate)).
Defined.

(** X15.  A throw leaves every block of the container: when an element of
    a block throws, the elements after it in the block and the blocks
    after it are not run, and the container ends with that error after
    what was yielded before. *)
Theorem X15_throw_leaves_all
    (inspect : value -> Z -> jstring)
    (Env : Type) (bindGlobals : Env -> GlobalBinds -> Env)
    (runBlock : Iterate Env -> Env -> Fragment -> option Program
                -> option (Env * list value * Completion))
    (runValue : Iterate Env -> Env -> Fragment -> option (Env * ending))
    (runProgram : Iterate Env)
    (inAtJs : bool) (b1 : list Block) (prologue : option GlobalBinds)
    (pre : list Element) (e : Element) (post : list Element)
    (b2 : list Block) (m : Machine Env)
    (ys0 : list value) (m0 : Machine Env) (f0 : Flow)
    (ys : list value) (m1 : Machine Env)
    (ys1 : list value) (m2 : Machine Env) (x : exn)
    (Hb1 : execBlocks inspect Env bindGlobals runBlock runValue runProgram
        inAtJs b1 m
           = Some (ys0, m0, f0))
    (Hf0 : forall y, f0 <> Raise y)
    (Hpre : execElements inspect Env runBlock runValue runProgram inAtJs pre
              (enter Env bindGlobals prologue m0)
            = Some (ys, m1, Next))
    (He : execElement inspect Env runBlock runValue runProgram inAtJs e m1
          = Some (ys1, m2, Raise x)) :
  execBlocks inspect Env bindGlobals runBlock runValue runProgram inAtJs
    (b1 ++ MkBlock prologue (pre ++ e :: post) :: b2) m
  = Some (ys0 ++ ys ++ ys1, m2, Raise x).
Proof. by eapply throw_leaves_all. Qed.

Lemma X15_witness :
  Demo.execBlocks false
    ([] ++ MkBlock None ([] ++ Samples.throwElement :: Demo.sampPost)
        :: Samples.twoFilesBlocks)
    Demo.machine0
  = Some ([] ++ [] ++ Demo.throwYields, Demo.throwMachine,
          Raise Demo.testfail).
Proof.
  exact (X15_throw_leaves_all Demo.inspect () (fun e _ => e) Demo.runBlock
           Demo.runValue
           (Demo.runProgram 10) false [] None [] Samples.throwElement
           Demo.sampPost Samples.twoFilesBlocks Demo.machine0 []
           Demo.machine0 Next [] Demo.machine0 Demo.throwYields
           Demo.throwMachine Demo.testfail eq_refl
           ltac:(discriminate) eq_refl eq_refl).
Defined.

(** X16.  The slices and the tail that [compileSelector] keeps of a
    selector, with each pseudo-class [:@js(expression)] back between them,
    are the selector itself, when the selectors of the rule occur in the
    selector one after the other; and the selector that the program
    computes is made of the same slices and tail, with, in place of each
    pseudo-class, the string of the value of its expression. *)
Theorem X16_selector_substitution
    (Function_ : jstring -> option ParseError)
    (acorn : option (jstring -> option ParseError))
    (replaceImport : Code -> option Code)
    (selectors : jstring -> list jstring)
    (offsetAt : option Source -> Z -> Z)
    (inspect : value -> Z -> jstring)
    (Env : Type)
    (runValue : Iterate Env -> Env -> Fragment -> option (Env * ending))
    (selector : jstring) (source : option Source) (s : CState)
    (sc : SelectorCode) (s' : CState)
    (Ho : inOrder (selectors selector) selector)
    (H : compileSelector Function_ acorn replaceImport selectors offsetAt
           selector source s
         = Good (Some sc) s') :
  selector = template (sc_pieces sc) ++ sc_tail sc
  /\ forall runProgram m m' t,
       evalSelector inspect Env runValue runProgram (sc_pieces sc)
         (sc_tail sc) m = Some (m', Ok t) ->
       exists ts,
         t = filled (sc_pieces sc) ts ++ sc_tail sc
         /\ Forall2 (fun pf x => exists e e' v,
                       runValue runProgram e pf.2 = Some (e', Done v)
                       /\ isStringifiable v = true
                       /\ x = String_ (unexpected_message inspect) v)
              (sc_pieces sc) ts.
Proof.
  split; [by eapply compileSelector_template|].
  intros runProgram m m' t. apply evalSelector_filled.
Qed.

Lemma X16_witness :
  Samples.selector
  = template (sc_pieces Samples.selectorCode) ++ sc_tail Samples.selectorCode
  /\ forall runProgram m m' t,
       evalSelector Demo.inspect () Demo.runValue runProgram
         (sc_pieces Samples.selectorCode) (sc_tail Samples.selectorCode) m
       = Some (m', Ok t) ->
       exists ts,
         t = filled (sc_pieces Samples.selectorCode) ts
             ++ sc_tail Samples.selectorCode
         /\ Forall2 (fun pf x => exists e e' v,
                       Demo.runValue runProgram e pf.2 = Some (e', Done v)
                       /\ isStringifiable v = true
                       /\ x = String_ (unexpected_message Demo.inspect) v)
              (sc_pieces Samples.selectorCode) ts.
Proof.
  refine (X16_selector_substitution Demo.Function_ None Some Samples.selectors
            Demo.offsetAt Demo.inspect () Demo.runValue Samples.selector
            (Demo.at_ "1.css" 0) Demo.state0 Samples.selectorCode _ _ eq_refl).
  exists [], (lit ", :@js(x)"). split; [reflexivity|].
  exists (lit ", "), []. split; [reflexivity|exact I].
Defined.



(** X18.  [compactStackTrace] only drops lines from the end: its result
    is a prefix of the stack.  A stack compared with itself leaves the
    empty string; without a base trace (anything but a string that is not
    empty) the stack is returned whole; and a stack that is not a string,
    or is empty, gives the empty string. *)
Theorem X18_compact_prefix :
  (forall s base,
     exists t, s = StackTrace.compactStackTrace (VString s) base ++ t)
  /\ (forall s, StackTrace.compactStackTrace (VString s) (VString s) = [])
  /\ (forall s base,
        StackTrace.nonEmpty base = None ->
        StackTrace.compactStackTrace (VString s) base = s)
  /\ (forall stack base,
        StackTrace.nonEmpty stack = None ->
        StackTrace.compactStackTrace stack base = []).
Proof.
  split; [apply compactStackTrace_prefix|].
  split; [apply compactStackTrace_self|]. split.
  - intros s base Hb. unfold StackTrace.compactStackTrace. rewrite Hb.
    by destruct s.
  - intros stack base Hs. unfold StackTrace.compactStackTrace. by rewrite Hs.
Qed.

Lemma X18_witness :
  StackTrace.compactStackTrace (VString (lit "Error: x")) VUndefined
  = lit "Error: x".
Proof.
  exact (proj1 (proj2 (proj2 X18_compact_prefix)) (lit "Error: x") VUndefined
           eq_refl).
Defined.

(** X19.  The source that [getStackTrace] answers for an error whose trace
    is prepared: the first answer of [find], in the order of the frames,
    that is a source with a start position; when there is none, the first
    answer that is a position; when there is none either, [undefined]. *)
Theorem X19_trace_source
    (find : StackTrace.CallSite -> StackTrace.Found) (name : value)
    (message : jstring) (frames : list StackTrace.CallSite) :
  (StackTrace.getStackTrace find (StackTrace.Pending name message frames)).2
  = chosen (find <$> frames).
Proof. apply getStackTrace_source. Qed.

(** X20.  Where [evaluate] reports an error object that the program threw:
    at the source of the first frame of the generated code that the source
    map finds with a start position; when there is none, at the source that
    the source map finds for the position that the guard of a container
    hid on the error; and at no position when there is none either. *)
Theorem X20_report_place
    (fromOffset : Input -> Z -> option (Z * Z))
    (highlight : Code -> Z -> jstring)
    (code : Code) (origin : jstring) (error : exn) (name : value)
    (message : jstring) (frames : list StackTrace.CallSite)
    (random : jstring) (current : list StackTrace.CallSite)
    (H : (match error with Exn what _ _ => isObject what end) = true) :
  place (Evaluate.report fromOffset highlight code origin error
           (StackTrace.Pending name message frames) random current)
  = match head (omap positioned
                  (Evaluate.find fromOffset code origin <$> frames)) with
    | Some s => Some (sourcePlace s)
    | None =>
        match getErrorPos error with
        | Some p => sourcePlace <$> find fromOffset code p
        | None => None
        end
    end.
Proof. by apply report_place. Qed.

Lemma X20_witness :
  place (Evaluate.report Demo.fromOffset Samples.highlight Demo.fragment
           Samples.evalOrigin Samples.taggedError
           (StackTrace.Pending (VString (lit "Error")) (lit "testfail")
              [Samples.hostFrame; Samples.evalFrame 2])
           (lit "0.5") [Samples.hostFrame])
  = Some (Demo.input_of "1.css", 14).
Proof.
  exact (X20_report_place Demo.fromOffset Samples.highlight Demo.fragment
           Samples.evalOrigin Samples.taggedError (VString (lit "Error"))
           (lit "testfail") [Samples.hostFrame; Samples.evalFrame 2]
           (lit "0.5") [Samples.hostFrame] eq_refl).
Defined.

(** X21.  A thrown value that is not an object (a string, say) has no
    stack and takes no position: [evaluate] reports it at the root, with
    the message 'uncaught exception' followed by the line '(failed to
    determine where the error happened)'. *)
Theorem X21_report_primitive
    (fromOffset : Input -> Z -> option (Z * Z))
    (highlight : Code -> Z -> jstring)
    (code : Code) (origin : jstring) (what : value) (ext : bool)
    (tag : option Z) (stack : StackTrace.Stack) (random : jstring)
    (current : list StackTrace.CallSite)
    (H : isObject what = false) :
  Evaluate.report fromOffset highlight code origin (Exn what ext tag) stack
    random current
  = Evaluate.AtRoot
      (lit "uncaught exception" ++ [c_lf]
       ++ lit "(failed to determine where the error happened)").
Proof. by apply report_primitive. Qed.

Lemma X21_witness :
  Evaluate.report Demo.fromOffset Samples.highlight Demo.fragment
    Samples.evalOrigin Demo.testfail StackTrace.NoStack (lit "0.5")
    [Samples.hostFrame]
  = Evaluate.AtRoot
      (lit "uncaught exception" ++ [c_lf]
       ++ lit "(failed to determine where the error happened)").
Proof.
  exact (X21_report_primitive Demo.fromOffset Samples.highlight Demo.fragment
           Samples.evalOrigin (VString (lit "testfail")) false None
           StackTrace.NoStack (lit "0.5") [Samples.hostFrame] eq_refl).
Defined.

(** X22.  What [CODE] makes of a string of its template
    ([s.replace(/\s+^\s*/gm, '')]): no line terminator is left in it; what
    is not white space is kept, in its order; and a string without a line
    terminator is kept as it is, its spaces too. *)
Theorem X22_template_line_breaks (s : jstring) :
  Forall (fun c => is_line_terminator c = false) (Generate.squeeze s)
  /\ List.filter (fun c => negb (is_space c)) (Generate.squeeze s)
     = List.filter (fun c => negb (is_space c)) s
  /\ (Forall (fun c => is_line_terminator c = false) s ->
      Generate.squeeze s = s).
Proof.
  unfold Generate.squeeze. split; [|split].
  - apply squeezeFrom_no_break. by intros _.
  - by apply squeezeFrom_text.
  - intros H. by rewrite squeezeFrom_plain.
Qed.

(** X23.  An [Offset] placeholder among the items of a script is written
    by [generate] as the decimal of the place where it is written: the
    length of the text of the script before it, which is the head of the
    function followed by what the items before the placeholder are written
    as. *)
Theorem X23_offset_own_position
    (draws : list jstring) (source : Generate.NCode Generate.ScriptItem)
    (g : Generate.Generated) (pre post : list Generate.ScriptItem)
    (Hg : Generate.generate draws source = Some g)
    (Hl : leaves source = pre ++ Generate.IOffset :: post) :
  exists before after,
    Generate.ntoString (Generate.gen_code g)
    = before ++ StackTrace.decimal (len before) ++ after
    /\ before
       = scriptHead (Generate.gen_id g)
         ++ render (Generate.gen_id g)
              (nameIn (Generate.argMap
                         (Generate.ntranslate Generate.first source
                            genState0).2) <$> pre)
              (len (scriptHead (Generate.gen_id g))).
Proof.
  destruct (first_code source) as (_ & Hf & _).
  eapply (generate_offset draws source g); [exact Hg|].
  by rewrite Hf, Hl, fmap_app.
Qed.

Lemma X23_witness :
  exists before after,
    Generate.ntoString (Generate.gen_code ScriptSamples.generated)
    = before ++ StackTrace.decimal (len before) ++ after
    /\ before
       = scriptHead (Generate.gen_id ScriptSamples.generated)
         ++ render (Generate.gen_id ScriptSamples.generated)
              (nameIn (Generate.argMap
                         (Generate.ntranslate Generate.first
                            ScriptSamples.call genState0).2)
               <$> [Generate.IString (lit "$1f(")])
              (len (scriptHead (Generate.gen_id ScriptSamples.generated))).
Proof.
  exact (X23_offset_own_position ScriptSamples.draws ScriptSamples.call
           ScriptSamples.generated [Generate.IString (lit "$1f(")]
           [Generate.IString (lit ","); Generate.IObject 7;
            Generate.IString (lit ","); Generate.IVariable 3;
            Generate.IString (lit ","); Generate.IObject 7;
            Generate.IString (lit ")")]
           eq_refl eq_refl).
Defined.

(** X24.  The script that [generate] gives, for some numbering of the
    objects among its items: its text is the head of the function, the
    items in their order (a string as it is, an object by its number) and
    the end; the arguments are the objects of the source that are not
    variables, each once; an object is written with the index at which the
    arguments have it, a variable with a negative number; and no two
    objects have the same number. *)
Theorem X24_script_arguments
    (draws : list jstring) (source : Generate.NCode Generate.ScriptItem)
    (g : Generate.Generated)
    (Hg : Generate.generate draws source = Some g) :
  exists m,
    Generate.ntoString (Generate.gen_code g)
    = scriptText (Generate.gen_id g) m (leaves source)
    /\ NoDup (Generate.gen_args g)
    /\ (forall x, x ∈ Generate.gen_args g
                  <-> x ∈ leaves source /\ isObjectItem x = true)
    /\ (forall a, Generate.IObject a ∈ leaves source ->
          exists i, Generate.mapGet (Generate.IObject a) m = Some i
                    /\ 0 <= i
                    /\ Generate.gen_args g !! Z.to_nat i
                       = Some (Generate.IObject a))
    /\ (forall a, Generate.IVariable a ∈ leaves source ->
          exists i, Generate.mapGet (Generate.IVariable a) m = Some i
                    /\ i < 0)
    /\ (forall x y i, Generate.mapGet x m = Some i ->
                      Generate.mapGet y m = Some i -> x = y).
Proof.
  destruct (generate_script _ _ _ Hg) as (st & Est & Ha & _ & Ht).
  destruct (first_code source) as (Hok & _ & Hin & Hsome & _).
  rewrite <- Est in Hok, Hin, Hsome. rewrite Ha.
  pose proof Hok as (H0 & H1 & H2 & H3).
  exists (Generate.argMap st). split; [exact Ht|].
  split; [by apply numbered_ok_NoDup|]. split; [|split; [|split; [|exact H2]]].
  - intros x. split.
    + intros Hx. split; [by apply Hin|by eapply numbered_ok_args].
    + intros [Hx Ho]. destruct x as [| | | | | | |a]; try done.
      destruct (Hsome _ Hx eq_refl) as [i Hi].
      destruct (H1 _ _ Hi) as [(b & [=] & _)|(b & _ & _ & Hl)].
      by eapply list_elem_of_lookup_2.
  - intros a Hx. destruct (Hsome _ Hx eq_refl) as [i Hi]. exists i.
    destruct (H1 _ _ Hi) as [(b & [=] & _)|(b & _ & Hi0 & Hl)]. done.
  - intros a Hx. destruct (Hsome _ Hx eq_refl) as [i Hi]. exists i.
    destruct (H1 _ _ Hi) as [(b & _ & Hr)|(b & [=] & _)].
    split; [done|lia].
Qed.

Lemma X24_witness :
  exists m,
    Generate.ntoString (Generate.gen_code ScriptSamples.generated)
    = scriptText (Generate.gen_id ScriptSamples.generated) m
        (leaves ScriptSamples.call)
    /\ NoDup (Generate.gen_args ScriptSamples.generated)
    /\ (forall x, x ∈ Generate.gen_args ScriptSamples.generated
                  <-> x ∈ leaves ScriptSamples.call
                      /\ isObjectItem x = true)
    /\ (forall a, Generate.IObject a ∈ leaves ScriptSamples.call ->
          exists i, Generate.mapGet (Generate.IObject a) m = Some i
                    /\ 0 <= i
                    /\ Generate.gen_args ScriptSamples.generated
                       !! Z.to_nat i
                       = Some (Generate.IObject a))
    /\ (forall a, Generate.IVariable a ∈ leaves ScriptSamples.call ->
          exists i, Generate.mapGet (Generate.IVariable a) m = Some i
                    /\ i < 0)
    /\ (forall x y i, Generate.mapGet x m = Some i ->
                      Generate.mapGet y m = Some i -> x = y).
Proof.
  exact (X24_script_arguments ScriptSamples.draws ScriptSamples.call
           ScriptSamples.generated eq_refl).
Defined.

(** X25.  The name that [generate] gives to the parameter of the script:
    [$] followed by the first draw for which the strings of the items,
    joined, do not include the name; the draws before it were given up
    because the strings include them. *)
Theorem X25_fresh_name
    (draws : list jstring) (source : Generate.NCode Generate.ScriptItem)
    (g : Generate.Generated)
    (Hg : Generate.generate draws source = Some g) :
  exists pre d post,
    draws = pre ++ d :: post
    /\ Generate.gen_id g = lit "$" ++ d
    /\ includes (Generate.gen_id g)
         (concat (omap textOf (nameIn [] <$> leaves source))) = false
    /\ Forall (fun e =>
                 includes (lit "$" ++ e)
                   (concat (omap textOf (nameIn [] <$> leaves source)))
                 = true) pre.
Proof.
  destruct (generate_script _ _ _ Hg) as (st & Est & _ & Hp & _).
  destruct (first_code source) as (_ & _ & _ & _ & Hc).
  rewrite <- Est in Hc. rewrite Hc, textOf_nameIn in Hp.
  by apply pickId_first.
Qed.

Lemma X25_witness :
  exists pre d post,
    ScriptSamples.draws = pre ++ d :: post
    /\ Generate.gen_id ScriptSamples.generated = lit "$" ++ d
    /\ includes (Generate.gen_id ScriptSamples.generated)
         (concat (omap textOf
                    (nameIn [] <$> leaves ScriptSamples.call))) = false
    /\ Forall (fun e =>
                 includes (lit "$" ++ e)
                   (concat (omap textOf
                              (nameIn [] <$> leaves ScriptSamples.call)))
                 = true) pre.
Proof.
  exact (X25_fresh_name ScriptSamples.draws ScriptSamples.call
           ScriptSamples.generated eq_refl).
Defined.
